(** * cnpjmei: the debit extraction engines and their dispatcher

    A shallow embedding of the JavaScript sources:

      - [Server]      the dispatcher (cache, key, identifier check) of server.js;
      - [Puppeteer]   the Puppeteer engine (scrape.js);
      - [Parallel]    the Playwright engine with one page per year;
      - [Playwright]  the Playwright engine that reuses one page (scrape_playwright.js).

    Module [JS] holds the part of the ECMAScript library the sources call:
    strings as sequences of UTF-16 code units, a backtracking matcher for
    the regular expression literals, [Number] on strings, [Map] and object
    literals with their insertion order. *)

From Stdlib Require Import String Ascii.
From Stdlib Require Import List NArith ZArith QArith Bool Lia Arith Permutation.
Import ListNotations.
Close Scope Q_scope.
Open Scope list_scope.

Set Implicit Arguments.

(* ===================================================================== *)
(** * The ECMAScript library, as far as the sources use it               *)
(* ===================================================================== *)
Module JS.

(** A string is its sequence of UTF-16 code units. *)
Definition jsstring := list N.

(** Literals are written as in the sources (UTF-8) and decoded. *)
Fixpoint utf16_of_utf8 (bs : list N) : jsstring :=
  match bs with
  | [] => []
  | b :: t =>
    if (b <? 128)%N then b :: utf16_of_utf8 t
    else if (b <? 224)%N then
      match t with
      | b2 :: t2 => ((b - 192) * 64 + (b2 - 128))%N :: utf16_of_utf8 t2
      | [] => []
      end
    else if (b <? 240)%N then
      match t with
      | b2 :: b3 :: t3 =>
        ((b - 224) * 4096 + (b2 - 128) * 64 + (b3 - 128))%N :: utf16_of_utf8 t3
      | _ => []
      end
    else
      match t with
      | b2 :: b3 :: b4 :: t4 =>
        let cp := ((b - 240) * 262144 + (b2 - 128) * 4096 + (b3 - 128) * 64 + (b4 - 128))%N in
        let v := (cp - 65536)%N in
        (55296 + v / 1024)%N :: (56320 + v mod 1024)%N :: utf16_of_utf8 t4
      | _ => []
      end
  end.

Fixpoint bytes_of_string (s : String.string) : list N :=
  match s with
  | String.EmptyString => []
  | String.String a s' => Ascii.N_of_ascii a :: bytes_of_string s'
  end.

Definition str (s : String.string) : jsstring := utf16_of_utf8 (bytes_of_string s).
Arguments str s%_string.

Fixpoint streqb (a b : jsstring) : bool :=
  match a, b with
  | [], [] => true
  | x :: a', y :: b' => (x =? y)%N && streqb a' b'
  | _, _ => false
  end.

(** Truthiness of a string: the empty string is falsy. *)
Definition truthy_str (s : jsstring) : bool :=
  match s with [] => false | _ => true end.

(** [a || b] on strings. *)
Definition or_str (a b : jsstring) : jsstring := if truthy_str a then a else b.

(** [x || ''] where [x] is undefined, null or a string. *)
Definition or_empty (x : option jsstring) : jsstring :=
  match x with Some s => s | None => [] end.

(** ** Character classes *)

(** [\d] *)
Definition is_digit (c : N) : bool := ((48 <=? c) && (c <=? 57))%N.

(** [\s], and what [trim] strips: WhiteSpace and LineTerminator. *)
Definition is_space (c : N) : bool :=
  ((9 <=? c) && (c <=? 13) || (c =? 32) || (c =? 160) || (c =? 5760)
   || (8192 <=? c) && (c <=? 8202) || (c =? 8232) || (c =? 8233)
   || (c =? 8239) || (c =? 8287) || (c =? 12288) || (c =? 65279))%N.

Definition is_char (x : N) (c : N) : bool := (c =? x)%N.

(** ** [String.prototype.includes] *)
Fixpoint prefixb (p s : jsstring) : bool :=
  match p, s with
  | [], _ => true
  | a :: p', b :: s' => (a =? b)%N && prefixb p' s'
  | _ :: _, [] => false
  end.

Fixpoint includes (s sub : jsstring) : bool :=
  prefixb sub s || match s with [] => false | _ :: s' => includes s' sub end.

(** ** [String.prototype.trim] *)
Fixpoint trimStart (s : jsstring) : jsstring :=
  match s with
  | c :: s' => if is_space c then trimStart s' else s
  | [] => []
  end.

Definition trimEnd (s : jsstring) : jsstring := rev (trimStart (rev s)).

Definition trim (s : jsstring) : jsstring := trimEnd (trimStart s).

(** ** Regular expressions

    The literals of the sources use classes, sequence, alternation, greedy
    repetition and the two anchors; [r+] is [r r*] and [r{2,}] is [r r r*]. *)
Inductive regex :=
| RChar (p : N -> bool)
| REps
| RSeq (r1 r2 : regex)
| RAlt (r1 r2 : regex)
| RStar (r : regex)
| RBol
| REol.

Definition RPlus (r : regex) : regex := RSeq r (RStar r).

(** The backtracking matcher of the language definition, in continuation
    style: [i] is the index of the head of [s] in the subject, the
    continuation receives the state after the match and the answer is the
    end index of the whole match.  An iteration of [r*] that consumes
    nothing is refused, alternatives are tried left to right, repetition is
    greedy. *)
Fixpoint rmatch (r : regex) (i : nat) (s : jsstring)
         (k : nat -> jsstring -> option nat) {struct r} : option nat :=
  match r with
  | RChar p =>
    match s with
    | c :: s' => if p c then k (S i) s' else None
    | [] => None
    end
  | REps => k i s
  | RSeq r1 r2 => rmatch r1 i s (fun j t => rmatch r2 j t k)
  | RAlt r1 r2 =>
    match rmatch r1 i s k with
    | Some e => Some e
    | None => rmatch r2 i s k
    end
  | RStar r1 =>
    (fix loop (fuel : nat) (i : nat) (s : jsstring) {struct fuel} : option nat :=
       match fuel with
       | 0 => k i s
       | S fuel' =>
         match rmatch r1 i s
                 (fun j t => if length t <? length s then loop fuel' j t else None) with
         | Some e => Some e
         | None => k i s
         end
       end) (length s) i s
  | RBol => if i =? 0 then k i s else None
  | REol => match s with [] => k i s | _ :: _ => None end
  end.

(** A match that starts exactly at the head of [s]. *)
Definition match_at (r : regex) (i : nat) (s : jsstring) : option nat :=
  rmatch r i s (fun j _ => Some j).

(** The leftmost match at or after the head of [s]: start and end index. *)
Fixpoint search (r : regex) (i : nat) (s : jsstring) : option (nat * nat) :=
  match match_at r i s with
  | Some e => Some (i, e)
  | None =>
    match s with
    | [] => None
    | _ :: s' => search r (S i) s'
    end
  end.

(** [re.test(s)] for a literal without the [g] flag. *)
Definition test (r : regex) (s : jsstring) : bool :=
  match search r 0 s with Some _ => true | None => false end.

(** [re.test(s)] for a regular expression object with the [g] flag: the
    search starts at [lastIndex]; a hit moves [lastIndex] to the end of the
    match, a miss resets it to 0. *)
Definition test_g (r : regex) (lastIndex : nat) (s : jsstring) : bool * nat :=
  if length s <? lastIndex then (false, 0)
  else
    match search r lastIndex (skipn lastIndex s) with
    | Some (_, e) => (true, e)
    | None => (false, 0)
    end.

(** [s.replace(re, by)] for a literal with the [g] flag; [skip] counts the
    code units of the current match still to be dropped. *)
Fixpoint replace_g_from (r : regex) (by_ : jsstring) (i : nat) (s : jsstring)
         (skip : nat) {struct s} : jsstring :=
  match skip with
  | S skip' =>
    match s with
    | [] => []
    | _ :: s' => replace_g_from r by_ (S i) s' skip'
    end
  | 0 =>
    match match_at r i s with
    | Some e =>
      by_ ++ match s with
             | [] => []
             | c :: s' =>
               if e =? i then c :: replace_g_from r by_ (S i) s' 0
               else replace_g_from r by_ (S i) s' (e - i - 1)
             end
    | None =>
      match s with
      | [] => []
      | c :: s' => c :: replace_g_from r by_ (S i) s' 0
      end
    end
  end.

Definition replace_g (r : regex) (by_ : jsstring) (s : jsstring) : jsstring :=
  replace_g_from r by_ 0 s 0.

(** [s.replace(pat, by)] for a string pattern: the first occurrence only. *)
Fixpoint replace_first (pat by_ : jsstring) (s : jsstring) : jsstring :=
  if prefixb pat s then by_ ++ skipn (length pat) s
  else match s with
       | [] => []
       | c :: s' => c :: replace_first pat by_ s'
       end.

(** [s.split(re)]: [cur] is the piece being collected (reversed), [skip] as
    in [replace_g_from].  An empty match splits unless the piece is empty. *)
Fixpoint split_from (r : regex) (i : nat) (s : jsstring) (skip : nat)
         (cur : jsstring) {struct s} : list jsstring :=
  match s with
  | [] => [rev cur]
  | c :: s' =>
    match skip with
    | S skip' => split_from r (S i) s' skip' cur
    | 0 =>
      match match_at r i s with
      | Some e =>
        if e <=? i then
          match cur with
          | [] => split_from r (S i) s' 0 [c]
          | _ :: _ => rev cur :: split_from r (S i) s' 0 [c]
          end
        else rev cur :: split_from r (S i) s' (e - i - 1) []
      | None => split_from r (S i) s' 0 (c :: cur)
      end
    end
  end.

Definition split (r : regex) (s : jsstring) : list jsstring :=
  match s with
  | [] => match match_at r 0 [] with Some _ => [] | None => [[]] end
  | _ => split_from r 0 s 0 []
  end.

(** ** Numbers

    A number is kept as the exact value its literal denotes; the engine
    stores the nearest IEEE-754 double of it.  The two print alike for a
    literal of at most 15 significant digits; a longer literal is rounded
    by the engine, and one beyond the largest double is Infinity there. *)
Inductive jsnum :=
| NaN
| Fin (q : Q)
| Inf (negative : bool).

Fixpoint take_digits (s : jsstring) : jsstring * jsstring :=
  match s with
  | c :: s' =>
    if is_digit c then let (ds, r) := take_digits s' in (c :: ds, r) else ([], s)
  | [] => ([], [])
  end.

Definition digits_value (base : N) (ds : list N) : N :=
  fold_left (fun acc d => (acc * base + d)%N) ds 0%N.

Definition decimal_value (ds : jsstring) : N :=
  digits_value 10 (map (fun c => (c - 48)%N) ds).

Definition hex_digit (c : N) : option N :=
  if is_digit c then Some (c - 48)%N
  else if ((97 <=? c) && (c <=? 102))%N then Some (c - 87)%N
  else if ((65 <=? c) && (c <=? 70))%N then Some (c - 55)%N
  else None.

Definition radix_digit (base : N) (c : N) : option N :=
  match hex_digit c with
  | Some d => if (d <? base)%N then Some d else None
  | None => None
  end.

Fixpoint radix_digits (base : N) (s : jsstring) : option (list N) :=
  match s with
  | [] => Some []
  | c :: s' =>
    match radix_digit base c, radix_digits base s' with
    | Some d, Some ds => Some (d :: ds)
    | _, _ => None
    end
  end.

Definition parse_radix (base : N) (s : jsstring) : jsnum :=
  match s, radix_digits base s with
  | _ :: _, Some ds => Fin (inject_Z (Z.of_N (digits_value base ds)))
  | _, _ => NaN
  end.

(** ExponentPart, applied to the mantissa [m]. *)
Definition parse_exponent (m : Q) (s : jsstring) : jsnum :=
  match s with
  | [] => Fin m
  | c :: s' =>
    if ((c =? 101) || (c =? 69))%N then
      let '(neg, s'') :=
        match s' with
        | 43%N :: t => (false, t)
        | 45%N :: t => (true, t)
        | _ => (false, s')
        end in
      match take_digits s'' with
      | ((_ :: _) as ds, []) =>
        let e := Z.of_N (decimal_value ds) in
        Fin (Qmult m (Qpower (inject_Z 10) (if neg then (- e)%Z else e)))
      | _ => NaN
      end
    else NaN
  end.

(** StrUnsignedDecimalLiteral without the Infinity case. *)
Definition parse_unsigned_decimal (s : jsstring) : jsnum :=
  let (ip, r1) := take_digits s in
  match r1 with
  | 46%N :: r2 =>
    let (fp, r3) := take_digits r2 in
    match ip, fp with
    | [], [] => NaN
    | _, _ =>
      parse_exponent
        (Qmake (Z.of_N (decimal_value (ip ++ fp))) (Z.to_pos (10 ^ Z.of_nat (length fp))))
        r3
    end
  | _ =>
    match ip with
    | [] => NaN
    | _ :: _ => parse_exponent (inject_Z (Z.of_N (decimal_value ip))) r1
    end
  end.

Definition negate (n : jsnum) : jsnum :=
  match n with
  | NaN => NaN
  | Fin q => Fin (Qopp q)
  | Inf b => Inf (negb b)
  end.

Definition parse_decimal (s : jsstring) : jsnum :=
  if streqb s (str "Infinity") then Inf false else parse_unsigned_decimal s.

(** [Number(s)] on a string: StringToNumber. *)
Definition Number (s : jsstring) : jsnum :=
  match trim s with
  | [] => Fin 0
  | 48%N :: c :: t =>
    if ((c =? 120) || (c =? 88))%N then parse_radix 16 t
    else if ((c =? 111) || (c =? 79))%N then parse_radix 8 t
    else if ((c =? 98) || (c =? 66))%N then parse_radix 2 t
    else parse_decimal (48%N :: c :: t)
  | 43%N :: t => parse_decimal t
  | 45%N :: t => negate (parse_decimal t)
  | t => parse_decimal t
  end.

(** Decimal printing of an index, for template literals. *)
Fixpoint uint_to_str (u : Decimal.uint) : jsstring :=
  match u with
  | Decimal.Nil => []
  | Decimal.D0 u => 48%N :: uint_to_str u
  | Decimal.D1 u => 49%N :: uint_to_str u
  | Decimal.D2 u => 50%N :: uint_to_str u
  | Decimal.D3 u => 51%N :: uint_to_str u
  | Decimal.D4 u => 52%N :: uint_to_str u
  | Decimal.D5 u => 53%N :: uint_to_str u
  | Decimal.D6 u => 54%N :: uint_to_str u
  | Decimal.D7 u => 55%N :: uint_to_str u
  | Decimal.D8 u => 56%N :: uint_to_str u
  | Decimal.D9 u => 57%N :: uint_to_str u
  end.

Definition nat_to_str (n : nat) : jsstring := uint_to_str (Nat.to_uint n).

(** ** Values, object literals and JSON *)
#[local] Unset Elimination Schemes.
Inductive jsval :=
| VNull
| VStr (s : jsstring)
| VNum (n : jsnum)
| VArr (items : list jsval)
| VObj (fields : list (jsstring * jsval)).
#[local] Set Elimination Schemes.

Definition strs (l : list jsstring) : jsval := VArr (map VStr l).

(** An object is the list of its properties in insertion order (the engine
    lists properties whose names are array indices first; the order is
    used here for the other names only). *)
Definition obj := list (jsstring * jsval).

Fixpoint obj_get (k : jsstring) (o : obj) : option jsval :=
  match o with
  | [] => None
  | (k', v) :: o' => if streqb k' k then Some v else obj_get k o'
  end.

(** [o[k] = v]: an existing property keeps its place. *)
Fixpoint obj_set (k : jsstring) (v : jsval) (o : obj) : obj :=
  match o with
  | [] => [(k, v)]
  | (k', v') :: o' => if streqb k' k then (k', v) :: o' else (k', v') :: obj_set k v o'
  end.

Definition obj_keys (o : obj) : list jsstring := map fst o.

(** [JSON.parse(JSON.stringify(v))]: a number that is not finite becomes
    null. *)
Fixpoint jsonify (v : jsval) : jsval :=
  match v with
  | VNum NaN => VNull
  | VNum (Inf _) => VNull
  | VArr l => VArr (map jsonify l)
  | VObj fs => VObj (map (fun kv => (fst kv, jsonify (snd kv))) fs)
  | _ => v
  end.

(** ** [Map]: entries in insertion order *)
Section JSMap.
Variable V : Type.

Definition jsmap := list (jsstring * V).

Fixpoint map_get (k : jsstring) (m : jsmap) : option V :=
  match m with
  | [] => None
  | (k', v) :: m' => if streqb k' k then Some v else map_get k m'
  end.

Definition map_delete (k : jsstring) (m : jsmap) : jsmap :=
  filter (fun kv => negb (streqb (fst kv) k)) m.

(** [m.set(k, v)]: a present key keeps its position, a new one goes last. *)
Fixpoint map_set (k : jsstring) (v : V) (m : jsmap) : jsmap :=
  match m with
  | [] => [(k, v)]
  | (k', v') :: m' => if streqb k' k then (k', v) :: m' else (k', v') :: map_set k v m'
  end.

Definition map_size (m : jsmap) : nat := length m.

(** [m.keys().next().value] *)
Definition map_first_key (m : jsmap) : option jsstring :=
  match m with
  | [] => None
  | (k, _) :: _ => Some k
  end.

Definition map_keys (m : jsmap) : list jsstring := map fst m.

End JSMap.

(** ** Exceptions *)
Record js_error := { err_name : jsstring; err_message : jsstring }.

(** [String(err)] for an Error object. *)
Definition error_toString (e : js_error) : jsstring :=
  match err_name e, err_message e with
  | [], m => m
  | n, [] => n
  | n, m => n ++ str ": " ++ m
  end.

Inductive outcome (A : Type) :=
| Returned (a : A)
| Thrown (e : js_error).
Arguments Returned {A} a.
Arguments Thrown {A} e.

End JS.

Import JS.

(* ===================================================================== *)
(** * The dispatcher (server.js)                                         *)
(* ===================================================================== *)
Module Server.

Section Dispatcher.

(** What the aggregate file parses to: an object, hence truthy. *)
Variable V : Type.

Definition CACHE_TTL : Z := 1000 * 60 * 10.
Definition CACHE_MAX : nat := 200.

Record entry := { ts : Z; value : V }.

Definition cache := jsmap entry.

Definition makeKey (cnpj year month : option jsstring) : jsstring :=
  or_empty cnpj ++ str "|" ++ or_empty year ++ str "|" ++ or_empty month.

(** [now] is [Date.now()]; the answer comes with the cache as it is left. *)
Definition getFromCache (now : Z) (key : jsstring) (c : cache) : option V * cache :=
  match map_get key c with
  | None => (None, c)
  | Some e =>
    if (now - ts e >? CACHE_TTL)%Z then (None, map_delete key c)
    else (Some (value e), map_set key e (map_delete key c))
  end.

Definition setToCache (now : Z) (key : jsstring) (v : V) (c : cache) : cache :=
  let c' :=
    if CACHE_MAX <=? map_size c then
      match map_first_key c with
      | Some first => map_delete first c
      | None => c
      end
    else c in
  map_set key {| ts := now; value := v |} c'.

(** [/[^0-9]/] *)
Definition non_digit : regex :=
  RChar (fun c => negb ((48 <=? c) && (c <=? 57))%N).

Definition sanitizeCNPJ (cnpj : option jsstring) : option jsstring :=
  match cnpj with
  | None => None
  | Some [] => None
  | Some s => Some (replace_g non_digit [] s)
  end.

(** The fields of a request, as strings when present. *)
Record request := {
  req_cnpj : option jsstring;
  req_year : option jsstring;
  req_month : option jsstring;
  req_noHeadless : bool;
  req_engine : option jsstring
}.

Definition SCRAPE_SCRIPT : jsstring := str "scrape.js".
Definition SCRAPE_PLAYWRIGHT : jsstring := str "scrape_playwright.js".

Inductive reply :=
| BadRequest
| FromCache (result : V)
| Spawn (args : list jsstring) (key : jsstring).

Definition truthy_opt (x : option jsstring) : bool := truthy_str (or_empty x).

Definition scrape_args (cnpjRaw : jsstring) (r : request) : list jsstring :=
  let engine := or_str (or_empty (req_engine r)) (str "puppeteer") in
  let script := if streqb engine (str "playwright") then SCRAPE_PLAYWRIGHT else SCRAPE_SCRIPT in
  [script; str "--cnpj=" ++ cnpjRaw]
  ++ (if truthy_opt (req_year r) then [str "--year=" ++ or_empty (req_year r)] else [])
  ++ (if truthy_opt (req_month r) then [str "--month=" ++ or_empty (req_month r)] else [])
  ++ (if req_noHeadless r then [str "--no-headless"] else []).

Definition request_key (cnpjRaw : jsstring) (r : request) : jsstring :=
  makeKey (Some cnpjRaw) (req_year r) (req_month r).

(** The POST /scrape handler up to the spawn. *)
Definition scrape (now : Z) (r : request) (c : cache) : reply * cache :=
  match sanitizeCNPJ (Some (or_empty (req_cnpj r))) with
  | None => (BadRequest, c)
  | Some cnpjRaw =>
    if length cnpjRaw <? 11 then (BadRequest, c)
    else
      let key := request_key cnpjRaw r in
      match getFromCache now key c with
      | (Some cached, c') => (FromCache cached, c')
      | (None, c') => (Spawn (scrape_args cnpjRaw r) key, c')
      end
  end.

(** The exit handler of the child: [output] is the parsed aggregate file
    when it exists. *)
Definition on_exit (now : Z) (key : jsstring) (output : option V) (c : cache) : cache :=
  match output with
  | Some json => setToCache now key json c
  | None => c
  end.

(** The GET /scrape handler.  The fields come from the query string, each
    given once: [noHeadless] is a string when it is there, and the string
    "0" does not ask for a visible browser. *)
Record query := {
  q_cnpj : option jsstring;
  q_year : option jsstring;
  q_month : option jsstring;
  q_noHeadless : option jsstring;
  q_engine : option jsstring
}.

Definition query_args (cnpjRaw : jsstring) (q : query) : list jsstring :=
  let engine := or_str (or_empty (q_engine q)) (str "puppeteer") in
  let script := if streqb engine (str "playwright") then SCRAPE_PLAYWRIGHT else SCRAPE_SCRIPT in
  [script; str "--cnpj=" ++ cnpjRaw]
  ++ (if truthy_opt (q_year q) then [str "--year=" ++ or_empty (q_year q)] else [])
  ++ (if truthy_opt (q_month q) then [str "--month=" ++ or_empty (q_month q)] else [])
  ++ (if truthy_opt (q_noHeadless q) && negb (streqb (or_empty (q_noHeadless q)) (str "0"))
      then [str "--no-headless"] else []).

Definition scrape_get (now : Z) (q : query) (c : cache) : reply * cache :=
  match sanitizeCNPJ (Some (or_empty (q_cnpj q))) with
  | None => (BadRequest, c)
  | Some cnpjRaw =>
    if length cnpjRaw <? 11 then (BadRequest, c)
    else
      let key := makeKey (Some cnpjRaw) (q_year q) (q_month q) in
      match getFromCache now key c with
      | (Some cached, c') => (FromCache cached, c')
      | (None, c') => (Spawn (query_args cnpjRaw q) key, c')
      end
  end.

End Dispatcher.

End Server.

(* ===================================================================== *)
(** * What the engines read from the page                                *)
(* ===================================================================== *)
Module Dom.

(** A table row: its [innerText], the [innerText] of its td and th cells,
    and the [innerText] of every element below it in document order. *)
Record row := {
  row_text : jsstring;
  row_cells : list jsstring;
  row_elems : list jsstring
}.

(** A table: its [innerText], the [innerText] of its th cells and its tr
    rows, both in document order. *)
Record table := {
  table_text : jsstring;
  table_ths : list jsstring;
  table_rows : list row
}.

(** A container the sequential engine looks at: a table itself, or another
    element with its [innerText], the tables below it and the [innerText]
    of the row-like elements below it. *)
Inductive container :=
| CTable (t : table)
| CBox (text : jsstring) (tables : list table) (rows : list jsstring).

(** An element of the year selection: tag name in lower case, [innerText],
    [value], and the class, disabled and aria-disabled attributes.  The
    [disabled] property reflects the attribute. *)
Record element := {
  el_tag : jsstring;
  el_text : jsstring;
  el_value : jsstring;
  el_class : option jsstring;
  el_disabled : option jsstring;
  el_aria_disabled : option jsstring
}.

(** The page at the year selection: the options of the select whose id
    contains "ano" when there is one, and all elements in document order. *)
Record year_page := {
  year_select : option (list element);
  page_elements : list element
}.

Definition has_attr (a : option jsstring) : bool :=
  match a with Some _ => true | None => false end.

(** [classList]: the class attribute split at ASCII whitespace. *)
Definition html_space (c : N) : bool :=
  ((c =? 32) || (c =? 9) || (c =? 10) || (c =? 12) || (c =? 13))%N.

Definition classList (e : element) : list jsstring :=
  filter truthy_str (split (RPlus (RChar html_space)) (or_empty (el_class e))).

Definition classList_contains (e : element) (tok : jsstring) : bool :=
  existsb (streqb tok) (classList e).

Definition tag_in (tags : list jsstring) (e : element) : bool :=
  existsb (streqb (el_tag e)) tags.

End Dom.

(* ===================================================================== *)
(** * What the engines share                                             *)
(* ===================================================================== *)
Module Common.

Import Dom.

Definition digit : regex := RChar is_digit.
Definition space : regex := RChar is_space.
Definition lit (c : N) : regex := RChar (is_char c).

(** Code units of the punctuation in the literals. *)
Definition cR : N := 82.
Definition cDollar : N := 36.
Definition cComma : N := 44.
Definition cDot : N := 46.
Definition cTab : N := 9.
Definition cBar : N := 124.
Definition cSpace : N := 32.

(** [[\d\.]] *)
Definition digit_or_dot : regex := RChar (fun c => is_digit c || is_char cDot c).

(** [/R\$\s*[\d\.]+,\d{2}|[\d\.]+,\d{2}/g] *)
Definition currencyRegex : regex :=
  RAlt (RSeq (lit cR) (RSeq (lit cDollar) (RSeq (RStar space)
          (RSeq (RPlus digit_or_dot) (RSeq (lit cComma) (RSeq digit digit))))))
       (RSeq (RPlus digit_or_dot) (RSeq (lit cComma) (RSeq digit digit))).

(** [/\d+[\.,]\d{2}/] *)
Definition amountRegex : regex :=
  RSeq (RPlus digit)
       (RSeq (RChar (fun c => is_char cDot c || is_char cComma c)) (RSeq digit digit)).

(** [/[R\$\s\.]/g] *)
Definition stripRegex : regex :=
  RChar (fun c => is_char cR c || is_char cDollar c || is_space c || is_char cDot c).

(** [/\t+|\s{2,}/] *)
Definition splitRegex : regex :=
  RAlt (RPlus (lit cTab)) (RSeq space (RSeq space (RStar space))).

(** [/\D/g] *)
Definition nonDigit : regex := RChar (fun c => negb (is_digit c)).

(** [/^\d{4}$/] *)
Definition yearRegex : regex :=
  RSeq RBol (RSeq digit (RSeq digit (RSeq digit (RSeq digit REol)))).

(** A letter of a literal under the [i] flag.  The letters of the literal
    below are n, a-tilde, o, p, t, a, e, each of which has one other code
    unit with the same upper case. *)
Definition upper_of (c : N) : N :=
  if ((97 <=? c) && (c <=? 122) || (224 <=? c) && (c <=? 254) && negb (c =? 247))%N
  then (c - 32)%N else c.

Definition ci (c : N) : regex := RChar (fun x => (upper_of x =? upper_of c)%N).

Definition literal_ci (s : jsstring) : regex :=
  fold_right (fun c r => RSeq (ci c) r) REps s.

(** [/não optante/i] *)
Definition naoOptanteRegex : regex := literal_ci (str "não optante").

(** The regular expression object [currencyRegex] carries [lastIndex]
    from one [test] to the next. *)
Definition RE (A : Type) : Type := nat -> A * nat.

Definition ret {A} (a : A) : RE A := fun li => (a, li).

Definition bind {A B} (m : RE A) (f : A -> RE B) : RE B :=
  fun li => let (a, li') := m li in f a li'.

Definition test_currency (s : jsstring) : RE bool :=
  fun li => test_g currencyRegex li s.

(** [a || b], the right operand evaluated only when the left is false. *)
Definition orM (a b : RE bool) : RE bool :=
  bind a (fun x => if x then ret true else b).

(** The loose scan of one row, the same in the Puppeteer engine and in the
    engine with one page per year. *)
Definition rowParts (rowText : jsstring) : list jsstring :=
  filter truthy_str (map trim (split splitRegex rowText)).

Definition amountPart (parts : list jsstring) : option jsstring :=
  find (test amountRegex) (rev parts).

Definition rowAmount (parts : list jsstring) : jsval :=
  match amountPart parts with
  | Some p =>
    if truthy_str p then
      let amount := replace_first (str ",") (str ".") (replace_g stripRegex [] p) in
      if truthy_str amount then VNum (Number amount) else VNull
    else VNull
  | None => VNull
  end.

Definition looseRecord (rowText : jsstring) : jsval :=
  let parts := rowParts rowText in
  VObj [(str "raw", VStr rowText); (str "parts", strs parts); (str "amount", rowAmount parts)].

(** One row of the loose scan: [rowText] is already trimmed. *)
Definition looseRow (year : jsstring) (rowText : jsstring) : RE (list jsval) :=
  if truthy_str rowText then
    bind (orM (ret (includes rowText year)) (test_currency rowText))
         (fun hit => ret (if hit then [looseRecord rowText] else []))
  else ret [].

Fixpoint forM {A B} (f : A -> RE (list B)) (l : list A) : RE (list B) :=
  match l with
  | [] => ret []
  | a :: l' => bind (f a) (fun x => bind (forM f l') (fun y => ret (x ++ y)))
  end.

(** The ten headers of the debit table. *)
Definition expectedHeaders : list jsstring :=
  [str "período de apuração"; str "apurado"; str "benefício inss";
   str "resumo do das a ser gerado"; str "principal"; str "multa"; str "juros";
   str "total"; str "data de vencimento"; str "data de acolhimento"].

(** [l.includes(x)] and [l.indexOf(x)] on an array of strings. *)
Definition arr_includes (l : list jsstring) (x : jsstring) : bool := existsb (streqb x) l.

Fixpoint indexOf (l : list jsstring) (x : jsstring) : option nat :=
  match l with
  | [] => None
  | y :: l' => if streqb y x then Some 0 else option_map S (indexOf l' x)
  end.

Definition mapKey (expected : list jsstring) (h : jsstring) : jsstring :=
  match indexOf expected h with
  | Some idx => nth idx expected []
  | None => h
  end.

(** [k || `col_${i}`] *)
Definition keyOr (k : jsstring) (i : nat) : jsstring :=
  or_str k (str "col_" ++ nat_to_str i).

(** [v || null] on a string that may be missing. *)
Definition valueOrNull (v : option jsstring) : jsval :=
  match v with
  | Some s => if truthy_str s then VStr s else VNull
  | None => VNull
  end.

(** The loop [for (k = 0; k < mapKeys.length; k++) rowObj[key] = value]. *)
Fixpoint zipRow (keys : list jsstring) (k : nat) (values : list jsstring) (o : obj) : obj :=
  match keys with
  | [] => o
  | key :: keys' =>
    zipRow keys' (S k) values (obj_set (keyOr key k) (valueOrNull (nth_error values k)) o)
  end.

(** [safeExtractDebits]: [attempt i] is what the [i]-th call of
    [extractDebits] does.  The answer comes with the number of calls made. *)
Definition error_msg (e : js_error) : jsstring :=
  or_str (err_message e) (error_toString e).

Definition contextLost (msg : jsstring) : bool :=
  includes msg (str "Execution context was destroyed") || includes msg (str "Execution context").

Fixpoint safeLoop {A} (attempt : nat -> outcome (list A)) (i : nat) (left : nat)
  : outcome (list A) * nat :=
  match left with
  | 0 => (Returned [], i)
  | S left' =>
    match attempt i with
    | Returned found => (Returned found, S i)
    | Thrown err =>
      if contextLost (error_msg err) then safeLoop attempt (S i) left'
      else (Thrown err, S i)
    end
  end.

Definition safeExtractDebits {A} (attempt : nat -> outcome (list A)) (tries : nat)
  : outcome (list A) * nat :=
  safeLoop attempt 0 tries.

End Common.

(* ===================================================================== *)
(** * Files written by an engine                                         *)
(* ===================================================================== *)
Module Disk.

(** The working directory: what each path holds, and the paths written so
    far, oldest first.  A file holds the JSON text of a value, kept here as
    the value it parses back to. *)
Record disk := {
  files : obj;
  writes : list jsstring
}.

(** [fs.writeFileSync(path, JSON.stringify(v, null, 2), 'utf8')] *)
Definition writeFile (path : jsstring) (v : jsval) (d : disk) : disk :=
  {| files := obj_set path (jsonify v) (files d); writes := writes d ++ [path] |}.

(** [fs.existsSync(path)] followed by [JSON.parse(fs.readFileSync(path))] *)
Definition readFile (path : jsstring) (d : disk) : option jsval := obj_get path (files d).

(** [page.screenshot({ path })]: the file holds the image, kept here as the
    string of its bytes; no engine reads it back. *)
Definition writeImage (path : jsstring) (png : jsstring) (d : disk) : disk :=
  {| files := obj_set path (VStr png) (files d); writes := writes d ++ [path] |}.

Definition aggregatePath : jsstring := str "debitos_all.json".

Definition yearPath (yearLabel : jsstring) : jsstring :=
  str "debitos_" ++ yearLabel ++ str ".json".

(** [a || b || null] on strings that may be missing. *)
Definition firstTruthy (l : list (option jsstring)) : jsval :=
  match find truthy_str (map or_empty l) with
  | Some s => VStr s
  | None => VNull
  end.

Definition yearPayload (digits : jsstring) (name : jsval) (yearLabel : jsstring)
           (found : list jsval) : jsval :=
  VObj [(str "cnpj", VStr digits); (str "companyName", name);
        (str "year", VStr yearLabel); (str "items", VArr found)].

Definition yearResult (yearLabel : jsstring) (found : list jsval) : jsval :=
  VObj [(str "year", VStr yearLabel); (str "items", VArr found)].

(** The late update of the aggregate file in the Puppeteer engine and in
    the engine with one page per year: read, set [companyName], write.
    Assigning a property to null throws and is caught; on an array or a
    primitive the assignment does not reach the JSON text. *)
Definition lateUpdate (name : jsstring) (d : disk) : disk :=
  match readFile aggregatePath d with
  | Some (VObj agg) => writeFile aggregatePath (VObj (obj_set (str "companyName") (VStr name) agg)) d
  | Some VNull => d
  | Some other => writeFile aggregatePath other d
  | None => d
  end.

Definition lateName (nameFromLabel : option jsstring) (d : disk) : disk :=
  match nameFromLabel with
  | Some name => if truthy_str name then lateUpdate name d else d
  | None => d
  end.

End Disk.

(* ===================================================================== *)
(** * The Puppeteer engine (scrape.js)                                   *)
(* ===================================================================== *)
Module Puppeteer.

Import Dom Common Disk.

Definition normalizeCNPJ (raw : jsstring) : jsstring := replace_g nonDigit [] raw.

(** ** getAvailableYears *)
Record yearOption := { y_value : jsstring; y_text : jsstring; y_disabled : bool }.

Definition selectOption (o : element) : yearOption :=
  {| y_value := el_value o;
     y_text := trim (el_text o);
     y_disabled := has_attr (el_disabled o) || classList_contains o (str "disabled") |}.

Definition eligible (o : yearOption) : bool :=
  truthy_str (y_text o) && negb (test naoOptanteRegex (y_text o)) && negb (y_disabled o).

Definition isDisabled (n : element) : bool :=
  (classList_contains n (str "disabled") || classList_contains n (str "disabled-option"))
  || (has_attr (el_disabled n)
      || match el_aria_disabled n with Some v => streqb v (str "true") | None => false end)
  || has_attr (el_disabled n).

Definition scanTags : list jsstring := [str "a"; str "button"; str "span"; str "div"].

Definition scanYear (el : element) : list yearOption :=
  let t := trim (el_text el) in
  if test yearRegex t && negb (test naoOptanteRegex t) && negb (isDisabled el)
  then [{| y_value := t; y_text := t; y_disabled := false |}] else [].

Definition getAvailableYears (p : year_page) : list yearOption :=
  match year_select p with
  | Some options => filter eligible (map selectOption options)
  | None => flat_map scanYear (filter (tag_in scanTags) (page_elements p))
  end.

Definition yearLabel (y : yearOption) : jsstring := or_str (y_text y) (y_value y).

(** ** extractDebits *)
Section Extraction.

(** [String.prototype.toLowerCase] *)
Variable toLowerCase : jsstring -> jsstring.

Definition normalizeHeader (s : jsstring) : jsstring :=
  toLowerCase (trim (replace_g (RPlus space) (str " ") s)).

Definition tableHeaders (t : table) : list jsstring :=
  match table_ths t with
  | _ :: _ => map (fun hv => normalizeHeader (trim hv)) (table_ths t)
  | [] =>
    match table_rows t with
    | firstRow :: _ => map (fun tv => normalizeHeader (trim tv)) (row_elems firstRow)
    | [] => []
    end
  end.

Definition hasExpected (headers : list jsstring) : bool :=
  existsb (arr_includes expectedHeaders) headers.

Definition headerRecord (mapKeys : list jsstring) (r : row) : jsval :=
  VObj (zipRow mapKeys 0 (map trim (row_elems r)) []).

(** The filter on a table: true when it is skipped. *)
Definition skipTable (t : table) : RE bool :=
  bind (test_currency (table_text t)) (fun money => ret (negb money)).

Definition extractTable (year : jsstring) (t : table) : RE (list jsval) :=
  bind (skipTable t) (fun skip =>
    if skip then ret []
    else
      let headers := tableHeaders t in
      if hasExpected headers && (0 <? length headers) then
        let mapKeys := map (mapKey expectedHeaders) headers in
        ret (map (headerRecord mapKeys) (skipn 1 (table_rows t)))
      else
        forM (fun r => looseRow year (trim (row_text r))) (table_rows t)).

(** The regular expression object is created by the call. *)
Definition extractDebits (year : jsstring) (tables : list table) : list jsval :=
  fst (forM (extractTable year) tables 0).

(** ** The run *)
Record page := {
  cnpjArg : jsstring;
  yearArg : jsstring;
  nameListInline : option jsstring;
  nomeFromHtml : option jsstring;
  yearPage : year_page;
  (** what the [i]-th call of extractDebits for the [n]-th year finds: the
      tables of the page, or the error the driver raises *)
  tablesAt : nat -> nat -> outcome (list table);
  nameFromLabel : option jsstring;
  (** [page.screenshot] at the end of the run: the image, or the error the
      driver raises *)
  screenshot : outcome jsstring
}.

Definition attempt (p : page) (n : nat) (year : jsstring) (i : nat) : outcome (list jsval) :=
  match tablesAt p n i with
  | Returned tables => Returned (extractDebits year tables)
  | Thrown e => Thrown e
  end.

Fixpoint yearLoop (p : page) (digits : jsstring) (name : jsval)
         (years : list yearOption) (n : nat) (all : list jsval) (d : disk)
  : outcome (list jsval) * disk :=
  match years with
  | [] => (Returned all, d)
  | y :: years' =>
    let label := yearLabel y in
    match fst (safeExtractDebits (attempt p n label) 3) with
    | Thrown e => (Thrown e, d)
    | Returned found =>
      match found with
      | _ :: _ =>
        yearLoop p digits name years' (S n)
                 (all ++ [yearResult label found])
                 (writeFile (yearPath label) (yearPayload digits name label found) d)
      | [] => yearLoop p digits name years' (S n) all d
      end
    end
  end.

(** From the year enumeration to the aggregate: [debitos] and the disk. *)
Definition extractAll (p : page) (digits : jsstring) (d : disk) : list jsval * disk :=
  let name := firstTruthy [nameListInline p; nomeFromHtml p] in
  match getAvailableYears (yearPage p) with
  | (_ :: _) as years =>
    match yearLoop p digits name years 0 [] d with
    | (Returned all, d') =>
      (all, writeFile aggregatePath
                      (VObj [(str "cnpj", VStr digits); (str "companyName", name);
                             (str "years", VArr all)]) d')
    | (Thrown _, d') => ([], d')
    end
  | [] =>
    match fst (safeExtractDebits (attempt p 0 (yearArg p)) 3) with
    | Returned found => (found, d)
    | Thrown _ => ([], d)
    end
  end.

Definition screenshotPath : jsstring := str "resultado.png".

(** [await page.screenshot({ path: 'resultado.png', fullPage: true })],
    outside any try block. *)
Definition takeScreenshot (p : page) (d : disk) : outcome unit * disk :=
  match screenshot p with
  | Returned png => (Returned tt, writeImage screenshotPath png d)
  | Thrown e => (Thrown e, d)
  end.

(** From the extraction to the end of the run: the late name, the file of
    the year argument and the screenshot. *)
Definition run (p : page) (d : disk) : outcome unit * disk :=
  let digits := normalizeCNPJ (cnpjArg p) in
  let (debitos, d1) := extractAll p digits d in
  let d2 := lateName (nameFromLabel p) d1 in
  let companyName :=
    if truthy_str (or_empty (nameFromLabel p)) then nameFromLabel p else nameListInline p in
  takeScreenshot p
    match debitos with
    | _ :: _ =>
      writeFile (yearPath (yearArg p))
                (yearPayload digits (firstTruthy [companyName]) (yearArg p) debitos) d2
    | [] => d2
    end.

End Extraction.

End Puppeteer.

(* ===================================================================== *)
(** * The Playwright engine with one page per year                       *)
(* ===================================================================== *)
Module Parallel.

Import Dom Common Disk.

Definition normalizeCNPJ (raw : jsstring) : jsstring := replace_g nonDigit [] raw.

(** ** getAvailableYears *)
Record yearOption := { y_value : jsstring; y_text : jsstring; y_disabled : bool }.

Definition selectOption (o : element) : yearOption :=
  {| y_value := el_value o;
     y_text := trim (el_text o);
     y_disabled := has_attr (el_disabled o) || classList_contains o (str "disabled") |}.

Definition eligible (o : yearOption) : bool :=
  truthy_str (y_text o) && negb (test naoOptanteRegex (y_text o)) && negb (y_disabled o).

Definition isDisabled (el : element) : bool :=
  match el_aria_disabled el with Some v => streqb v (str "true") | None => false end
  || has_attr (el_disabled el)
  || includes (or_empty (el_class el)) (str "disabled").

Definition scanTags : list jsstring := [str "a"; str "button"; str "span"; str "div"].

Definition scanYear (el : element) : list yearOption :=
  let txt := trim (el_text el) in
  if test yearRegex txt && negb (test naoOptanteRegex txt) && negb (isDisabled el)
  then [{| y_value := txt; y_text := txt; y_disabled := false |}] else [].

Definition getAvailableYears (p : year_page) : list yearOption :=
  match year_select p with
  | Some options => filter eligible (map selectOption options)
  | None => flat_map scanYear (filter (tag_in scanTags) (page_elements p))
  end.

(** ** extractDebits *)
Section Extraction.

Variable toLowerCase : jsstring -> jsstring.

Definition normalizeHeader (s : jsstring) : jsstring :=
  toLowerCase (trim (replace_g (RPlus space) (str " ") s)).

Definition tableHeaders (t : table) : list jsstring :=
  match table_ths t with
  | _ :: _ => map normalizeHeader (table_ths t)
  | [] =>
    match table_rows t with
    | first :: _ => map normalizeHeader (row_cells first)
    | [] => []
    end
  end.

Definition hasExpected (headers : list jsstring) : bool :=
  existsb (arr_includes expectedHeaders) headers.

Definition headerRecord (mapKeys : list jsstring) (r : row) : jsval :=
  VObj (zipRow mapKeys 0 (map trim (row_cells r)) []).

(** The filter on a table: true when it is skipped. *)
Definition skipTable (t : table) : RE bool :=
  bind (test_currency (table_text t)) (fun money => ret (negb money)).

Definition extractTable (year : jsstring) (t : table) : RE (list jsval) :=
  bind (skipTable t) (fun skip =>
    if skip then ret []
    else
      let headers := tableHeaders t in
      if hasExpected headers && (0 <? length headers) then
        let mapKeys := map (mapKey expectedHeaders) headers in
        ret (map (headerRecord mapKeys) (skipn 1 (table_rows t)))
      else
        forM (fun r => looseRow year (trim (row_text r))) (table_rows t)).

Definition extractDebits (year : jsstring) (tables : list table) : list jsval :=
  fst (forM (extractTable year) tables 0).

(** ** parallelMap *)
Section ParallelMap.

Variables A B St : Type.

(** What the call [fn(arr[i])] has done when it settles: its result, and
    the world as it leaves it. *)
Variable fn : A -> St -> outcome B * St.
Variable arr : list A.
Variable limit : nat.

(** [ret[i] = v]: the array grows, with holes, to hold index [i]. *)
Fixpoint array_set (i : nat) (v : B) (a : list (option B)) : list (option B) :=
  match i, a with
  | 0, [] => [Some v]
  | 0, _ :: a' => Some v :: a'
  | S i', [] => None :: array_set i' v []
  | S i', x :: a' => x :: array_set i' v a'
  end.

(** [a[j]]: a hole and an index past the end read as undefined. *)
Definition array_get (a : list (option B)) (j : nat) : option B :=
  match nth_error a j with
  | Some (Some b) => Some b
  | _ => None
  end.

(** The state of a call of parallelMap: [idx], [ret], what each worker
    awaits (the index it took and the element, nothing once it has
    returned), and the world. *)
Record pool := {
  idx : nat;
  ret : list (option B);
  awaiting : list (option (nat * A));
  world : St
}.

(** [next()] up to its await: with [idx] past the end of [arr] the worker
    returns; otherwise it takes [idx], moves it on and calls
    [fn(arr[i])]. *)
Definition next (idx : nat) : option (nat * A) * nat :=
  match nth_error arr idx with
  | Some a => (Some (idx, a), S idx)
  | None => (None, idx)
  end.

(** [Array.from({ length: n }, next)] *)
Fixpoint spawn (n : nat) (idx : nat) : list (option (nat * A)) * nat :=
  match n with
  | 0 => ([], idx)
  | S n' =>
    let (w, idx') := next idx in
    let (ws, idx'') := spawn n' idx' in
    (w :: ws, idx'')
  end.

Definition start (w0 : St) : pool :=
  let (ws, idx') := spawn (Nat.min limit (length arr)) 0 in
  {| idx := idx'; ret := []; awaiting := ws; world := w0 |}.

(** The workers that await a call, by position. *)
Fixpoint pending_from (w : nat) (ws : list (option (nat * A))) : list nat :=
  match ws with
  | [] => []
  | Some _ :: ws' => w :: pending_from (S w) ws'
  | None :: ws' => pending_from (S w) ws'
  end.

Definition pending (p : pool) : list nat := pending_from 0 (awaiting p).

Fixpoint list_set {X} (w : nat) (x : X) (l : list X) : list X :=
  match w, l with
  | 0, _ :: l' => x :: l'
  | S w', y :: l' => y :: list_set w' x l'
  | _, [] => []
  end.

Inductive settled :=
| Went (p : pool)
| Rejected (e : js_error) (st : St)
| Idle.

(** The call that worker [w] awaits settles: on a value, [ret[i]] is
    assigned and the worker calls [next()] again; on an error the promise
    of the worker rejects. *)
Definition settle (w : nat) (p : pool) : settled :=
  match nth_error (awaiting p) w with
  | Some (Some (i, a)) =>
    match fn a (world p) with
    | (Returned b, st) =>
      let (nw, idx') := next (idx p) in
      Went {| idx := idx'; ret := array_set i b (ret p);
              awaiting := list_set w nw (awaiting p); world := st |}
    | (Thrown e, st) => Rejected e st
    end
  | _ => Idle
  end.

(** [await Promise.all(workers); return ret].  The calls settle one at a
    time, and what a call does to the world is taken when it settles; each
    entry of [sched] says which of the pending calls is the
    next to settle.  When every worker has returned the answer is [ret];
    the first call that rejects makes the whole reject. *)
Fixpoint settle_all (sched : list nat) (p : pool)
  : option (outcome (list (option B)) * St) :=
  match pending p with
  | [] => Some (Returned (ret p), world p)
  | w0 :: ws =>
    match sched with
    | [] => None
    | k :: sched' =>
      match settle (nth (k mod length (w0 :: ws)) (w0 :: ws) w0) p with
      | Went p' => settle_all sched' p'
      | Rejected e st => Some (Thrown e, st)
      | Idle => None
      end
    end
  end.

Definition parallelMap (sched : list nat) (w0 : St)
  : option (outcome (list (option B)) * St) :=
  settle_all sched (start w0).

(** What the call on [arr[j]] does to the world. *)
Definition effect (st : St) (j : nat) : St :=
  match nth_error arr j with
  | Some a => snd (fn a st)
  | None => st
  end.

(** The states a call goes through. *)
Inductive reaches : pool -> pool -> Prop :=
| reaches_here p : reaches p p
| reaches_step p w p' p'' : settle w p = Went p' -> reaches p' p'' -> reaches p p''.

End ParallelMap.

(** ** The run *)
Definition yearLabel (yearObj : yearOption) : jsstring :=
  or_str (y_text yearObj) (y_value yearObj).

(** What the page opened for a year shows once it is loaded: no input for
    the identifier, or, for each call of extractDebits, the tables of the
    page or the error the driver raises. *)
Inductive visit :=
| NoInput
| Shows (tables : nat -> outcome (list table)).

Record page := {
  cnpjArg : jsstring;
  yearArg : jsstring;
  nameListInline : option jsstring;
  yearPage : year_page;
  (** the first page, read when no year is eligible *)
  tablesAt : nat -> outcome (list table);
  (** the page opened for the [n]-th year: what it shows, or the error of
      opening and loading it *)
  visitAt : nat -> outcome visit;
  (** [page.close()] on the page of the [n]-th year *)
  closeAt : nat -> outcome unit;
  nameFromLabel : option jsstring;
  (** [page.screenshot] at the end of the run: the image, when the driver
      takes it *)
  screenshot : option jsstring
}.

Definition attempt (tables : nat -> outcome (list table)) (year : jsstring) (i : nat)
  : outcome (list jsval) :=
  match tables i with
  | Returned ts => Returned (extractDebits year ts)
  | Thrown e => Thrown e
  end.

(** The call for the [n]-th year, with what it does to the disk. *)
Definition scrapeYearInParallel (p : page) (digits : jsstring) (companyName : jsval)
           (n : nat) (yearObj : yearOption) (d : disk) : outcome jsval * disk :=
  let label := yearLabel yearObj in
  match visitAt p n with
  | Thrown e => (Thrown e, d)
  | Returned NoInput =>
    match closeAt p n with
    | Thrown e => (Thrown e, d)
    | Returned _ => (Returned (yearResult label []), d)
    end
  | Returned (Shows tables) =>
    match fst (safeExtractDebits (attempt tables label) 3) with
    | Thrown e => (Thrown e, d)
    | Returned found =>
      let d' :=
        match found with
        | _ :: _ => writeFile (yearPath label) (yearPayload digits companyName label found) d
        | [] => d
        end in
      match closeAt p n with
      | Thrown e => (Thrown e, d')
      | Returned _ => (Returned (yearResult label found), d')
      end
    end
  end.

(** [JSON.stringify] writes a hole of an array as null. *)
Definition hole (x : option jsval) : jsval :=
  match x with
  | Some v => v
  | None => VNull
  end.

Definition aggregate (digits : jsstring) (companyName : jsval) (years : list jsval) : jsval :=
  VObj [(str "cnpj", VStr digits); (str "companyName", companyName);
        (str "years", VArr years)].

Definition screenshotPath : jsstring := str "resultado_playwright.png".

(** [await page.screenshot({ path: 'resultado_playwright.png', fullPage:
    true }).catch(()=>{})] *)
Definition takeScreenshot (p : page) (d : disk) : disk :=
  match screenshot p with
  | Some png => writeImage screenshotPath png d
  | None => d
  end.

(** The years go to [parallelMap] each with its position in the list, which
    tells its page from the others.  The run ends in a rejection when a call
    does; an answer needs a schedule long enough for every call to settle. *)
Definition run (sched : list nat) (p : page) (d : disk) : option (outcome unit * disk) :=
  let digits := normalizeCNPJ (cnpjArg p) in
  let companyName := firstTruthy [nameListInline p] in
  match getAvailableYears (yearPage p) with
  | (_ :: _) as years =>
    match parallelMap (fun y => scrapeYearInParallel p digits companyName (fst y) (snd y))
                      (combine (seq 0 (length years)) years) 3 sched d with
    | None => None
    | Some (Thrown e, d') => Some (Thrown e, d')
    | Some (Returned all, d') =>
      Some (Returned tt,
            takeScreenshot p
              (lateName (nameFromLabel p)
                 (writeFile aggregatePath (aggregate digits companyName (map hole all)) d')))
    end
  | [] =>
    match fst (safeExtractDebits (attempt (tablesAt p) (yearArg p)) 3) with
    | Thrown e => Some (Thrown e, d)
    | Returned found =>
      Some (Returned tt,
            takeScreenshot p
              (lateName (nameFromLabel p)
                 (writeFile aggregatePath (aggregate digits companyName found) d)))
    end
  end.

End Extraction.

End Parallel.

(* ===================================================================== *)
(** * The Playwright engine on one page (scrape_playwright.js)           *)
(* ===================================================================== *)
Module Playwright.

Import Dom Common Disk.

Definition normalizeCNPJ (raw : jsstring) : jsstring := replace_g nonDigit [] raw.

(** ** getAvailableYears *)
Record yearOption := { y_value : jsstring; y_text : jsstring; y_disabled : bool }.

Record yearLists := {
  available : list yearOption;
  notOptante : list yearOption;
  all : list yearOption
}.

Definition selectOption (o : element) : yearOption :=
  {| y_value := el_value o;
     y_text := trim (el_text o);
     y_disabled := has_attr (el_disabled o) || classList_contains o (str "disabled") |}.

Definition isDisabled (el : element) : bool :=
  match el_aria_disabled el with Some v => streqb v (str "true") | None => false end
  || has_attr (el_disabled el)
  || includes (or_empty (el_class el)) (str "disabled").

Definition scanTags : list jsstring :=
  [str "a"; str "button"; str "span"; str "div"; str "li"; str "option"].

(** [/(\d{4})/] *)
Definition fourDigits : regex := RSeq digit (RSeq digit (RSeq digit digit)).

Definition firstYear (txt : jsstring) : jsstring :=
  match search fourDigits 0 txt with
  | Some (a, b) => firstn (b - a) (skipn a txt)
  | None => txt
  end.

Definition scanYear (el : element) : list yearOption :=
  let txt := trim (el_text el) in
  if test yearRegex txt || test naoOptanteRegex txt then
    [{| y_value := firstYear txt; y_text := txt;
        y_disabled := test naoOptanteRegex txt || isDisabled el |}]
  else [].

Definition isAvailable (o : yearOption) : bool :=
  truthy_str (y_text o) && negb (y_disabled o)
  && test yearRegex (or_str (y_value o) (y_text o)).

Definition isNotOptante (o : yearOption) : bool :=
  y_disabled o || test naoOptanteRegex (y_text o).

Definition getAvailableYears (p : year_page) : yearLists :=
  let allOpts :=
    match year_select p with
    | Some options => map selectOption options
    | None => flat_map scanYear (filter (tag_in scanTags) (page_elements p))
    end in
  {| available := filter isAvailable allOpts;
     notOptante := filter isNotOptante allOpts;
     all := allOpts |}.

Definition yearLabel (y : yearOption) : jsstring := or_str (y_text y) (y_value y).

(** ** extractDebits *)

Definition expectedHeaders : list jsstring :=
  [str "período de apuração"; str "periodo de apuracao"; str "periodo"; str "mes"; str "mês";
   str "apurado"; str "valor apurado"; str "benefício inss"; str "beneficio inss"; str "inss";
   str "resumo do das a ser gerado"; str "das"; str "guia";
   str "principal"; str "valor principal"; str "multa"; str "juros"; str "total"; str "valor total";
   str "data de vencimento"; str "vencimento"; str "data vencimento";
   str "data de acolhimento"; str "acolhimento"; str "data acolhimento";
   str "situação"; str "situacao"; str "status"; str "pago"; str "pendente"].

(** [/\t+|\s{3,}|\|/] *)
Definition splitRegex3 : regex :=
  RAlt (RPlus (lit cTab))
       (RAlt (RSeq space (RSeq space (RSeq space (RStar space)))) (lit cBar)).

(** [s.match(re) || []] for a regular expression with the [g] flag: every
    match from the start. *)
Fixpoint matches_from (r : regex) (i : nat) (s : jsstring) (skip : nat) : list jsstring :=
  match skip with
  | S skip' =>
    match s with
    | [] => []
    | _ :: s' => matches_from r (S i) s' skip'
    end
  | 0 =>
    match match_at r i s with
    | Some e =>
      firstn (e - i) s ::
      match s with
      | [] => []
      | _ :: s' => matches_from r (S i) s' (e - i - 1)
      end
    | None =>
      match s with
      | [] => []
      | _ :: s' => matches_from r (S i) s' 0
      end
    end
  end.

(** [rowText.match(currencyRegex) || []]; it leaves [lastIndex] at 0. *)
Definition match_currency (s : jsstring) : RE (list jsstring) :=
  fun _ => (matches_from currencyRegex 0 s 0, 0).

(** [expected.split(' ')[0]] *)
Fixpoint firstWord (s : jsstring) : jsstring :=
  match s with
  | [] => []
  | c :: s' => if is_char cSpace c then [] else c :: firstWord s'
  end.

Definition mappedKey (headerKey : jsstring) : jsstring :=
  match find (fun expected => streqb headerKey expected || includes headerKey (firstWord expected))
             expectedHeaders with
  | Some expected => or_str expected headerKey
  | None => headerKey
  end.

(** [some] with a test that moves [lastIndex]. *)
Fixpoint someM (f : jsstring -> RE bool) (l : list jsstring) : RE bool :=
  match l with
  | [] => ret false
  | x :: l' => orM (f x) (someM f l')
  end.

(** [for (k = 0; k < Math.max(cells.length, headers.length); k++)] *)
Fixpoint mapCells (n k : nat) (cells headers : list jsstring) (o : obj) : obj :=
  match n with
  | 0 => o
  | S n' =>
    let cellValue := trim (or_empty (nth_error cells k)) in
    let headerKey := keyOr (or_empty (nth_error headers k)) k in
    mapCells n' (S k) cells headers
             (obj_set (mappedKey headerKey) (valueOrNull (Some cellValue)) o)
  end.

Definition nonTableRow (year : jsstring) (row : jsstring) : RE (list jsval) :=
  let rowText := trim row in
  if truthy_str rowText then
    bind (orM (ret (includes rowText year)) (test_currency rowText)) (fun hit =>
      if hit then
        let parts := filter truthy_str (map trim (split splitRegex3 rowText)) in
        bind (match_currency rowText) (fun currencies =>
          ret [VObj [(str "raw", VStr rowText); (str "parts", strs parts);
                     (str "currencies", strs currencies); (str "year", VStr year);
                     (str "source", VStr (str "non-table"))]])
      else ret [])
  else ret [].

Section Extraction.

Variable toLowerCase : jsstring -> jsstring.

Definition normalizeHeader (s : jsstring) : jsstring :=
  toLowerCase (trim (replace_g (RPlus space) (str " ") s)).

Definition hasExpected (headers : list jsstring) : bool :=
  existsb (arr_includes expectedHeaders) headers.

(** The header row among the first three rows: its cells and its index. *)
Fixpoint findHeaders (rows : list row) (i : nat) (left : nat) : option (list jsstring * nat) :=
  match left, rows with
  | S left', r :: rows' =>
    let potentialHeaders := map normalizeHeader (row_cells r) in
    if hasExpected potentialHeaders then Some (potentialHeaders, i)
    else findHeaders rows' (S i) left'
  | _, _ => None
  end.

Fixpoint genericHeaders (n : nat) (idx : nat) : list jsstring :=
  match n with
  | 0 => []
  | S n' => (str "col_" ++ nat_to_str idx) :: genericHeaders n' (S idx)
  end.

(** [headers] and [startRow] *)
Definition headersOf (rows : list row) : list jsstring * nat :=
  match findHeaders rows 0 3 with
  | Some (headers, headerRowIndex) => (headers, S headerRowIndex)
  | None =>
    match rows with
    | r :: _ => (genericHeaders (length (row_cells r)) 0, 0)
    | [] => ([], 0)
    end
  end.

Definition tableRecord (year : jsstring) (headers : list jsstring) (r : row)
           (currencies : list jsstring) : jsval :=
  let rowObj := [(str "year", VStr year); (str "source", VStr (str "table"))] in
  let rowObj := mapCells (Nat.max (length (row_cells r)) (length headers)) 0
                         (row_cells r) headers rowObj in
  VObj (obj_set (str "raw") (VStr (row_text r))
                (obj_set (str "currencies") (strs currencies) rowObj)).

Definition tableRow (year : jsstring) (headers : list jsstring) (r : row) : RE (list jsval) :=
  let rowText := row_text r in
  if truthy_str (trim rowText) then
    bind (orM (test_currency rowText)
              (orM (ret (includes rowText year)) (someM test_currency (row_cells r))))
         (fun hit =>
            if hit then
              bind (match_currency rowText) (fun currencies =>
                ret [tableRecord year headers r currencies])
            else ret [])
  else ret [].

(** The filter on a table inside a container: true when it is skipped. *)
Definition skipTable (year : jsstring) (t : table) : RE bool :=
  bind (test_currency (table_text t)) (fun money =>
    ret (negb money && negb (includes (table_text t) year))).

Definition extractTable (year : jsstring) (t : table) : RE (list jsval) :=
  bind (skipTable year t) (fun skip =>
    if skip then ret []
    else
      match table_rows t with
      | [] => ret []
      | rows =>
        let (headers, startRow) := headersOf rows in
        forM (tableRow year headers) (skipn startRow rows)
      end).

Definition containerText (c : container) : jsstring :=
  match c with
  | CTable t => table_text t
  | CBox text _ _ => text
  end.

Definition containerTables (c : container) : list table :=
  match c with
  | CTable t => [t]
  | CBox _ tables _ => tables
  end.

(** The filter on a container: true when it is skipped. *)
Definition skipContainer (year : jsstring) (c : container) : RE bool :=
  bind (test_currency (containerText c)) (fun money =>
    ret (negb money && negb (includes (containerText c) year))).

Definition extractContainer (year : jsstring) (c : container) : RE (list jsval) :=
  bind (skipContainer year c) (fun skip =>
    if skip then ret []
    else
      match containerTables c with
      | [] =>
        match c with
        | CBox _ _ rows => forM (nonTableRow year) rows
        | CTable _ => ret []
        end
      | tables => forM (extractTable year) tables
      end).

Definition extractDebits (year : jsstring) (containers : list container) : list jsval :=
  fst (forM (extractContainer year) containers 0).

(** ** The run *)
Record page := {
  cnpjArg : jsstring;
  yearArg : jsstring;
  nameListInline : option jsstring;
  yearPage : year_page;
  containersAt : nat -> nat -> outcome (list container);
  nomeFinal : option jsstring
}.

Definition attempt (p : page) (n : nat) (year : jsstring) (i : nat) : outcome (list jsval) :=
  match containersAt p n i with
  | Returned containers => Returned (extractDebits year containers)
  | Thrown e => Thrown e
  end.

Fixpoint scrapeAllYearsSequential (p : page) (digits : jsstring) (name : jsval)
         (years : list yearOption) (n : nat) (all : list jsval) (d : disk)
  : outcome (list jsval) * disk :=
  match years with
  | [] => (Returned all, d)
  | yearObj :: years' =>
    let label := yearLabel yearObj in
    match fst (safeExtractDebits (attempt p n label) 3) with
    | Thrown e => (Thrown e, d)
    | Returned found =>
      let d' :=
        match found with
        | _ :: _ => writeFile (yearPath label) (yearPayload digits name label found) d
        | [] => d
        end in
      scrapeAllYearsSequential p digits name years' (S n)
                               (all ++ [yearResult label found]) d'
    end
  end.

Definition labels (l : list yearOption) : jsval := strs (map yearLabel l).

(** The name read at the end of the run: the text of the first [li] that
    holds "Nome:", without its first "Nome:" and trimmed; without such an
    item, the text of the first [li strong], trimmed. *)
Definition nomeFinalOf (itens : list jsstring) (strong : option jsstring) : option jsstring :=
  match find (fun el => includes el (str "Nome:")) itens with
  | Some alvo => Some (trim (replace_first (str "Nome:") (str "") alvo))
  | None =>
    match strong with
    | Some s => Some (trim s)
    | None => None
    end
  end.

(** The late update in this engine: the object in memory gets the name and
    is written again. *)
Definition lateNome (nomeFinal : option jsstring) (resultJson : obj) (d : disk) : disk :=
  match nomeFinal with
  | Some nome =>
    if truthy_str nome
    then writeFile aggregatePath (VObj (obj_set (str "companyName") (VStr nome) resultJson)) d
    else d
  | None => d
  end.

Definition resultJson (digits : jsstring) (name : jsval) (ys : yearLists) (years : list jsval) : obj :=
  [(str "cnpj", VStr digits); (str "companyName", name);
   (str "availableYears", labels (available ys));
   (str "notOptanteYears", labels (notOptante ys));
   (str "allYears", labels (all ys));
   (str "years", VArr years)].

(** The run ends in a rejection when an extraction raises an error that is
    not retried; the disk is as it was left. *)
Definition run (p : page) (d : disk) : outcome unit * disk :=
  let digits := normalizeCNPJ (cnpjArg p) in
  let name := firstTruthy [nameListInline p] in
  let ys := getAvailableYears (yearPage p) in
  let collected :=
    match available ys with
    | _ :: _ => scrapeAllYearsSequential p digits name (available ys) 0 [] d
    | [] => (fst (safeExtractDebits (attempt p 0 (yearArg p)) 3), d)
    end in
  match collected with
  | (Thrown e, d') => (Thrown e, d')
  | (Returned years, d') =>
    let json := resultJson digits name ys years in
    (Returned tt, lateNome (nomeFinal p) json (writeFile aggregatePath (VObj json) d'))
  end.

End Extraction.

End Playwright.

(* ===================================================================== *)
(** * Shapes of text, stated without the matcher                         *)
(* ===================================================================== *)
Module Shapes.

Import Common.

(** [M r i s j t]: from index [i] with [s] ahead, [r] can match up to index
    [j] with [t] left. *)
Inductive M : regex -> nat -> jsstring -> nat -> jsstring -> Prop :=
| MChar p c i s : p c = true -> M (RChar p) i (c :: s) (S i) s
| MEps i s : M REps i s i s
| MSeq r1 r2 i s j t k u : M r1 i s j t -> M r2 j t k u -> M (RSeq r1 r2) i s k u
| MAltL r1 r2 i s j t : M r1 i s j t -> M (RAlt r1 r2) i s j t
| MAltR r1 r2 i s j t : M r2 i s j t -> M (RAlt r1 r2) i s j t
| MStar0 r i s : M (RStar r) i s i s
| MStarS r i s j t k u :
    M r i s j t -> length t < length s -> M (RStar r) j t k u -> M (RStar r) i s k u
| MBol s : M RBol 0 s 0 s
| MEol i : M REol i [] i [].

(** A match somewhere at or after the head of [s]. *)
Definition matches_within (r : regex) (i : nat) (s : jsstring) : Prop :=
  exists a b j t, s = a ++ b /\ M r (i + length a) b j t.

(** The [j]-th call loses the execution context: it raises an error whose
    message says so. *)
Definition retried {A} (attempt : nat -> outcome (list A)) (j : nat) : Prop :=
  exists err, attempt j = Thrown err /\ contextLost (error_msg err) = true.

(** [sub] occurs in [s]. *)
Definition occurs (sub s : jsstring) : Prop := exists a b, s = a ++ sub ++ b.

(** Some piece of [s] has the shape [P]. *)
Definition has_piece (P : jsstring -> Prop) (s : jsstring) : Prop :=
  exists a m b, s = a ++ m ++ b /\ P m.

Definition all_of (p : N -> bool) (l : jsstring) : Prop := forallb p l = true.

(** A numeric token with a two-digit fractional part after a comma: digits
    and dots, a comma, two digits. *)
Definition numeric_token (m : jsstring) : Prop :=
  exists ds d1 d2,
    m = ds ++ [cComma; d1; d2] /\ ds <> [] /\
    all_of (fun c => is_digit c || is_char cDot c) ds /\
    is_digit d1 = true /\ is_digit d2 = true.

(** The currency marker: R$ and any white space after it. *)
Definition currency_marker (m : jsstring) : Prop :=
  exists ws, m = [cR; cDollar] ++ ws /\ all_of is_space ws.

(** A currency-shaped piece: a numeric token, the marker before it or not. *)
Definition currency_shaped (m : jsstring) : Prop :=
  numeric_token m \/ exists mk tok, m = mk ++ tok /\ currency_marker mk /\ numeric_token tok.

(** What the amount of the loose scan is looked for in: digits, a dot or a
    comma, two digits. *)
Definition amount_shaped (m : jsstring) : Prop :=
  exists ds sep d1 d2,
    m = ds ++ [sep; d1; d2] /\ ds <> [] /\ all_of is_digit ds /\
    (sep = cDot \/ sep = cComma) /\ is_digit d1 = true /\ is_digit d2 = true.

(** The token has a fractional part of two digits after a comma. *)
Definition comma_fraction (m : jsstring) : Prop :=
  exists a d1 d2 b, m = a ++ [cComma; d1; d2] ++ b /\ is_digit d1 = true /\ is_digit d2 = true.

(** The text carries the "não optante" marker, in any letter case. *)
Definition has_marker (s : jsstring) : Prop :=
  has_piece (fun m => map upper_of m = map upper_of (str "não optante")) s.

(** The text is a token of four digits. *)
Definition four_digits (s : jsstring) : Prop :=
  exists d1 d2 d3 d4, s = [d1; d2; d3; d4] /\
    is_digit d1 = true /\ is_digit d2 = true /\ is_digit d3 = true /\ is_digit d4 = true.

Definition aria_true (e : Dom.element) : bool :=
  match Dom.el_aria_disabled e with Some v => streqb v (str "true") | None => false end.

(** The disabled signals of an option of the native select that the
    engines look at: the disabled property, a disabled class. *)
Definition select_signal (e : Dom.element) : bool :=
  Dom.has_attr (Dom.el_disabled e) || Dom.classList_contains e (str "disabled").

(** The disabled signals of a scanned element: the disabled attribute, a
    class that names disabled, aria-disabled="true". *)
Definition scan_signal (e : Dom.element) : bool :=
  Dom.has_attr (Dom.el_disabled e) || includes (or_empty (Dom.el_class e)) (str "disabled")
  || aria_true e.

Definition scan_signal_tokens (e : Dom.element) : bool :=
  Dom.has_attr (Dom.el_disabled e)
  || Dom.classList_contains e (str "disabled") || Dom.classList_contains e (str "disabled-option")
  || aria_true e.

(** The amount string of the loose scan: R, $, white space and dots taken
    out. *)
Definition strip_class (c : N) : bool :=
  is_char cR c || is_char cDollar c || is_space c || is_char cDot c.

Definition stripped (s : jsstring) : jsstring := filter (fun c => negb (strip_class c)) s.

(** [toLowerCase] on a string of Basic Latin: the letters A to Z become a
    to z.  [lowers f] says that [f] is [toLowerCase] as far as such strings
    go. *)
Definition ascii_lower (s : jsstring) : jsstring :=
  map (fun c => if ((65 <=? c) && (c <=? 90))%N then (c + 32)%N else c) s.

Definition lowers (f : jsstring -> jsstring) : Prop :=
  forall s, all_of (fun c => (c <? 128)%N) s -> f s = ascii_lower s.

(** The key of column [k] in a record of the sequential engine. *)
Definition columnKey (headers : list jsstring) (k : nat) : jsstring :=
  Playwright.mappedKey (keyOr (or_empty (nth_error headers k)) k).

(** The numeric part of the currency literal: [[\d\.]+,\d{2}]. *)
Definition numericRegex : regex :=
  RSeq (RPlus digit_or_dot) (RSeq (lit cComma) (RSeq digit digit)).

(** The fields of an object as they come back from its JSON text. *)
Definition json_fields (fs : obj) : obj := map (fun kv => (fst kv, jsonify (snd kv))) fs.

(** What the retried extraction of a year gives when it returns, and that
    it returns. *)
Definition found (attempt : nat -> outcome (list jsval)) : list jsval :=
  match fst (safeExtractDebits attempt 3) with
  | Returned f => f
  | Thrown _ => []
  end.

Definition returns (attempt : nat -> outcome (list jsval)) : Prop :=
  exists f, fst (safeExtractDebits attempt 3) = Returned f.

(** The label and the records of each year, the years counted from [n]. *)
Fixpoint yearsFound {Y} (label : Y -> jsstring)
         (attemptAt : nat -> jsstring -> nat -> outcome (list jsval))
         (ys : list Y) (n : nat) : list (jsstring * list jsval) :=
  match ys with
  | [] => []
  | y :: ys' => (label y, found (attemptAt n (label y))) :: yearsFound label attemptAt ys' (S n)
  end.

Fixpoint allReturn {Y} (label : Y -> jsstring)
         (attemptAt : nat -> jsstring -> nat -> outcome (list jsval))
         (ys : list Y) (n : nat) : Prop :=
  match ys with
  | [] => True
  | y :: ys' => returns (attemptAt n (label y)) /\ allReturn label attemptAt ys' (S n)
  end.

Definition hasRecords (lf : jsstring * list jsval) : bool :=
  match snd lf with [] => false | _ :: _ => true end.

Definition resultOf (lf : jsstring * list jsval) : jsval := Disk.yearResult (fst lf) (snd lf).

Definition pathOf (lf : jsstring * list jsval) : jsstring := Disk.yearPath (fst lf).

(** The per-year files of the years in [l], written in order. *)
Definition writeYears (digits : jsstring) (name : jsval)
           (l : list (jsstring * list jsval)) (d : Disk.disk) : Disk.disk :=
  fold_left (fun d lf => Disk.writeFile (pathOf lf)
                           (Disk.yearPayload digits name (fst lf) (snd lf)) d) l d.

(** The paths written at the end of a Puppeteer run: the file of the year
    argument when the combined output is not empty, and the screenshot
    when the driver takes it. *)
Definition argWrites (p : Puppeteer.page) (debitos : list jsval) : list jsstring :=
  match debitos with
  | _ :: _ => [Disk.yearPath (Puppeteer.yearArg p)]
  | [] => []
  end.

Definition shotWrites (p : Puppeteer.page) : list jsstring :=
  match Puppeteer.screenshot p with
  | Returned _ => [Puppeteer.screenshotPath]
  | Thrown _ => []
  end.

(** The second write of the aggregate, when the late scan finds a name. *)
Definition lateWrites (nome : option jsstring) : list jsstring :=
  if truthy_str (or_empty nome) then [Disk.aggregatePath] else [].

(** The cache as a [Map] has it: no key twice, and no more entries than
    its capacity. *)
Definition cache_ok {V} (c : Server.cache V) : Prop :=
  NoDup (map_keys c) /\ map_size c <= Server.CACHE_MAX.

(** A query read as the body of a POST request. *)
Definition as_request (q : Server.query) : Server.request :=
  {| Server.req_cnpj := Server.q_cnpj q;
     Server.req_year := Server.q_year q;
     Server.req_month := Server.q_month q;
     Server.req_noHeadless :=
       match Server.q_noHeadless q with
       | Some s => truthy_str s && negb (streqb s (str "0"))
       | None => false
       end;
     Server.req_engine := Server.q_engine q |}.

(** The digits of the identifier of a request. *)
Definition digitsOf (x : option jsstring) : jsstring := filter is_digit (or_empty x).

Import Dom.

(** The value of a currency literal in hundredths: its digits before the
    comma, the dots left out, and the two digits after it. *)
Definition cents (ds : jsstring) (d1 d2 : N) : N :=
  decimal_value (filter is_digit ds ++ [d1; d2]).

(** The strings of [ms] are disjoint pieces of [s], in this order. *)
Fixpoint pieces_in_order (ms : list jsstring) (s : jsstring) : Prop :=
  match ms with
  | [] => True
  | m :: ms' => exists a b, s = a ++ m ++ b /\ pieces_in_order ms' b
  end.

(** The record of a row that is not in a table. *)
Definition nonTableRecord (year rowText : jsstring) : jsval :=
  VObj [(str "raw", VStr rowText);
        (str "parts", strs (filter truthy_str (map trim (split Playwright.splitRegex3 rowText))));
        (str "currencies", strs (fst (Playwright.match_currency rowText 0)));
        (str "year", VStr year); (str "source", VStr (str "non-table"))].

(** The text holds a currency-shaped piece or the year. *)
Definition passes (year text : jsstring) : Prop :=
  has_piece currency_shaped text \/ occurs year text.

(** Where a record of the loose scan comes from. *)
Definition loose_from (year : jsstring) (t : table) (rec : jsval) : Prop :=
  exists r, In r (table_rows t) /\ trim (row_text r) <> [] /\
            passes year (trim (row_text r)) /\ rec = looseRecord (trim (row_text r)).

(** Where a record of the sequential engine comes from: a row of a
    container without tables, or a row of a table after the header row. *)
Definition box_row (year : jsstring) (c : container) (rec : jsval) : Prop :=
  exists text rows row,
    c = CBox text [] rows /\ In row rows /\ trim row <> [] /\
    passes year (trim row) /\ rec = nonTableRecord year (trim row).

Definition table_row (toLowerCase : jsstring -> jsstring) (year : jsstring)
           (c : container) (rec : jsval) : Prop :=
  exists t r,
    In t (Playwright.containerTables c) /\ passes year (table_text t) /\
    In r (skipn (snd (Playwright.headersOf toLowerCase (table_rows t))) (table_rows t)) /\
    trim (row_text r) <> [] /\
    (passes year (row_text r) \/
     exists cell, In cell (row_cells r) /\ has_piece currency_shaped cell) /\
    rec = Playwright.tableRecord year (fst (Playwright.headersOf toLowerCase (table_rows t))) r
            (fst (Playwright.match_currency (row_text r) 0)).

(** The keys of a record, in their order. *)
Definition keysOf (v : jsval) : list jsstring :=
  match v with VObj fields => obj_keys fields | _ => [] end.

(** The entries of the vocabulary of the sequential engine that come
    after an entry with the same first word. *)
Definition shadowed : list jsstring :=
  [str "periodo"; str "valor principal"; str "valor total"; str "data vencimento";
   str "data de acolhimento"; str "data acolhimento"].

(** An entry before [e2] in [l] has the first word of [e2]. *)
Fixpoint shadow_in (l : list jsstring) (e2 : jsstring) : bool :=
  match l with
  | [] => false
  | e1 :: l' =>
    if streqb e1 e2 then false
    else if streqb (Playwright.firstWord e1) (Playwright.firstWord e2) then true
    else shadow_in l' e2
  end.

(** A row of a table has a cell of the vocabulary of the sequential
    engine, normalized. *)
Definition isHeaderRow (toLowerCase : jsstring -> jsstring) (r : row) : bool :=
  Playwright.hasExpected (map (Playwright.normalizeHeader toLowerCase) (row_cells r)).

(** The characters of a string that are not white space. *)
Definition visible (s : jsstring) : jsstring := filter (fun c => negb (is_space c)) s.

(** No two white-space characters next to each other. *)
Definition single_spaced (p : jsstring) : Prop :=
  forall a x y b, p = a ++ x :: y :: b -> is_space x && is_space y = false.

(** A piece between two separators. *)
Definition plain (p : jsstring) : Prop := ~ In cTab p /\ single_spaced p.

(** What the visit of the [n]-th year finds when every call of the driver
    returns: nothing on a page without the input, else what the extraction
    returns. *)
Inductive finds (toLowerCase : jsstring -> jsstring) (p : Parallel.page) (n : nat)
          (y : Parallel.yearOption) : list jsval -> Prop :=
| finds_no_input :
    Parallel.visitAt p n = Returned Parallel.NoInput ->
    Parallel.closeAt p n = Returned tt ->
    finds toLowerCase p n y []
| finds_shows tables found :
    Parallel.visitAt p n = Returned (Parallel.Shows tables) ->
    fst (safeExtractDebits (Parallel.attempt toLowerCase tables (Parallel.yearLabel y)) 3)
    = Returned found ->
    Parallel.closeAt p n = Returned tt ->
    finds toLowerCase p n y found.

(** The file of the [n]-th year, written when the year has records. *)
Definition yearFile (digits : jsstring) (name : jsval) (years : list Parallel.yearOption)
           (items : nat -> list jsval) (d : Disk.disk) (n : nat) : Disk.disk :=
  match nth_error years n, items n with
  | Some y, _ :: _ =>
    Disk.writeFile (Disk.yearPath (Parallel.yearLabel y))
                   (Disk.yearPayload digits name (Parallel.yearLabel y) (items n)) d
  | _, _ => d
  end.

(** The YearResults of the years from position [n] on, in their order. *)
Fixpoint yearResults (items : nat -> list jsval) (n : nat) (years : list Parallel.yearOption)
  : list jsval :=
  match years with
  | [] => []
  | y :: years' =>
    Disk.yearResult (Parallel.yearLabel y) (items n) :: yearResults items (S n) years'
  end.

End Shapes.

(* ===================================================================== *)
(** * Pages and requests used as examples                                *)
(* ===================================================================== *)
Module Examples.

Import Dom Common Disk.

Definition toLowerCase : jsstring -> jsstring := Shapes.ascii_lower.

Definition contextDestroyed : js_error :=
  {| err_name := str "Error";
     err_message := str "page.evaluate: Execution context was destroyed, most likely because of a navigation" |}.

Definition option_ (text value : jsstring) (class disabled aria : option jsstring) : element :=
  {| el_tag := str "option"; el_text := text; el_value := value;
     el_class := class; el_disabled := disabled; el_aria_disabled := aria |}.

Definition span_ (text : jsstring) (class disabled aria : option jsstring) : element :=
  {| el_tag := str "span"; el_text := text; el_value := [];
     el_class := class; el_disabled := disabled; el_aria_disabled := aria |}.

(** A select whose options are 2023, 2022 marked "não optante", 2021 with
    aria-disabled="true" only and 2020 with a disabled class; and an option
    2023 whose value is an index. *)
Definition opt2023 : element := option_ (str "2023") (str "2023") None None None.
Definition opt2022 : element := option_ (str "2022 - não optante") (str "2022") None None None.
Definition opt2021 : element := option_ (str "2021") (str "2021") None None (Some (str "true")).
Definition opt2020 : element := option_ (str "2020") (str "2020") (Some (str "item disabled")) None None.
Definition opt2023index : element := option_ (str "2023") (str "7") None None None.

Definition selectPage : year_page :=
  {| year_select := Some [opt2023; opt2022; opt2021; opt2020]; page_elements := [] |}.

Definition indexPage : year_page :=
  {| year_select := Some [opt2023index]; page_elements := [] |}.

Definition scanPage : year_page :=
  {| year_select := None;
     page_elements := [span_ (str "2023") None None None;
                       span_ (str "2022 - não optante") None None None;
                       span_ (str "2021") None None (Some (str "true"))] |}.

(** A table that names the year and holds no amount. *)
Definition yearOnlyTable : table :=
  {| table_text := str "Ano 2024";
     table_ths := [];
     table_rows := [{| row_text := str "Ano 2024"; row_cells := [str "Ano 2024"];
                       row_elems := [str "Ano 2024"] |}] |}.

(** A table of the loose scan: a row with a dot fraction and the year, a
    row with a comma fraction. *)
Definition dotRow : row :=
  {| row_text := str "2024  12.50"; row_cells := [str "2024"; str "12.50"];
     row_elems := [str "2024"; str "12.50"] |}.

Definition commaRow : row :=
  {| row_text := str "2023  1,00"; row_cells := [str "2023"; str "1,00"];
     row_elems := [str "2023"; str "1,00"] |}.

Definition looseTable : table :=
  {| table_text := row_text dotRow ++ [10%N] ++ row_text commaRow;
     table_ths := [];
     table_rows := [dotRow; commaRow] |}.

(** A debit table with its header row, and a table without one. *)
Definition cellsRow (cells : list jsstring) : row :=
  {| row_text := concat (map (fun c => c ++ [cTab]) cells);
     row_cells := cells; row_elems := cells |}.

Definition rowsTable (ths : list jsstring) (rows : list (list jsstring)) : table :=
  {| table_text := concat (map (fun r => row_text (cellsRow r) ++ [10%N]) rows);
     table_ths := ths;
     table_rows := map cellsRow rows |}.

Definition headerTable : table :=
  rowsTable []
    [[str "Principal"; str "Total"; str "Data de Vencimento"];
     [str "60,00"; str "66,60"; str "20/02/2023"];
     [str "60,00"; str "65,10"; str "20/03/2023"];
     [str "60,00"; str ""; str "20/04/2023"]].

Definition plainTable : table := rowsTable [] [[str "2024"; str "10,00"]].

(** A run with the eligible years 2023 and 2024: the page of 2023 shows the
    debit table with three rows, the page of 2024 shows no table. *)
Definition opt2024 : element := option_ (str "2024") (str "2024") None None None.

Definition twoYearsPage : year_page :=
  {| year_select := Some [opt2023; opt2024]; page_elements := [] |}.

Definition sequentialPage : Playwright.page :=
  {| Playwright.cnpjArg := str "12.345.678/0001-95";
     Playwright.yearArg := str "2024";
     Playwright.nameListInline := Some (str "CNPJ: 12.345.678/0001-95 - Nome: ACME");
     Playwright.yearPage := twoYearsPage;
     Playwright.containersAt :=
       fun n _ => match n with
                  | 0 => Returned [CTable headerTable]
                  | _ => Returned []
                  end;
     Playwright.nomeFinal := Some (str "ACME LTDA") |}.

Definition puppeteerPage : Puppeteer.page :=
  {| Puppeteer.cnpjArg := str "12.345.678/0001-95";
     Puppeteer.yearArg := str "2024";
     Puppeteer.nameListInline := Some (str "CNPJ: 12.345.678/0001-95 - Nome: ACME");
     Puppeteer.nomeFromHtml := None;
     Puppeteer.yearPage := twoYearsPage;
     Puppeteer.tablesAt :=
       fun n _ => match n with
                  | 0 => Returned [headerTable]
                  | _ => Returned []
                  end;
     Puppeteer.nameFromLabel := Some (str "ACME LTDA");
     Puppeteer.screenshot := Returned (str "PNG") |}.

Definition emptyDisk : disk := {| files := []; writes := [] |}.

(** A run in which the page of the second year raises an error that is
    not a lost execution context. *)
Definition timeoutError : js_error :=
  {| err_name := str "TimeoutError";
     err_message := str "page.evaluate: Timeout 30000ms exceeded." |}.

Definition failingPage : Playwright.page :=
  {| Playwright.cnpjArg := str "12.345.678/0001-95";
     Playwright.yearArg := str "2024";
     Playwright.nameListInline := Some (str "CNPJ: 12.345.678/0001-95 - Nome: ACME");
     Playwright.yearPage := twoYearsPage;
     Playwright.containersAt :=
       fun n _ => match n with
                  | 0 => Returned [CTable headerTable]
                  | _ => Thrown timeoutError
                  end;
     Playwright.nomeFinal := Some (str "ACME LTDA") |}.

Definition failingPuppeteerPage : Puppeteer.page :=
  {| Puppeteer.cnpjArg := str "12.345.678/0001-95";
     Puppeteer.yearArg := str "2024";
     Puppeteer.nameListInline := Some (str "CNPJ: 12.345.678/0001-95 - Nome: ACME");
     Puppeteer.nomeFromHtml := None;
     Puppeteer.yearPage := twoYearsPage;
     Puppeteer.tablesAt :=
       fun n _ => match n with
                  | 0 => Returned [headerTable]
                  | _ => Thrown timeoutError
                  end;
     Puppeteer.nameFromLabel := Some (str "ACME LTDA");
     Puppeteer.screenshot := Returned (str "PNG") |}.

(** The disk of the Puppeteer run when the aggregate has been written, and
    the fields of the aggregate. *)
Definition persisted : disk :=
  snd (Puppeteer.extractAll toLowerCase puppeteerPage
         (Puppeteer.normalizeCNPJ (Puppeteer.cnpjArg puppeteerPage)) emptyDisk).

Definition persistedFields : obj :=
  match readFile aggregatePath persisted with
  | Some (VObj agg) => agg
  | _ => []
  end.

(** A table of one row with one amount and no year; a container that is not
    a table, with an amount at the end of its text; a table of one row with
    two amounts; the debit table with both date columns; a table whose
    cells wrap their text in an element; an option marked "não optante"
    that is not disabled. *)
Definition amountTable : table := rowsTable [] [[str "DAS"; str "10,00"]].

Definition summaryBox : container :=
  CBox (str "Resumo do periodo de apuracao: R$ 10,00") [] [].

Definition twoAmountsTable : table := rowsTable [] [[str "2,00"; str "1,00"]].

Definition datesTable : table :=
  rowsTable []
    [[str "Total"; str "Data de Vencimento"; str "Data de Acolhimento"];
     [str "66,60"; str "20/02/2023"; str "21/02/2023"]].

Definition nestedTable : table :=
  {| table_text := str "Total" ++ [cTab] ++ str "Data de Vencimento" ++ [10%N]
                   ++ str "66,60" ++ [cTab] ++ str "20/02/2023";
     table_ths := [str "Total"; str "Data de Vencimento"];
     table_rows :=
       [{| row_text := str "Total" ++ [cTab] ++ str "Data de Vencimento";
           row_cells := [str "Total"; str "Data de Vencimento"];
           row_elems := [str "Total"; str "Data de Vencimento"] |};
        {| row_text := str "66,60" ++ [cTab] ++ str "20/02/2023";
           row_cells := [str "66,60"; str "20/02/2023"];
           row_elems := [str "66,60"; str "66,60"; str "20/02/2023"] |}] |}.

(** A run of the engine with one page per year over four eligible years:
    the page of 2023 shows the debit table, that of 2024 no table, that of
    2025 has no input for the identifier, and that of 2026 loses its
    execution context once and then shows a table without header. *)
Definition opt2025 : element := option_ (str "2025") (str "2025") None None None.
Definition opt2026 : element := option_ (str "2026") (str "2026") None None None.

Definition fourYearsPage : year_page :=
  {| year_select := Some [opt2023; opt2024; opt2025; opt2026]; page_elements := [] |}.

Definition table2026 : table := rowsTable [] [[str "2026"; str "10,00"]].

Definition parallelPage : Parallel.page :=
  {| Parallel.cnpjArg := str "12.345.678/0001-95";
     Parallel.yearArg := str "2024";
     Parallel.nameListInline := Some (str "CNPJ: 12.345.678/0001-95 - Nome: ACME");
     Parallel.yearPage := fourYearsPage;
     Parallel.tablesAt := fun _ => Returned [];
     Parallel.visitAt :=
       fun n => match n with
                | 0 => Returned (Parallel.Shows (fun _ => Returned [headerTable]))
                | 1 => Returned (Parallel.Shows (fun _ => Returned []))
                | 2 => Returned Parallel.NoInput
                | _ => Returned (Parallel.Shows
                                   (fun i => match i with
                                             | 0 => Thrown contextDestroyed
                                             | _ => Returned [table2026]
                                             end))
                end;
     Parallel.closeAt := fun _ => Returned tt;
     Parallel.nameFromLabel := Some (str "ACME LTDA");
     Parallel.screenshot := Some (str "PNG") |}.

Definition parallelItems (n : nat) : list jsval :=
  match n with
  | 0 => Parallel.extractDebits toLowerCase (str "2023") [headerTable]
  | 3 => Parallel.extractDebits toLowerCase (str "2026") [table2026]
  | _ => []
  end.

End Examples.

Import Dom Common Disk Shapes.

(* ===================================================================== *)
(** * Facts about the library                                            *)
(* ===================================================================== *)

Lemma streqb_eq a b : streqb a b = true <-> a = b.
Proof.
  revert b; induction a as [|x a IH]; intros [|y b]; simpl; split; try congruence; auto.
  - intros H. apply andb_true_iff in H as [H1 H2].
    apply N.eqb_eq in H1. apply IH in H2. congruence.
  - intros H. injection H as -> ->. rewrite N.eqb_refl. simpl. now apply IH.
Qed.

Lemma streqb_refl a : streqb a a = true.
Proof. now apply streqb_eq. Qed.

Lemma streqb_neq a b : streqb a b = false <-> a <> b.
Proof.
  split.
  - intros H E. apply streqb_eq in E. congruence.
  - intros H. destruct (streqb a b) eqn:E; auto. apply streqb_eq in E. contradiction.
Qed.

Lemma prefixb_spec p s : prefixb p s = true <-> exists b, s = p ++ b.
Proof.
  revert s; induction p as [|a p IH]; intros s; simpl.
  - split; eauto.
  - destruct s as [|c s].
    + split; [discriminate | intros [b Hb]; discriminate].
    + rewrite andb_true_iff, N.eqb_eq, IH. split.
      * intros [-> [b ->]]. now exists b.
      * intros [b Hb]. injection Hb as -> ->. eauto.
Qed.

Lemma includes_spec s sub : includes s sub = true <-> occurs sub s.
Proof.
  unfold occurs. induction s as [|c s IH]; simpl.
  - rewrite orb_false_r, prefixb_spec. split.
    + intros [b Hb]. exists [], b. exact Hb.
    + intros [a [b Hab]]. destruct a; simpl in Hab.
      * eauto.
      * discriminate.
  - rewrite orb_true_iff, prefixb_spec, IH. split.
    + intros [[b Hb] | [a [b Hab]]].
      * exists [], b. exact Hb.
      * exists (c :: a), b. simpl. now rewrite Hab.
    + intros [a [b Hab]]. destruct a as [|x a]; simpl in Hab.
      * left. eauto.
      * right. injection Hab as _ Hab. eauto.
Qed.

(** ** The matcher against the relation *)

Lemma rmatch_sound r : forall i s k e,
  rmatch r i s k = Some e -> exists j t, M r i s j t /\ k j t = Some e.
Proof.
  induction r as [p| |r1 IH1 r2 IH2|r1 IH1 r2 IH2|r1 IH1| |]; intros i s k e H; simpl in H.
  - destruct s as [|c s]; [discriminate|].
    destruct (p c) eqn:Hp; [|discriminate].
    exists (S i), s. split; [now constructor | exact H].
  - exists i, s. split; [constructor | exact H].
  - apply IH1 in H as (j & t & H1 & H). apply IH2 in H as (j' & t' & H2 & H).
    exists j', t'. split; [econstructor; eauto | exact H].
  - destruct (rmatch r1 i s k) eqn:E1.
    + injection H as ->. apply IH1 in E1 as (j & t & H1 & H).
      exists j, t. split; [now apply MAltL | exact H].
    + apply IH2 in H as (j & t & H2 & H).
      exists j, t. split; [now apply MAltR | exact H].
  - revert H. generalize (length s) at 1. intros fuel. revert i s.
    induction fuel as [|fuel IHf]; intros i s H.
    + exists i, s. split; [constructor | exact H].
    + match type of H with
      | match ?X with _ => _ end = _ => destruct X eqn:E1
      end.
      * injection H as ->. apply IH1 in E1 as (j & t & H1 & H).
        destruct (length t <? length s) eqn:Hlt; [|discriminate].
        apply Nat.ltb_lt in Hlt. apply IHf in H as (j' & t' & H2 & H).
        exists j', t'. split; [eapply MStarS; eauto | exact H].
      * exists i, s. split; [constructor | exact H].
  - destruct (i =? 0) eqn:E; [|discriminate]. apply Nat.eqb_eq in E. subst i.
    exists 0, s. split; [constructor | exact H].
  - destruct s; [|discriminate]. exists i, []. split; [constructor | exact H].
Qed.

Lemma M_char_inv p i s j t :
  M (RChar p) i s j t -> exists c, s = c :: t /\ j = S i /\ p c = true.
Proof. intros H. inversion H; subst. eauto. Qed.

Lemma M_eps_inv i s j t : M REps i s j t -> j = i /\ t = s.
Proof. intros H. inversion H; subst. auto. Qed.

Lemma M_seq_inv r1 r2 i s j t :
  M (RSeq r1 r2) i s j t -> exists j' t', M r1 i s j' t' /\ M r2 j' t' j t.
Proof. intros H. inversion H; subst. eauto. Qed.

Lemma M_alt_inv r1 r2 i s j t :
  M (RAlt r1 r2) i s j t -> M r1 i s j t \/ M r2 i s j t.
Proof. intros H. inversion H; subst; auto. Qed.

Lemma M_star_inv r i s j t :
  M (RStar r) i s j t ->
  (j = i /\ t = s) \/
  exists j' t', M r i s j' t' /\ length t' < length s /\ M (RStar r) j' t' j t.
Proof. intros H. inversion H; subst; eauto 6. Qed.

Lemma M_bol_inv i s j t : M RBol i s j t -> i = 0 /\ j = 0 /\ t = s.
Proof. intros H. inversion H; subst. auto. Qed.

Lemma M_eol_inv i s j t : M REol i s j t -> s = [] /\ j = i /\ t = [].
Proof. intros H. inversion H; subst. auto. Qed.

Lemma rmatch_complete r : forall i s j t,
  M r i s j t -> forall k e, k j t = Some e -> rmatch r i s k <> None.
Proof.
  induction r as [p| |r1 IH1 r2 IH2|r1 IH1 r2 IH2|r1 IH1| |]; intros i s j t HM k e Hk.
  - apply M_char_inv in HM as (c & -> & -> & Hp). simpl. rewrite Hp. congruence.
  - apply M_eps_inv in HM as [-> ->]. simpl. congruence.
  - apply M_seq_inv in HM as (j' & t' & H1 & H2). simpl.
    destruct (rmatch r2 j' t' k) eqn:E2.
    + eapply IH1; eauto.
    + exfalso. eapply IH2; eauto.
  - simpl. destruct (rmatch r1 i s k) eqn:E1; [congruence|].
    apply M_alt_inv in HM as [HM|HM].
    + exfalso. eapply IH1; eauto.
    + eapply IH2; eauto.
  - simpl.
    assert (Hfuel : length s <= length s) by lia.
    revert Hfuel. generalize (length s) at 2 3. intros fuel. revert i s HM.
    induction fuel as [|fuel IHf]; intros i s HM Hfuel.
    + apply M_star_inv in HM as [[-> ->] | (j' & t' & _ & Hlt & _)]; [congruence | lia].
    + match goal with
      | |- match ?X with _ => _ end <> None => destruct X eqn:E1
      end; [congruence|].
      apply M_star_inv in HM as [[-> ->] | (j' & t' & H1 & Hlt & H2)]; [congruence|].
      exfalso.
      assert (Hs : length t' <= fuel) by lia.
      specialize (IHf _ _ H2 Hs).
      match type of IHf with ?L <> None => destruct L as [e1|] eqn:EL end; [|congruence].
      eapply (IH1 _ _ _ _ H1); [|exact E1].
      simpl. apply Nat.ltb_lt in Hlt. rewrite Hlt. exact EL.
  - apply M_bol_inv in HM as (-> & -> & ->). simpl. congruence.
  - apply M_eol_inv in HM as (-> & -> & ->). simpl. congruence.
Qed.

Lemma match_at_Some r i s e :
  match_at r i s = Some e -> exists t, M r i s e t.
Proof.
  unfold match_at. intros H. apply rmatch_sound in H as (j & t & HM & Hj).
  injection Hj as ->. eauto.
Qed.

Lemma match_at_None r i s : match_at r i s = None <-> forall j t, ~ M r i s j t.
Proof.
  unfold match_at. split.
  - intros H j t HM.
    eapply (@rmatch_complete r i s j t HM (fun j _ => Some j)); [reflexivity | exact H].
  - intros H. destruct (rmatch r i s (fun j _ => Some j)) eqn:E; auto.
    apply rmatch_sound in E as (j & t & HM & _). exfalso. eapply H; eauto.
Qed.

Lemma search_None r : forall i s, search r i s = None <-> ~ matches_within r i s.
Proof.
  intros i s; revert i; induction s as [|c s IH]; intros i; simpl.
  - destruct (match_at r i []) eqn:E.
    + split; [discriminate|]. intros H. exfalso. apply H.
      apply match_at_Some in E as [t Ht]. exists [], [], n, t. simpl.
      rewrite Nat.add_0_r. auto.
    + split; auto. intros _ (a & b & j & t & Hab & HM).
      destruct a; [|discriminate]. destruct b; [|discriminate].
      simpl in HM. rewrite Nat.add_0_r in HM.
      rewrite match_at_None in E. eapply E; eauto.
  - destruct (match_at r i (c :: s)) eqn:E.
    + split; [discriminate|]. intros H. exfalso. apply H.
      apply match_at_Some in E as [t Ht]. exists [], (c :: s), n, t. simpl.
      rewrite Nat.add_0_r. auto.
    + rewrite IH. split.
      * intros H (a & b & j & t & Hab & HM). destruct a as [|x a]; simpl in *.
        -- subst b. rewrite Nat.add_0_r in HM. rewrite match_at_None in E. eapply E; eauto.
        -- injection Hab as -> ->. apply H. exists a, b, j, t. split; auto.
           now replace (S i + length a) with (i + S (length a)) by lia.
      * intros H (a & b & j & t & Hab & HM). apply H.
        exists (c :: a), b, j, t. simpl. subst s. split; auto.
        now replace (i + S (length a)) with (S i + length a) by lia.
Qed.

Lemma search_Some r : forall i s a e,
  search r i s = Some (a, e) ->
  exists pre suf, s = pre ++ suf /\ a = i + length pre /\ match_at r a suf = Some e.
Proof.
  intros i s; revert i; induction s as [|c s IH]; intros i a e; simpl.
  - destruct (match_at r i []) eqn:E; [|discriminate].
    intros H. injection H as <- <-. exists [], []. simpl. rewrite Nat.add_0_r. auto.
  - destruct (match_at r i (c :: s)) eqn:E.
    + intros H. injection H as <- <-. exists [], (c :: s). simpl. rewrite Nat.add_0_r. auto.
    + intros H. apply IH in H as (pre & suf & -> & -> & H).
      exists (c :: pre), suf. simpl.
      replace (i + S (length pre)) with (S i + length pre) by lia. auto.
Qed.

Lemma search_matches r i s a e : search r i s = Some (a, e) -> matches_within r i s.
Proof.
  intros H. apply search_Some in H as (pre & suf & -> & -> & H).
  apply match_at_Some in H as [t Ht]. exists pre, suf, e, t. auto.
Qed.

Lemma test_true r s : test r s = true <-> matches_within r 0 s.
Proof.
  unfold test. destruct (search r 0 s) as [[a e]|] eqn:E.
  - split; auto. intros _. eapply search_matches; eauto.
  - split; [discriminate|]. intros H. apply search_None in E. contradiction.
Qed.

(** ** Replacement of a class, and the digits of a string *)

Lemma replace_g_class p by_ : forall s i,
  replace_g_from (RChar p) by_ i s 0 = flat_map (fun c => if p c then by_ else [c]) s.
Proof.
  induction s as [|c s IH]; intros i; simpl; auto.
  unfold match_at. simpl. destruct (p c).
  - destruct (Nat.eqb_spec (S i) i) as [E|_]; [lia|].
    replace (S i - i - 1) with 0 by lia. now rewrite IH.
  - now rewrite IH.
Qed.

Lemma flat_map_drop (p : N -> bool) s :
  flat_map (fun c => if p c then [] else [c]) s = filter (fun c => negb (p c)) s.
Proof.
  induction s as [|c s IH]; simpl; auto. destruct (p c); simpl; now rewrite IH.
Qed.

Lemma remove_class p s :
  replace_g (RChar p) [] s = filter (fun c => negb (p c)) s.
Proof. unfold replace_g. now rewrite replace_g_class, flat_map_drop. Qed.

Lemma filter_ext_bool (f g : N -> bool) s :
  (forall c, f c = g c) -> filter f s = filter g s.
Proof. intros H. induction s as [|c s IH]; simpl; auto. now rewrite H, IH. Qed.

Lemma filter_idem (f : N -> bool) s : filter f (filter f s) = filter f s.
Proof.
  induction s as [|c s IH]; simpl; auto.
  destruct (f c) eqn:E; simpl; [rewrite E|]; now rewrite IH.
Qed.

Lemma remove_nonDigit s : replace_g nonDigit [] s = filter is_digit s.
Proof.
  unfold nonDigit. rewrite remove_class. apply filter_ext_bool.
  intros c. now rewrite negb_involutive.
Qed.

Lemma remove_non_digit s : replace_g Server.non_digit [] s = filter is_digit s.
Proof.
  unfold Server.non_digit. rewrite remove_class. apply filter_ext_bool.
  intros c. now rewrite negb_involutive.
Qed.

(** ** Maps in insertion order *)
Section MapFacts.
Variable V : Type.
Implicit Types (m : jsmap V) (k : jsstring) (v : V).

Lemma map_get_delete_same k m : map_get k (map_delete k m) = None.
Proof.
  induction m as [|[k' v'] m IH]; simpl; auto.
  destruct (streqb k' k) eqn:E; simpl; auto. now rewrite E.
Qed.

Lemma map_get_delete_other k k' m :
  k' <> k -> map_get k' (map_delete k m) = map_get k' m.
Proof.
  intros Hne. induction m as [|[k0 v0] m IH]; simpl; auto.
  destruct (streqb k0 k) eqn:E; simpl.
  - apply streqb_eq in E. subst k0.
    destruct (streqb k k') eqn:E'; auto. apply streqb_eq in E'. congruence.
  - now rewrite IH.
Qed.

Lemma map_set_absent k v m : map_get k m = None -> map_set k v m = m ++ [(k, v)].
Proof.
  induction m as [|[k0 v0] m IH]; simpl; auto.
  destruct (streqb k0 k); [discriminate|]. intros H. now rewrite IH.
Qed.

Lemma map_get_set_same k v m : map_get k (map_set k v m) = Some v.
Proof.
  induction m as [|[k0 v0] m IH]; simpl.
  - now rewrite streqb_refl.
  - destruct (streqb k0 k) eqn:E; simpl; now rewrite E.
Qed.

Lemma map_get_set_other k k' v m :
  k' <> k -> map_get k' (map_set k v m) = map_get k' m.
Proof.
  intros Hne. induction m as [|[k0 v0] m IH]; simpl.
  - destruct (streqb k k') eqn:E; auto. apply streqb_eq in E. congruence.
  - destruct (streqb k0 k) eqn:E; simpl.
    + apply streqb_eq in E. subst k0.
      destruct (streqb k k') eqn:E'; auto. apply streqb_eq in E'. congruence.
    + now rewrite IH.
Qed.

Lemma map_delete_keys_unique k v m :
  ~ In k (map_keys m) -> map_delete k ((k, v) :: m) = m.
Proof.
  intros Hnin. unfold map_delete. simpl. rewrite streqb_refl. simpl.
  induction m as [|[k0 v0] m IH]; simpl; auto.
  destruct (streqb k0 k) eqn:E.
  - apply streqb_eq in E. subst. exfalso. apply Hnin. simpl. auto.
  - simpl. f_equal. apply IH. intros H. apply Hnin. simpl. auto.
Qed.

End MapFacts.

(* ===================================================================== *)
(** * The dispatcher                                                     *)
(* ===================================================================== *)

(** C8, as the sources have it: in the three engines normalizeCNPJ keeps
    exactly the digits of its input, in order, and applying it twice is
    applying it once.  In the dispatcher sanitizeCNPJ answers null on the
    empty string and the digits otherwise; applied to its own result it
    answers the digits again when there are some and null when there are
    none. *)
Theorem C8_normalize_digits (x : jsstring) :
  Puppeteer.normalizeCNPJ x = filter is_digit x /\
  Parallel.normalizeCNPJ x = filter is_digit x /\
  Playwright.normalizeCNPJ x = filter is_digit x /\
  Puppeteer.normalizeCNPJ (Puppeteer.normalizeCNPJ x) = Puppeteer.normalizeCNPJ x /\
  Parallel.normalizeCNPJ (Parallel.normalizeCNPJ x) = Parallel.normalizeCNPJ x /\
  Playwright.normalizeCNPJ (Playwright.normalizeCNPJ x) = Playwright.normalizeCNPJ x /\
  Server.sanitizeCNPJ (Some x) =
    match x with [] => None | _ :: _ => Some (filter is_digit x) end /\
  Server.sanitizeCNPJ (Server.sanitizeCNPJ (Some x)) =
    match filter is_digit x with [] => None | ds => Some ds end.
Proof.
  unfold Puppeteer.normalizeCNPJ, Parallel.normalizeCNPJ, Playwright.normalizeCNPJ.
  rewrite !remove_nonDigit, !filter_idem.
  repeat split.
  - destruct x as [|c x]; [reflexivity|].
    unfold Server.sanitizeCNPJ. now rewrite remove_non_digit.
  - destruct x as [|c x]; [reflexivity|].
    unfold Server.sanitizeCNPJ at 2. rewrite remove_non_digit.
    destruct (filter is_digit (c :: x)) as [|d ds] eqn:E; [reflexivity|].
    unfold Server.sanitizeCNPJ. rewrite remove_non_digit, <- E, filter_idem. reflexivity.
Qed.

(** C8 as stated fails in the dispatcher: on a string without digits
    sanitizeCNPJ answers the empty string, and on that it answers null. *)
Lemma C8_sanitize_not_idempotent :
  Server.sanitizeCNPJ (Some (str "abc")) = Some [] /\
  Server.sanitizeCNPJ (Server.sanitizeCNPJ (Some (str "abc"))) = None /\
  Server.sanitizeCNPJ (Server.sanitizeCNPJ (Some (str "abc")))
    <> Server.sanitizeCNPJ (Some (str "abc")).
Proof. vm_compute. repeat split. discriminate. Qed.

Section CacheFacts.
Variable V : Type.
Implicit Types (c : Server.cache V) (e : Server.entry V).

Lemma getFromCache_hit now key c e :
  map_get key c = Some e -> (now - Server.ts e <= Server.CACHE_TTL)%Z ->
  Server.getFromCache now key c = (Some (Server.value e), map_delete key c ++ [(key, e)]).
Proof.
  intros Hget Hage. unfold Server.getFromCache. rewrite Hget.
  destruct (now - Server.ts e >? Server.CACHE_TTL)%Z eqn:E.
  - apply Z.gtb_lt in E. lia.
  - now rewrite map_set_absent by apply map_get_delete_same.
Qed.

Lemma getFromCache_stale now key c e :
  map_get key c = Some e -> (now - Server.ts e > Server.CACHE_TTL)%Z ->
  Server.getFromCache now key c = (None, map_delete key c).
Proof.
  intros Hget Hage. unfold Server.getFromCache. rewrite Hget.
  destruct (now - Server.ts e >? Server.CACHE_TTL)%Z eqn:E; auto.
  rewrite Z.gtb_ltb in E. apply Z.ltb_ge in E. lia.
Qed.

Lemma map_get_app_last key e (m : jsmap (Server.entry V)) :
  map_get key m = None -> map_get key (m ++ [(key, e)]) = Some e.
Proof.
  induction m as [|[k0 v0] m IH]; simpl.
  - now rewrite streqb_refl.
  - destruct (streqb k0 key); [discriminate | auto].
Qed.

Lemma setToCache_get now key v c :
  map_get key (Server.setToCache now key v c)
  = Some {| Server.ts := now; Server.value := v |}.
Proof. unfold Server.setToCache. apply map_get_set_same. Qed.

End CacheFacts.

(** C7: getFromCache answers an entry only while its age is within the
    TTL; a stale entry is deleted and answered as a miss; a hit moves the
    entry, timestamp unchanged, to the newest position, so that a later
    access past the TTL of the original timestamp still misses; setToCache
    at capacity deletes the oldest key before it inserts. *)
Theorem C7_cache_ttl_and_eviction (V : Type) (now : Z) (key : jsstring) (c : Server.cache V) :
  (forall v c', Server.getFromCache now key c = (Some v, c') ->
     exists e, map_get key c = Some e /\ Server.value e = v /\
               (now - Server.ts e <= Server.CACHE_TTL)%Z) /\
  (forall e, map_get key c = Some e -> (now - Server.ts e > Server.CACHE_TTL)%Z ->
     Server.getFromCache now key c = (None, map_delete key c) /\
     map_get key (map_delete key c) = None) /\
  (forall e, map_get key c = Some e -> (now - Server.ts e <= Server.CACHE_TTL)%Z ->
     Server.getFromCache now key c = (Some (Server.value e), map_delete key c ++ [(key, e)]) /\
     map_get key (snd (Server.getFromCache now key c)) = Some e) /\
  (forall e later, map_get key c = Some e -> (now - Server.ts e <= Server.CACHE_TTL)%Z ->
     (later - Server.ts e > Server.CACHE_TTL)%Z ->
     fst (Server.getFromCache later key (snd (Server.getFromCache now key c))) = None) /\
  (forall k0 e0 rest v, c = (k0, e0) :: rest -> Server.CACHE_MAX <= map_size c ->
     Server.setToCache now key v c
       = map_set key {| Server.ts := now; Server.value := v |} (map_delete k0 c) /\
     (k0 <> key -> map_get k0 (Server.setToCache now key v c) = None) /\
     map_get key (Server.setToCache now key v c)
       = Some {| Server.ts := now; Server.value := v |}).
Proof.
  split; [|split; [|split; [|split]]].
  - intros v c' H. unfold Server.getFromCache in H.
    destruct (map_get key c) as [e|] eqn:Hget; [|discriminate].
    destruct (now - Server.ts e >? Server.CACHE_TTL)%Z eqn:E; [discriminate|].
    injection H as <- _. exists e. repeat split; auto.
    rewrite Z.gtb_ltb in E. apply Z.ltb_ge in E. lia.
  - intros e Hget Hage. split.
    + eapply getFromCache_stale; eauto.
    + apply map_get_delete_same.
  - intros e Hget Hage. split.
    + eapply getFromCache_hit; eauto.
    + rewrite (@getFromCache_hit V now key c e Hget Hage). simpl.
      apply map_get_app_last, map_get_delete_same.
  - intros e later Hget Hage Hlate.
    rewrite (@getFromCache_hit V now key c e Hget Hage). simpl.
    erewrite getFromCache_stale; eauto.
    apply map_get_app_last, map_get_delete_same.
  - intros k0 e0 rest v -> Hfull.
    assert (Hset : Server.setToCache now key v ((k0, e0) :: rest)
                   = map_set key {| Server.ts := now; Server.value := v |}
                             (map_delete k0 ((k0, e0) :: rest))).
    { unfold Server.setToCache. apply Nat.leb_le in Hfull. now rewrite Hfull. }
    split; [exact Hset | split].
    + intros Hne. rewrite Hset.
      rewrite map_get_set_other by auto. apply map_get_delete_same.
    + apply setToCache_get.
Qed.

Lemma C7_cache_witness :
  Server.getFromCache 600000 (str "0|2024|1")
    [(str "0|2024|1", {| Server.ts := 0; Server.value := 7 |});
     (str "1|2024|1", {| Server.ts := 5; Server.value := 8 |})]
  = (Some 7,
     [(str "1|2024|1", {| Server.ts := 5; Server.value := 8 |});
      (str "0|2024|1", {| Server.ts := 0; Server.value := 7 |})]).
Proof.
  destruct (@C7_cache_ttl_and_eviction nat 600000 (str "0|2024|1")
              [(str "0|2024|1", {| Server.ts := 0; Server.value := 7 |});
               (str "1|2024|1", {| Server.ts := 5; Server.value := 8 |})])
    as (_ & _ & Hhit & _).
  destruct (Hhit {| Server.ts := 0%Z; Server.value := 7 |}) as [H _].
  - reflexivity.
  - vm_compute. discriminate.
  - exact H.
Defined.

(** C10: the cache key is made of the sanitized identifier, the year and
    the month only.  Two requests that agree on these get the same key,
    whatever their engine and headless fields; what one run stored is
    answered from the cache to the other request while the entry is within
    the TTL. *)
Theorem C10_cache_key_ignores_engine (V : Type) (stored now : Z)
        (r1 r2 : Server.request) (c : Server.cache V) (v : V) (cnpjRaw : jsstring) :
  Server.sanitizeCNPJ (Some (or_empty (Server.req_cnpj r1))) = Some cnpjRaw ->
  Server.sanitizeCNPJ (Some (or_empty (Server.req_cnpj r2))) = Some cnpjRaw ->
  11 <= length cnpjRaw ->
  or_empty (Server.req_year r1) = or_empty (Server.req_year r2) ->
  or_empty (Server.req_month r1) = or_empty (Server.req_month r2) ->
  (now - stored <= Server.CACHE_TTL)%Z ->
  Server.request_key cnpjRaw r1 = Server.request_key cnpjRaw r2 /\
  fst (Server.scrape now r2
         (Server.on_exit stored (Server.request_key cnpjRaw r1) (Some v) c))
  = Server.FromCache v.
Proof.
  intros H1 H2 Hlen Hy Hm Hage.
  assert (Hkey : Server.request_key cnpjRaw r1 = Server.request_key cnpjRaw r2).
  { unfold Server.request_key, Server.makeKey. now rewrite Hy, Hm. }
  split; [exact Hkey|].
  unfold Server.scrape. rewrite H2.
  destruct (length cnpjRaw <? 11) eqn:E; [apply Nat.ltb_lt in E; lia|].
  unfold Server.on_exit. rewrite <- Hkey.
  rewrite (@getFromCache_hit V now _ _ {| Server.ts := stored; Server.value := v |}).
  - reflexivity.
  - apply setToCache_get.
  - exact Hage.
Qed.

Lemma C10_cache_key_witness :
  let r1 := {| Server.req_cnpj := Some (str "12.345.678/0001-95");
               Server.req_year := Some (str "2024"); Server.req_month := None;
               Server.req_noHeadless := false; Server.req_engine := Some (str "playwright") |} in
  let r2 := {| Server.req_cnpj := Some (str "12345678000195");
               Server.req_year := Some (str "2024"); Server.req_month := Some [];
               Server.req_noHeadless := true; Server.req_engine := None |} in
  Server.request_key (str "12345678000195") r1 = Server.request_key (str "12345678000195") r2 /\
  fst (Server.scrape 500 r2
         (Server.on_exit 100 (Server.request_key (str "12345678000195") r1) (Some 7) []))
  = Server.FromCache 7.
Proof.
  intros r1 r2.
  apply (@C10_cache_key_ignores_engine nat 100 500 r1 r2 [] 7 (str "12345678000195")).
  - reflexivity.
  - reflexivity.
  - vm_compute. repeat constructor.
  - reflexivity.
  - reflexivity.
  - vm_compute. discriminate.
Defined.

(* ===================================================================== *)
(** * The retry on a lost execution context                              *)
(* ===================================================================== *)

Section Retry.
Variable A : Type.
Variable attempt : nat -> outcome (list A).

Lemma safeLoop_retried n : forall i left,
  (forall j, i <= j < i + n -> retried attempt j) ->
  safeLoop attempt i (n + left) = safeLoop attempt (i + n) left.
Proof.
  induction n as [|n IH]; intros i left H.
  - now rewrite Nat.add_0_r.
  - simpl. destruct (H i) as (err & Hi & Hc); [lia|]. rewrite Hi, Hc.
    rewrite IH by (intros j Hj; apply H; lia).
    f_equal. lia.
Qed.

End Retry.

(** C2: with three attempts, two losses of the execution context followed
    by a success give the successful result; an error that does not match
    is raised at once, after no further call; three losses give the empty
    list, not an error. *)
Theorem C2_safeExtractDebits_retry (A : Type) (attempt : nat -> outcome (list A)) :
  (forall found, retried attempt 0 -> retried attempt 1 -> attempt 2 = Returned found ->
     safeExtractDebits attempt 3 = (Returned found, 3)) /\
  (forall i err, i < 3 -> (forall j, j < i -> retried attempt j) ->
     attempt i = Thrown err -> contextLost (error_msg err) = false ->
     safeExtractDebits attempt 3 = (Thrown err, S i)) /\
  ((forall j, j < 3 -> retried attempt j) ->
     safeExtractDebits attempt 3 = (Returned [], 3)).
Proof.
  unfold safeExtractDebits. split; [|split].
  - intros found H0 H1 H2.
    change (safeLoop attempt 0 3) with (safeLoop attempt 0 (2 + 1)).
    rewrite (@safeLoop_retried A attempt 2 0 1).
    + simpl. now rewrite H2.
    + intros j Hj. assert (j = 0 \/ j = 1) as [-> | ->] by lia; assumption.
  - intros i err Hi Hbefore Herr Hno.
    replace (safeLoop attempt 0 3) with (safeLoop attempt 0 (i + S (2 - i)))
      by (f_equal; lia).
    rewrite (@safeLoop_retried A attempt i 0 (S (2 - i))).
    + simpl. now rewrite Herr, Hno.
    + intros j Hj. apply Hbefore. lia.
  - intros Hall.
    change (safeLoop attempt 0 3) with (safeLoop attempt 0 (3 + 0)).
    rewrite (@safeLoop_retried A attempt 3 0 0).
    + reflexivity.
    + intros j Hj. apply Hall. lia.
Qed.

Lemma C2_retry_witness :
  safeExtractDebits
    (fun i => match i with
              | 0 | 1 => Thrown Examples.contextDestroyed
              | _ => Returned [str "10,00"]
              end) 3
  = (Returned [str "10,00"], 3).
Proof.
  destruct (@C2_safeExtractDebits_retry jsstring
              (fun i => match i with
                        | 0 | 1 => Thrown Examples.contextDestroyed
                        | _ => Returned [str "10,00"]
                        end)) as (Hok & _ & _).
  apply Hok.
  - exists Examples.contextDestroyed. split; [reflexivity | vm_compute; reflexivity].
  - exists Examples.contextDestroyed. split; [reflexivity | vm_compute; reflexivity].
  - reflexivity.
Defined.

(* ===================================================================== *)
(** * The year selection                                                 *)
(* ===================================================================== *)

Lemma M_literal_ci s : forall i x j t,
  M (literal_ci s) i x j t <->
  exists m, x = m ++ t /\ j = i + length m /\ map upper_of m = map upper_of s.
Proof.
  induction s as [|c s IH]; intros i x j t; simpl.
  - split.
    + intros H. apply M_eps_inv in H as [-> ->]. exists []. simpl. auto.
    + intros (m & -> & -> & Hm). destruct m; [|discriminate].
      simpl. rewrite Nat.add_0_r. constructor.
  - split.
    + intros H. apply M_seq_inv in H as (j' & t' & H1 & H2).
      apply M_char_inv in H1 as (c' & -> & -> & Hc).
      apply IH in H2 as (m & -> & -> & Hm).
      apply N.eqb_eq in Hc.
      exists (c' :: m). simpl. split; [reflexivity | split; [lia | congruence]].
    + intros (m & -> & -> & Hm). destruct m as [|c' m]; [discriminate|].
      simpl in Hm. injection Hm as Hc Hm.
      econstructor.
      * constructor. now apply N.eqb_eq.
      * apply IH. exists m. repeat split; auto. simpl. lia.
Qed.

Lemma test_marker s : test naoOptanteRegex s = true <-> has_marker s.
Proof.
  rewrite test_true. unfold matches_within, has_marker, has_piece, naoOptanteRegex. split.
  - intros (a & b & j & t & -> & H). apply M_literal_ci in H as (m & -> & _ & Hm).
    exists a, m, t. auto.
  - intros (a & m & b & -> & Hm). exists a, (m ++ b), (0 + length a + length m), b.
    split; auto. apply M_literal_ci. exists m. auto.
Qed.

Lemma test_marker_false s : test naoOptanteRegex s = false <-> ~ has_marker s.
Proof.
  rewrite <- test_marker. destruct (test naoOptanteRegex s); split; congruence.
Qed.

Lemma test_year s : test yearRegex s = true <-> four_digits s.
Proof.
  rewrite test_true. unfold matches_within, four_digits, yearRegex, digit. split.
  - intros (a & b & j & t & -> & H).
    apply M_seq_inv in H as (j0 & t0 & H0 & H).
    apply M_bol_inv in H0 as (Ha & -> & ->).
    destruct a; [|simpl in Ha; discriminate]. simpl.
    apply M_seq_inv in H as (j1 & t1 & H1 & H). apply M_char_inv in H1 as (d1 & -> & -> & Hd1).
    apply M_seq_inv in H as (j2 & t2 & H2 & H). apply M_char_inv in H2 as (d2 & -> & -> & Hd2).
    apply M_seq_inv in H as (j3 & t3 & H3 & H). apply M_char_inv in H3 as (d3 & -> & -> & Hd3).
    apply M_seq_inv in H as (j4 & t4 & H4 & H). apply M_char_inv in H4 as (d4 & -> & -> & Hd4).
    apply M_eol_inv in H as (-> & _ & _).
    exists d1, d2, d3, d4. auto.
  - intros (d1 & d2 & d3 & d4 & -> & Hd1 & Hd2 & Hd3 & Hd4).
    exists [], [d1; d2; d3; d4], 4, []. split; auto. simpl.
    repeat (econstructor; eauto).
Qed.

Lemma four_digits_2023 : four_digits (str "2023").
Proof. exists 50%N, 48%N, 50%N, 51%N. repeat split. Qed.

Section YearFacts.
Variable p : year_page.

(** The native select, Puppeteer engine and engine with one page per year. *)
Lemma puppeteer_select options :
  year_select p = Some options ->
  (forall y, In y (Puppeteer.getAvailableYears p) ->
     exists o, In o options /\ y = Puppeteer.selectOption o /\
               ~ has_marker (trim (el_text o)) /\ select_signal o = false) /\
  (forall o, In o options -> trim (el_text o) = str "2023" -> select_signal o = false ->
     In (Puppeteer.selectOption o) (Puppeteer.getAvailableYears p)).
Proof.
  intros Hsel. unfold Puppeteer.getAvailableYears. rewrite Hsel. split.
  - intros y Hy. apply filter_In in Hy as [Hin Hel].
    apply in_map_iff in Hin as (o & <- & Ho).
    unfold Puppeteer.eligible in Hel. simpl in Hel.
    apply andb_true_iff in Hel as [Hel Hdis]. apply andb_true_iff in Hel as [_ Hmark].
    apply negb_true_iff in Hdis, Hmark.
    exists o. repeat split; auto. now apply test_marker_false.
  - intros o Ho Htxt Hsig. apply filter_In. split.
    + apply in_map_iff. eauto.
    + unfold Puppeteer.eligible. simpl. rewrite Htxt.
      unfold select_signal in Hsig. rewrite Hsig. reflexivity.
Qed.

Lemma parallel_select options :
  year_select p = Some options ->
  (forall y, In y (Parallel.getAvailableYears p) ->
     exists o, In o options /\ y = Parallel.selectOption o /\
               ~ has_marker (trim (el_text o)) /\ select_signal o = false) /\
  (forall o, In o options -> trim (el_text o) = str "2023" -> select_signal o = false ->
     In (Parallel.selectOption o) (Parallel.getAvailableYears p)).
Proof.
  intros Hsel. unfold Parallel.getAvailableYears. rewrite Hsel. split.
  - intros y Hy. apply filter_In in Hy as [Hin Hel].
    apply in_map_iff in Hin as (o & <- & Ho).
    unfold Parallel.eligible in Hel. simpl in Hel.
    apply andb_true_iff in Hel as [Hel Hdis]. apply andb_true_iff in Hel as [_ Hmark].
    apply negb_true_iff in Hdis, Hmark.
    exists o. repeat split; auto. now apply test_marker_false.
  - intros o Ho Htxt Hsig. apply filter_In. split.
    + apply in_map_iff. eauto.
    + unfold Parallel.eligible. simpl. rewrite Htxt.
      unfold select_signal in Hsig. rewrite Hsig. reflexivity.
Qed.

(** The native select, sequential engine: the disabled signals. *)
Lemma playwright_select options :
  year_select p = Some options ->
  (forall y, In y (Playwright.available (Playwright.getAvailableYears p)) ->
     exists o, In o options /\ y = Playwright.selectOption o /\ select_signal o = false) /\
  (forall o, In o options -> trim (el_text o) = str "2023" -> select_signal o = false ->
     el_value o = [] \/ four_digits (el_value o) ->
     In (Playwright.selectOption o) (Playwright.available (Playwright.getAvailableYears p))).
Proof.
  intros Hsel. unfold Playwright.getAvailableYears. rewrite Hsel. simpl. split.
  - intros y Hy. apply filter_In in Hy as [Hin Hav].
    apply in_map_iff in Hin as (o & <- & Ho).
    unfold Playwright.isAvailable in Hav. simpl in Hav.
    apply andb_true_iff in Hav as [Hav _]. apply andb_true_iff in Hav as [_ Hdis].
    apply negb_true_iff in Hdis. exists o. auto.
  - intros o Ho Htxt Hsig Hval. apply filter_In. split.
    + apply in_map_iff. eauto.
    + unfold Playwright.isAvailable. simpl. rewrite Htxt.
      unfold select_signal in Hsig. rewrite Hsig. simpl.
      destruct Hval as [-> | Hval]; [reflexivity|].
      unfold or_str. destruct (truthy_str (el_value o)).
      * now apply test_year.
      * reflexivity.
Qed.

(** The scan of the page. *)
Lemma puppeteer_scan :
  year_select p = None ->
  (forall y, In y (Puppeteer.getAvailableYears p) ->
     exists el, In el (page_elements p) /\ tag_in Puppeteer.scanTags el = true /\
                Puppeteer.y_text y = trim (el_text el) /\ four_digits (trim (el_text el)) /\
                ~ has_marker (trim (el_text el)) /\ scan_signal_tokens el = false) /\
  (forall el, In el (page_elements p) -> tag_in Puppeteer.scanTags el = true ->
     trim (el_text el) = str "2023" -> scan_signal_tokens el = false ->
     In {| Puppeteer.y_value := str "2023"; Puppeteer.y_text := str "2023";
           Puppeteer.y_disabled := false |} (Puppeteer.getAvailableYears p)).
Proof.
  intros Hsel. unfold Puppeteer.getAvailableYears. rewrite Hsel.
  assert (Hsig : forall el, Puppeteer.isDisabled el = scan_signal_tokens el).
  { intros el. unfold Puppeteer.isDisabled, scan_signal_tokens, aria_true.
    destruct (has_attr (el_disabled el)),
             (classList_contains el (str "disabled")),
             (classList_contains el (str "disabled-option")),
             (match el_aria_disabled el with Some v => streqb v (str "true") | None => false end);
      reflexivity. }
  split.
  - intros y Hy. apply in_flat_map in Hy as (el & Hel & Hy).
    apply filter_In in Hel as [Hel Htag].
    unfold Puppeteer.scanYear in Hy.
    destruct (test yearRegex (trim (el_text el))) eqn:Hyear; [|destruct Hy].
    destruct (test naoOptanteRegex (trim (el_text el))) eqn:Hmark; [destruct Hy|].
    destruct (Puppeteer.isDisabled el) eqn:Hdis; [destruct Hy|].
    simpl in Hy. destruct Hy as [<- | []].
    exists el. simpl. repeat split; auto.
    + now apply test_year.
    + now apply test_marker_false.
    + now rewrite <- Hsig.
  - intros el Hel Htag Htxt Hno. apply in_flat_map. exists el. split.
    + apply filter_In. auto.
    + unfold Puppeteer.scanYear. rewrite Htxt, Hsig, Hno. simpl. auto.
Qed.

Lemma parallel_scan :
  year_select p = None ->
  (forall y, In y (Parallel.getAvailableYears p) ->
     exists el, In el (page_elements p) /\ tag_in Parallel.scanTags el = true /\
                Parallel.y_text y = trim (el_text el) /\ four_digits (trim (el_text el)) /\
                ~ has_marker (trim (el_text el)) /\ scan_signal el = false) /\
  (forall el, In el (page_elements p) -> tag_in Parallel.scanTags el = true ->
     trim (el_text el) = str "2023" -> scan_signal el = false ->
     In {| Parallel.y_value := str "2023"; Parallel.y_text := str "2023";
           Parallel.y_disabled := false |} (Parallel.getAvailableYears p)).
Proof.
  intros Hsel. unfold Parallel.getAvailableYears. rewrite Hsel.
  assert (Hsig : forall el, Parallel.isDisabled el = scan_signal el).
  { intros el. unfold Parallel.isDisabled, scan_signal, aria_true.
    destruct (has_attr (el_disabled el)),
             (includes (or_empty (el_class el)) (str "disabled")),
             (match el_aria_disabled el with Some v => streqb v (str "true") | None => false end);
      reflexivity. }
  split.
  - intros y Hy. apply in_flat_map in Hy as (el & Hel & Hy).
    apply filter_In in Hel as [Hel Htag].
    unfold Parallel.scanYear in Hy.
    destruct (test yearRegex (trim (el_text el))) eqn:Hyear; [|destruct Hy].
    destruct (test naoOptanteRegex (trim (el_text el))) eqn:Hmark; [destruct Hy|].
    destruct (Parallel.isDisabled el) eqn:Hdis; [destruct Hy|].
    simpl in Hy. destruct Hy as [<- | []].
    exists el. simpl. repeat split; auto.
    + now apply test_year.
    + now apply test_marker_false.
    + now rewrite <- Hsig.
  - intros el Hel Htag Htxt Hno. apply in_flat_map. exists el. split.
    + apply filter_In. auto.
    + unfold Parallel.scanYear. rewrite Htxt, Hsig, Hno. simpl. auto.
Qed.

Lemma playwright_scan :
  year_select p = None ->
  (forall y, In y (Playwright.available (Playwright.getAvailableYears p)) ->
     exists el, In el (page_elements p) /\ tag_in Playwright.scanTags el = true /\
                Playwright.y_text y = trim (el_text el) /\ four_digits (trim (el_text el)) /\
                ~ has_marker (trim (el_text el)) /\ scan_signal el = false) /\
  (forall el, In el (page_elements p) -> tag_in Playwright.scanTags el = true ->
     trim (el_text el) = str "2023" -> scan_signal el = false ->
     In {| Playwright.y_value := str "2023"; Playwright.y_text := str "2023";
           Playwright.y_disabled := false |}
        (Playwright.available (Playwright.getAvailableYears p))).
Proof.
  intros Hsel. unfold Playwright.getAvailableYears. rewrite Hsel. simpl.
  assert (Hsig : forall el, Playwright.isDisabled el = scan_signal el).
  { intros el. unfold Playwright.isDisabled, scan_signal, aria_true.
    destruct (has_attr (el_disabled el)),
             (includes (or_empty (el_class el)) (str "disabled")),
             (match el_aria_disabled el with Some v => streqb v (str "true") | None => false end);
      reflexivity. }
  split.
  - intros y Hy. apply filter_In in Hy as [Hy Hav].
    apply in_flat_map in Hy as (el & Hel & Hy).
    apply filter_In in Hel as [Hel Htag].
    unfold Playwright.scanYear in Hy.
    destruct (test yearRegex (trim (el_text el)) || test naoOptanteRegex (trim (el_text el)))
      eqn:Hpush; [|destruct Hy].
    simpl in Hy. destruct Hy as [<- | []].
    unfold Playwright.isAvailable in Hav. simpl in Hav.
    apply andb_true_iff in Hav as [Hav _]. apply andb_true_iff in Hav as [_ Hdis].
    apply negb_true_iff, orb_false_iff in Hdis as [Hmark Hdis].
    rewrite Hmark, orb_false_r in Hpush.
    exists el. simpl. repeat split; auto.
    + now apply test_year.
    + now apply test_marker_false.
    + now rewrite <- Hsig.
  - intros el Hel Htag Htxt Hno. apply filter_In. split.
    + apply in_flat_map. exists el. split.
      * apply filter_In. auto.
      * unfold Playwright.scanYear. rewrite Htxt, Hsig, Hno. simpl. auto.
    + reflexivity.
Qed.

End YearFacts.

(** C5, as the sources have it.  From a native select, the eligible years
    are options without the disabled property and without a disabled
    class, and in the Puppeteer engine and the engine with one page per
    year also without the "não optante" marker; aria-disabled is not looked
    at there.  From the scan of the page, they are elements whose text is
    four digits, without the marker and without a disabled attribute, a
    class naming disabled or aria-disabled="true".  An option or element
    labelled 2023 with none of these is eligible; in the sequential engine
    an option of the select is so when its value is empty or four digits. *)
Theorem C5_eligible_years (p : year_page) :
  (forall options, year_select p = Some options ->
     ((forall y, In y (Puppeteer.getAvailableYears p) ->
         exists o, In o options /\ y = Puppeteer.selectOption o /\
                   ~ has_marker (trim (el_text o)) /\ select_signal o = false) /\
      (forall o, In o options -> trim (el_text o) = str "2023" -> select_signal o = false ->
         In (Puppeteer.selectOption o) (Puppeteer.getAvailableYears p))) /\
     ((forall y, In y (Parallel.getAvailableYears p) ->
         exists o, In o options /\ y = Parallel.selectOption o /\
                   ~ has_marker (trim (el_text o)) /\ select_signal o = false) /\
      (forall o, In o options -> trim (el_text o) = str "2023" -> select_signal o = false ->
         In (Parallel.selectOption o) (Parallel.getAvailableYears p))) /\
     ((forall y, In y (Playwright.available (Playwright.getAvailableYears p)) ->
         exists o, In o options /\ y = Playwright.selectOption o /\ select_signal o = false) /\
      (forall o, In o options -> trim (el_text o) = str "2023" -> select_signal o = false ->
         el_value o = [] \/ four_digits (el_value o) ->
         In (Playwright.selectOption o)
            (Playwright.available (Playwright.getAvailableYears p))))) /\
  (year_select p = None ->
     ((forall y, In y (Puppeteer.getAvailableYears p) ->
         exists el, In el (page_elements p) /\ tag_in Puppeteer.scanTags el = true /\
                    Puppeteer.y_text y = trim (el_text el) /\ four_digits (trim (el_text el)) /\
                    ~ has_marker (trim (el_text el)) /\ scan_signal_tokens el = false) /\
      (forall el, In el (page_elements p) -> tag_in Puppeteer.scanTags el = true ->
         trim (el_text el) = str "2023" -> scan_signal_tokens el = false ->
         In {| Puppeteer.y_value := str "2023"; Puppeteer.y_text := str "2023";
               Puppeteer.y_disabled := false |} (Puppeteer.getAvailableYears p))) /\
     ((forall y, In y (Parallel.getAvailableYears p) ->
         exists el, In el (page_elements p) /\ tag_in Parallel.scanTags el = true /\
                    Parallel.y_text y = trim (el_text el) /\ four_digits (trim (el_text el)) /\
                    ~ has_marker (trim (el_text el)) /\ scan_signal el = false) /\
      (forall el, In el (page_elements p) -> tag_in Parallel.scanTags el = true ->
         trim (el_text el) = str "2023" -> scan_signal el = false ->
         In {| Parallel.y_value := str "2023"; Parallel.y_text := str "2023";
               Parallel.y_disabled := false |} (Parallel.getAvailableYears p))) /\
     ((forall y, In y (Playwright.available (Playwright.getAvailableYears p)) ->
         exists el, In el (page_elements p) /\ tag_in Playwright.scanTags el = true /\
                    Playwright.y_text y = trim (el_text el) /\
                    four_digits (trim (el_text el)) /\
                    ~ has_marker (trim (el_text el)) /\ scan_signal el = false) /\
      (forall el, In el (page_elements p) -> tag_in Playwright.scanTags el = true ->
         trim (el_text el) = str "2023" -> scan_signal el = false ->
         In {| Playwright.y_value := str "2023"; Playwright.y_text := str "2023";
               Playwright.y_disabled := false |}
            (Playwright.available (Playwright.getAvailableYears p))))).
Proof.
  split.
  - intros options Hsel. split; [|split].
    + now apply puppeteer_select.
    + now apply parallel_select.
    + now apply playwright_select.
  - intros Hsel. split; [|split].
    + now apply puppeteer_scan.
    + now apply parallel_scan.
    + now apply playwright_scan.
Qed.

Lemma C5_eligible_years_witness :
  In (Puppeteer.selectOption Examples.opt2023) (Puppeteer.getAvailableYears Examples.selectPage) /\
  In {| Playwright.y_value := str "2023"; Playwright.y_text := str "2023";
        Playwright.y_disabled := false |}
     (Playwright.available (Playwright.getAvailableYears Examples.scanPage)).
Proof.
  destruct (C5_eligible_years Examples.selectPage) as [Hselect _].
  destruct (Hselect _ eq_refl) as [[_ Hin] _].
  destruct (C5_eligible_years Examples.scanPage) as [_ Hscan].
  destruct (Hscan eq_refl) as (_ & _ & _ & Hin').
  split.
  - apply Hin; [simpl; auto | reflexivity | reflexivity].
  - apply (Hin' (Examples.span_ (str "2023") None None None));
      [simpl; auto | reflexivity | reflexivity | reflexivity].
Defined.

(** C5 as stated fails on a native select: an option that carries only
    aria-disabled="true" is eligible in the three engines.  In the
    sequential engine an option labelled 2023, with no marker and no
    disabled signal, whose value is an index is not eligible. *)
Lemma C5_aria_disabled_option_is_eligible :
  aria_true Examples.opt2021 = true /\
  In (Puppeteer.selectOption Examples.opt2021) (Puppeteer.getAvailableYears Examples.selectPage) /\
  In (Parallel.selectOption Examples.opt2021) (Parallel.getAvailableYears Examples.selectPage) /\
  In (Playwright.selectOption Examples.opt2021)
     (Playwright.available (Playwright.getAvailableYears Examples.selectPage)) /\
  ~ In (Playwright.selectOption Examples.opt2023index)
       (Playwright.available (Playwright.getAvailableYears Examples.indexPage)).
Proof.
  split; [reflexivity|]. split; [|split; [|split]].
  - vm_compute. auto.
  - vm_compute. auto.
  - vm_compute. auto 6.
  - vm_compute. intros H. exact H.
Qed.

(* ===================================================================== *)
(** * The currency shape and the filter on tables                        *)
(* ===================================================================== *)

Lemma all_of_cons p c l : all_of p (c :: l) <-> p c = true /\ all_of p l.
Proof. unfold all_of. simpl. apply andb_true_iff. Qed.

Lemma M_star_class p i x j t :
  M (RStar (RChar p)) i x j t <-> exists l, x = l ++ t /\ j = i + length l /\ all_of p l.
Proof.
  split.
  - intros H. remember (RStar (RChar p)) as r eqn:Er.
    induction H; try discriminate.
    + exists []. simpl. rewrite Nat.add_0_r. repeat split.
    + injection Er as ->.
      apply M_char_inv in H as (c & -> & -> & Hc).
      destruct (IHM2 eq_refl) as (l & -> & -> & Hl).
      exists (c :: l). simpl. split; [reflexivity | split; [lia|]].
      apply all_of_cons. auto.
  - intros (l & -> & -> & Hl). revert i. induction l as [|c l IH]; intros i; simpl.
    + rewrite Nat.add_0_r. constructor.
    + apply all_of_cons in Hl as [Hc Hl].
      eapply MStarS.
      * now constructor.
      * simpl. lia.
      * replace (i + S (length l)) with (S i + length l) by lia. now apply IH.
Qed.

Lemma M_plus_class p i x j t :
  M (RPlus (RChar p)) i x j t <->
  exists l, l <> [] /\ x = l ++ t /\ j = i + length l /\ all_of p l.
Proof.
  unfold RPlus. split.
  - intros H. apply M_seq_inv in H as (j' & t' & H1 & H2).
    apply M_char_inv in H1 as (c & -> & -> & Hc).
    apply M_star_class in H2 as (l & -> & -> & Hl).
    exists (c :: l). simpl. split; [discriminate|]. split; [reflexivity | split; [lia|]].
    apply all_of_cons. auto.
  - intros (l & Hne & -> & -> & Hl). destruct l as [|c l]; [congruence|].
    apply all_of_cons in Hl as [Hc Hl]. simpl.
    econstructor.
    + now constructor.
    + apply M_star_class. exists l. split; [reflexivity | split; [lia | auto]].
Qed.

Lemma M_lit c i x j t : M (lit c) i x j t <-> x = c :: t /\ j = S i.
Proof.
  unfold lit, is_char. split.
  - intros H. apply M_char_inv in H as (c' & -> & -> & Hc).
    apply N.eqb_eq in Hc. subst. auto.
  - intros [-> ->]. constructor. apply N.eqb_refl.
Qed.

Lemma M_digit i x j t : M digit i x j t <-> exists d, x = d :: t /\ j = S i /\ is_digit d = true.
Proof.
  unfold digit. split.
  - apply M_char_inv.
  - intros (d & -> & -> & Hd). now constructor.
Qed.

Lemma M_numeric i x j t :
  M numericRegex i x j t <-> exists m, x = m ++ t /\ j = i + length m /\ numeric_token m.
Proof.
  unfold numericRegex, digit_or_dot, numeric_token. split.
  - intros H. apply M_seq_inv in H as (j1 & t1 & H1 & H).
    apply M_plus_class in H1 as (ds & Hne & -> & -> & Hds).
    apply M_seq_inv in H as (j2 & t2 & H2 & H). apply M_lit in H2 as [-> ->].
    apply M_seq_inv in H as (j3 & t3 & H3 & H). apply M_digit in H3 as (d1 & -> & -> & Hd1).
    apply M_digit in H as (d2 & -> & -> & Hd2).
    exists (ds ++ [cComma; d1; d2]). rewrite <- app_assoc. simpl.
    split; [reflexivity|]. split; [rewrite length_app; simpl; lia|].
    exists ds, d1, d2. auto.
  - intros (m & -> & -> & ds & d1 & d2 & -> & Hne & Hds & Hd1 & Hd2).
    rewrite <- app_assoc. simpl.
    econstructor.
    + apply M_plus_class. exists ds. split; [exact Hne | split; [reflexivity | split; [reflexivity | exact Hds]]].
    + econstructor; [apply M_lit; split; reflexivity|].
      econstructor; [apply M_digit; exists d1; split; [reflexivity | split; [reflexivity | exact Hd1]]|].
      apply M_digit. exists d2. split; [reflexivity|]. split; [|exact Hd2].
      rewrite length_app. simpl. lia.
Qed.

Lemma M_currency i x j t :
  M currencyRegex i x j t <-> exists m, x = m ++ t /\ j = i + length m /\ currency_shaped m.
Proof.
  unfold currencyRegex. fold numericRegex. unfold currency_shaped, currency_marker. split.
  - intros H. apply M_alt_inv in H as [H|H].
    + apply M_seq_inv in H as (j1 & t1 & H1 & H). apply M_lit in H1 as [-> ->].
      apply M_seq_inv in H as (j2 & t2 & H2 & H). apply M_lit in H2 as [-> ->].
      apply M_seq_inv in H as (j3 & t3 & H3 & H).
      apply M_star_class in H3 as (ws & -> & -> & Hws).
      apply M_numeric in H as (m & -> & -> & Hm).
      exists ([cR; cDollar] ++ ws ++ m). split; [|split].
      * simpl. now rewrite <- app_assoc.
      * simpl. rewrite length_app. lia.
      * right. exists ([cR; cDollar] ++ ws), m. split; [now rewrite <- app_assoc|].
        split; [exists ws; auto | exact Hm].
    + apply M_numeric in H as (m & -> & -> & Hm). exists m. auto.
  - intros (m & -> & -> & [Hm | (mk & tok & -> & (ws & -> & Hws) & Htok)]).
    + apply MAltR. apply M_numeric. exists m. auto.
    + apply MAltL. rewrite <- !app_assoc. simpl.
      econstructor; [apply M_lit; split; reflexivity|].
      econstructor; [apply M_lit; split; reflexivity|].
      econstructor.
      * apply M_star_class. exists ws. split; [reflexivity | split; [reflexivity | exact Hws]].
      * apply M_numeric. exists tok. split; [reflexivity | split; [|exact Htok]].
        rewrite !length_app. simpl. lia.
Qed.

Lemma test_g_zero r s : fst (test_g r 0 s) = test r s.
Proof.
  unfold test_g, test. simpl. destruct (search r 0 s) as [[a e]|]; reflexivity.
Qed.

Lemma test_currency_shape s : test currencyRegex s = true <-> has_piece currency_shaped s.
Proof.
  rewrite test_true. unfold matches_within, has_piece. split.
  - intros (a & b & j & t & -> & H). apply M_currency in H as (m & -> & _ & Hm).
    exists a, m, t. auto.
  - intros (a & m & b & -> & Hm). exists a, (m ++ b), (0 + length a + length m), b.
    split; auto. apply M_currency. exists m. auto.
Qed.

Lemma test_currency_zero s :
  fst (test_currency s 0) = true <-> has_piece currency_shaped s.
Proof. unfold test_currency. rewrite test_g_zero. apply test_currency_shape. Qed.

Lemma not_true_iff b (P : Prop) : (b = true <-> P) -> (negb b = true <-> ~ P).
Proof.
  intros H. destruct b; simpl; split; try congruence.
  - intros HP. exfalso. apply HP. now apply H.
  - intros _ HP. apply H in HP. discriminate.
Qed.

Lemma includes_false s sub : negb (includes s sub) = true <-> ~ occurs sub s.
Proof. apply not_true_iff, includes_spec. Qed.

(** C4, as the sources have it, for a regular expression object whose
    lastIndex is 0, as it is at the first container of a call: the
    sequential engine skips a container exactly when its text holds
    neither a currency-shaped piece nor the digits of the year; the
    Puppeteer engine and the engine with one page per year skip a table
    exactly when its text holds no currency-shaped piece, whether or not it
    holds the year.  A skipped container or table yields no record. *)
Theorem C4_container_filter (year : jsstring) :
  (forall c, fst (Playwright.skipContainer year c 0) = true <->
             ~ has_piece currency_shaped (Playwright.containerText c) /\
             ~ occurs year (Playwright.containerText c)) /\
  (forall t, fst (Puppeteer.skipTable t 0) = true <-> ~ has_piece currency_shaped (table_text t)) /\
  (forall t, fst (Parallel.skipTable t 0) = true <-> ~ has_piece currency_shaped (table_text t)) /\
  (forall toLowerCase c li, fst (Playwright.skipContainer year c li) = true ->
             fst (Playwright.extractContainer toLowerCase year c li) = []) /\
  (forall toLowerCase t li, fst (Puppeteer.skipTable t li) = true ->
             fst (Puppeteer.extractTable toLowerCase year t li) = []) /\
  (forall toLowerCase t li, fst (Parallel.skipTable t li) = true ->
             fst (Parallel.extractTable toLowerCase year t li) = []).
Proof.
  split; [|split; [|split; [|split; [|split]]]].
  - intros c. unfold Playwright.skipContainer, bind, ret.
    pose proof (test_currency_zero (Playwright.containerText c)) as Hc.
    destruct (test_currency (Playwright.containerText c) 0) as [money li]. simpl in *.
    rewrite andb_true_iff, includes_false. apply not_true_iff in Hc. now rewrite Hc.
  - intros t. unfold Puppeteer.skipTable, bind, ret.
    pose proof (test_currency_zero (table_text t)) as Hc.
    destruct (test_currency (table_text t) 0) as [money li]. simpl in *.
    now apply not_true_iff.
  - intros t. unfold Parallel.skipTable, bind, ret.
    pose proof (test_currency_zero (table_text t)) as Hc.
    destruct (test_currency (table_text t) 0) as [money li]. simpl in *.
    now apply not_true_iff.
  - intros lower c li. unfold Playwright.extractContainer, bind.
    destruct (Playwright.skipContainer year c li) as [skip li']. simpl.
    intros ->. reflexivity.
  - intros lower t li. unfold Puppeteer.extractTable, bind.
    destruct (Puppeteer.skipTable t li) as [skip li']. simpl.
    intros ->. reflexivity.
  - intros lower t li. unfold Parallel.extractTable, bind.
    destruct (Parallel.skipTable t li) as [skip li']. simpl.
    intros ->. reflexivity.
Qed.

Lemma C4_container_filter_witness :
  fst (Playwright.extractContainer Examples.toLowerCase (str "2023")
         (CTable Examples.yearOnlyTable) 0) = [].
Proof.
  destruct (C4_container_filter (str "2023")) as (_ & _ & _ & Hskip & _).
  apply Hskip. reflexivity.
Defined.

(** C4 as stated fails in the Puppeteer engine and in the engine with one
    page per year: a table whose text holds the digits of the year and no
    amount is skipped, and nothing is extracted from it. *)
Lemma C4_table_with_year_only_is_skipped :
  occurs (str "2024") (table_text Examples.yearOnlyTable) /\
  fst (Puppeteer.skipTable Examples.yearOnlyTable 0) = true /\
  fst (Parallel.skipTable Examples.yearOnlyTable 0) = true /\
  Puppeteer.extractDebits Examples.toLowerCase (str "2024") [Examples.yearOnlyTable] = [] /\
  Parallel.extractDebits Examples.toLowerCase (str "2024") [Examples.yearOnlyTable] = [].
Proof.
  split; [apply includes_spec; reflexivity|].
  repeat split; reflexivity.
Qed.

(* ===================================================================== *)
(** * The loose scan of a row                                            *)
(* ===================================================================== *)

Lemma M_amount i x j t :
  M amountRegex i x j t <-> exists m, x = m ++ t /\ j = i + length m /\ amount_shaped m.
Proof.
  unfold amountRegex, amount_shaped. fold digit. split.
  - intros H. apply M_seq_inv in H as (j1 & t1 & H1 & H).
    apply M_plus_class in H1 as (ds & Hne & -> & -> & Hds).
    apply M_seq_inv in H as (j2 & t2 & H2 & H).
    apply M_char_inv in H2 as (sep & -> & -> & Hsep).
    apply M_seq_inv in H as (j3 & t3 & H3 & H). apply M_digit in H3 as (d1 & -> & -> & Hd1).
    apply M_digit in H as (d2 & -> & -> & Hd2).
    exists (ds ++ [sep; d1; d2]). rewrite <- app_assoc. simpl.
    split; [reflexivity|]. split; [rewrite length_app; simpl; lia|].
    exists ds, sep, d1, d2. repeat split; auto.
    apply orb_true_iff in Hsep as [Hsep|Hsep]; apply N.eqb_eq in Hsep; auto.
  - intros (m & -> & -> & ds & sep & d1 & d2 & -> & Hne & Hds & Hsep & Hd1 & Hd2).
    rewrite <- app_assoc. simpl.
    econstructor.
    + apply M_plus_class. exists ds.
      split; [exact Hne | split; [reflexivity | split; [reflexivity | exact Hds]]].
    + econstructor.
      * constructor. unfold is_char. destruct Hsep as [-> | ->]; reflexivity.
      * econstructor; [apply M_digit; exists d1; split; [reflexivity | split; [reflexivity | exact Hd1]]|].
        apply M_digit. exists d2. split; [reflexivity|]. split; [|exact Hd2].
        rewrite length_app. simpl. lia.
Qed.

Lemma test_amount_shape s : test amountRegex s = true <-> has_piece amount_shaped s.
Proof.
  rewrite test_true. unfold matches_within, has_piece. split.
  - intros (a & b & j & t & -> & H). apply M_amount in H as (m & -> & _ & Hm).
    exists a, m, t. auto.
  - intros (a & m & b & -> & Hm). exists a, (m ++ b), (0 + length a + length m), b.
    split; auto. apply M_amount. exists m. auto.
Qed.

Lemma digit_not_stripped d : is_digit d = true -> strip_class d = false.
Proof.
  unfold is_digit. intros H. apply andb_true_iff in H as [H1 H2].
  apply N.leb_le in H1, H2.
  assert (Hd : (d = 48 \/ d = 49 \/ d = 50 \/ d = 51 \/ d = 52 \/
                d = 53 \/ d = 54 \/ d = 55 \/ d = 56 \/ d = 57)%N) by lia.
  repeat (destruct Hd as [-> | Hd]; [reflexivity|]). subst d. reflexivity.
Qed.

Lemma amount_shaped_digit m : amount_shaped m -> exists d, In d m /\ is_digit d = true.
Proof.
  intros (ds & sep & d1 & d2 & -> & _ & _ & _ & Hd1 & _).
  exists d1. split; auto. apply in_or_app. right. simpl. auto.
Qed.

Lemma piece_digit p : has_piece amount_shaped p -> exists d, In d p /\ is_digit d = true.
Proof.
  intros (a & m & b & -> & Hm). apply amount_shaped_digit in Hm as (d & Hd & Hdig).
  exists d. split; auto. apply in_or_app. right. apply in_or_app. auto.
Qed.

Lemma stripped_truthy p : has_piece amount_shaped p -> truthy_str (stripped p) = true.
Proof.
  intros H. apply piece_digit in H as (d & Hd & Hdig).
  assert (Hin : In d (stripped p)).
  { apply filter_In. split; auto. now rewrite digit_not_stripped. }
  destruct (stripped p); [destruct Hin | reflexivity].
Qed.

Lemma replace_first_truthy c1 c2 s :
  truthy_str s = true -> truthy_str (replace_first [c1] [c2] s) = true.
Proof.
  destruct s as [|c s]; [discriminate|]. intros _. simpl.
  destruct ((c1 =? c)%N && true); reflexivity.
Qed.

Lemma strip_is_stripped p : replace_g stripRegex [] p = stripped p.
Proof. unfold stripRegex. now rewrite remove_class. Qed.

Lemma find_none_app (f : jsstring -> bool) l1 l2 :
  (forall q, In q l1 -> f q = false) -> find f (l1 ++ l2) = find f l2.
Proof.
  induction l1 as [|x l1 IH]; intros H; simpl; auto.
  rewrite (H x) by (simpl; auto). apply IH. intros q Hq. apply H. simpl. auto.
Qed.

Lemma amountPart_last pre p post :
  has_piece amount_shaped p -> (forall q, In q post -> ~ has_piece amount_shaped q) ->
  amountPart (pre ++ p :: post) = Some p.
Proof.
  intros Hp Hpost. unfold amountPart.
  rewrite rev_app_distr. simpl. rewrite <- app_assoc. simpl.
  rewrite find_none_app.
  - simpl. apply test_amount_shape in Hp. now rewrite Hp.
  - intros q Hq. apply in_rev in Hq. specialize (Hpost q Hq).
    destruct (test amountRegex q) eqn:E; auto. apply test_amount_shape in E. contradiction.
Qed.

Lemma amountPart_none parts :
  (forall q, In q parts -> ~ has_piece amount_shaped q) -> amountPart parts = None.
Proof.
  intros H. unfold amountPart.
  rewrite <- (app_nil_r (rev parts)). rewrite find_none_app; [reflexivity|].
  intros q Hq. apply in_rev in Hq. specialize (H q Hq).
  destruct (test amountRegex q) eqn:E; auto. apply test_amount_shape in E. contradiction.
Qed.

Lemma piece_truthy p : has_piece amount_shaped p -> truthy_str p = true.
Proof.
  intros H. apply piece_digit in H as (d & Hd & _). destruct p; [destruct Hd | reflexivity].
Qed.

(** C1, as the sources have it.  A record of the loose scan holds the row
    text, its parts and the amount; a row that names the year always gets
    one, and so does a row with a currency-shaped piece when the lastIndex
    of the regular expression object is 0.  The amount is read from the
    last part that holds digits, a dot or a comma, and two digits: R, $,
    white space and dots are taken out, the first comma becomes a dot and
    the result is read as a number.  "R$ 1.234,56" gives 1234.56 and
    "56,00" gives 56.  When no part holds digits, a dot or a comma, and two
    digits, the amount is null. *)
Theorem C1_loose_row_amount (year rowText : jsstring) (li : nat) :
  (forall r, In r (fst (looseRow year rowText li)) ->
     r = VObj [(str "raw", VStr rowText); (str "parts", strs (rowParts rowText));
               (str "amount", rowAmount (rowParts rowText))]) /\
  (rowText <> [] -> occurs year rowText ->
     fst (looseRow year rowText li) = [looseRecord rowText]) /\
  (rowText <> [] -> has_piece currency_shaped rowText ->
     fst (looseRow year rowText 0) = [looseRecord rowText]) /\
  (forall pre p post, rowParts rowText = pre ++ p :: post ->
     has_piece amount_shaped p ->
     (forall q, In q post -> ~ has_piece amount_shaped q) ->
     rowAmount (rowParts rowText)
     = VNum (Number (replace_first (str ",") (str ".") (stripped p)))) /\
  ((forall q, In q (rowParts rowText) -> ~ has_piece amount_shaped q) ->
     rowAmount (rowParts rowText) = VNull) /\
  (exists q, rowAmount (rowParts (str "R$ 1.234,56")) = VNum (Fin q) /\ Qeq q (123456 # 100)) /\
  (exists q, rowAmount (rowParts (str "56,00")) = VNum (Fin q) /\ Qeq q (56 # 1)).
Proof.
  split; [|split; [|split; [|split; [|split; [|split]]]]].
  - intros r. unfold looseRow, orM, bind, ret.
    destruct (truthy_str rowText); [|simpl; intros []].
    destruct (includes rowText year).
    + simpl. intros [<- | []]. reflexivity.
    + destruct (test_currency rowText li) as [[|] li']; simpl.
      * intros [<- | []]. reflexivity.
      * intros [].
  - intros Hne Hyear. apply includes_spec in Hyear.
    unfold looseRow. destruct rowText; [congruence|].
    unfold orM, bind, ret. simpl truthy_str. cbv iota. now rewrite Hyear.
  - intros Hne Hmoney. apply test_currency_zero in Hmoney.
    unfold looseRow. destruct rowText; [congruence|].
    unfold orM, bind, ret. cbn [truthy_str].
    destruct (includes (n :: rowText) year); [reflexivity|].
    cbv beta iota.
    destruct (test_currency (n :: rowText) 0) as [money li']. simpl in Hmoney.
    now rewrite Hmoney.
  - intros pre p post Hparts Hp Hpost. unfold rowAmount.
    rewrite Hparts, (@amountPart_last pre p post Hp Hpost), (@piece_truthy p Hp), strip_is_stripped.
    change (str ",") with [cComma]. change (str ".") with [cDot].
    now rewrite replace_first_truthy by now apply stripped_truthy.
  - intros Hnone. unfold rowAmount. now rewrite amountPart_none.
  - eexists. split; [vm_compute; reflexivity | reflexivity].
  - eexists. split; [vm_compute; reflexivity | reflexivity].
Qed.

Lemma C1_loose_row_amount_witness :
  fst (looseRow (str "2024") (str "2024  R$ 1.234,56") 7)
  = [looseRecord (str "2024  R$ 1.234,56")].
Proof.
  destruct (C1_loose_row_amount (str "2024") (str "2024  R$ 1.234,56") 7) as (_ & Hyear & _).
  apply Hyear.
  - discriminate.
  - apply includes_spec. reflexivity.
Defined.

Lemma comma_fraction_has_comma m : comma_fraction m -> In cComma m.
Proof.
  intros (a & d1 & d2 & b & -> & _). apply in_or_app. right. simpl. auto.
Qed.

(** C1 as stated fails on a dot fraction: in the row "2024  12.50" no part
    has a comma, and the amount is 1250, not null. *)
Lemma C1_dot_fraction_amount_not_null :
  rowParts (str "2024  12.50") = [str "2024"; str "12.50"] /\
  (forall q, In q (rowParts (str "2024  12.50")) -> ~ comma_fraction q) /\
  fst (looseRow (str "2024") (str "2024  12.50") 0)
  = [VObj [(str "raw", VStr (str "2024  12.50"));
           (str "parts", strs [str "2024"; str "12.50"]);
           (str "amount", VNum (Fin (1250 # 1)))]] /\
  Puppeteer.extractDebits Examples.toLowerCase (str "2024") [Examples.looseTable]
  = [VObj [(str "raw", VStr (str "2024  12.50"));
           (str "parts", strs [str "2024"; str "12.50"]);
           (str "amount", VNum (Fin (1250 # 1)))]] /\
  Parallel.extractDebits Examples.toLowerCase (str "2024") [Examples.looseTable]
  = Puppeteer.extractDebits Examples.toLowerCase (str "2024") [Examples.looseTable].
Proof.
  split; [vm_compute; reflexivity|]. split; [|split; [|split]].
  - intros q Hq Hc. apply comma_fraction_has_comma in Hc.
    vm_compute in Hq. destruct Hq as [<- | [<- | []]]; vm_compute in Hc;
      repeat (destruct Hc as [Hc | Hc]; [discriminate Hc|]); exact Hc.
  - vm_compute. reflexivity.
  - vm_compute. reflexivity.
  - vm_compute. reflexivity.
Qed.

(* ===================================================================== *)
(** * Records built column by column                                     *)
(* ===================================================================== *)

Lemma obj_get_set_same k v o : obj_get k (obj_set k v o) = Some v.
Proof.
  induction o as [|[k0 v0] o IH]; simpl.
  - now rewrite streqb_refl.
  - destruct (streqb k0 k) eqn:E; simpl; now rewrite E.
Qed.

Lemma obj_get_set_other k k' v o : k' <> k -> obj_get k' (obj_set k v o) = obj_get k' o.
Proof.
  intros Hne. induction o as [|[k0 v0] o IH]; simpl.
  - destruct (streqb k k') eqn:E; auto. apply streqb_eq in E. congruence.
  - destruct (streqb k0 k) eqn:E; simpl.
    + apply streqb_eq in E. subst k0.
      destruct (streqb k k') eqn:E'; auto. apply streqb_eq in E'. congruence.
    + now rewrite IH.
Qed.

(** Setting a property keeps the properties there were, in their order. *)
Lemma obj_keys_set k v o : exists extra, obj_keys (obj_set k v o) = obj_keys o ++ extra.
Proof.
  unfold obj_keys. induction o as [|[k0 v0] o [extra IH]]; simpl.
  - now exists [k].
  - destruct (streqb k0 k); simpl.
    + exists []. now rewrite app_nil_r.
    + exists extra. now rewrite IH.
Qed.

Lemma zipRow_untouched x keys : forall k0 values o,
  (forall k key, nth_error keys k = Some key -> keyOr key (k0 + k) <> x) ->
  obj_get x (zipRow keys k0 values o) = obj_get x o.
Proof.
  induction keys as [|key keys IH]; intros k0 values o H; simpl; auto.
  rewrite IH.
  - apply obj_get_set_other. intros E. apply (H 0 key eq_refl).
    now rewrite Nat.add_0_r.
  - intros k key' Hk. replace (S k0 + k) with (k0 + S k) by lia. now apply H.
Qed.

Lemma zipRow_get keys : forall k0 values o k key,
  nth_error keys k = Some key ->
  (forall k' key', k < k' -> nth_error keys k' = Some key' ->
     keyOr key' (k0 + k') <> keyOr key (k0 + k)) ->
  obj_get (keyOr key (k0 + k)) (zipRow keys k0 values o)
  = Some (valueOrNull (nth_error values (k0 + k))).
Proof.
  induction keys as [|key0 keys IH]; intros k0 values o k key Hk Hlater.
  - destruct k; discriminate.
  - destruct k as [|k]; simpl in Hk.
    + injection Hk as ->. simpl. rewrite Nat.add_0_r in *.
      rewrite zipRow_untouched.
      * apply obj_get_set_same.
      * intros k key' Hk'. replace (S k0 + k) with (k0 + S k) by lia.
        apply Hlater; [lia | exact Hk'].
    + simpl. replace (k0 + S k) with (S k0 + k) by lia.
      apply IH; auto.
      intros k' key' Hlt Hk'.
      replace (S k0 + k') with (k0 + S k') by lia.
      replace (S k0 + k) with (k0 + S k) by lia.
      apply Hlater; [lia | exact Hk'].
Qed.

Lemma mapCells_untouched x cells headers : forall n k0 o,
  (forall k, k0 <= k < k0 + n -> columnKey headers k <> x) ->
  obj_get x (Playwright.mapCells n k0 cells headers o) = obj_get x o.
Proof.
  induction n as [|n IH]; intros k0 o H; simpl; auto.
  rewrite IH.
  - apply obj_get_set_other. intros E. apply (H k0); [lia | now rewrite E].
  - intros k Hk. apply H. lia.
Qed.

Lemma mapCells_get cells headers : forall n k0 o k,
  k0 <= k < k0 + n ->
  (forall k', k < k' < k0 + n -> columnKey headers k' <> columnKey headers k) ->
  obj_get (columnKey headers k) (Playwright.mapCells n k0 cells headers o)
  = Some (valueOrNull (Some (trim (or_empty (nth_error cells k))))).
Proof.
  induction n as [|n IH]; intros k0 o k Hk Hlater; [lia|].
  simpl. destruct (Nat.eq_dec k k0) as [-> | Hne].
  - rewrite mapCells_untouched.
    + apply obj_get_set_same.
    + intros k Hk'. apply Hlater. lia.
  - apply IH; [lia|]. intros k' Hk'. apply Hlater. lia.
Qed.

Lemma mapCells_keys cells headers : forall n k0 o,
  exists extra, obj_keys (Playwright.mapCells n k0 cells headers o) = obj_keys o ++ extra.
Proof.
  induction n as [|n IH]; intros k0 o; cbn [Playwright.mapCells].
  - exists []. now rewrite app_nil_r.
  - destruct (IH (S k0) (obj_set (Playwright.mappedKey
                 (keyOr (or_empty (nth_error headers k0)) k0))
                 (valueOrNull (Some (trim (or_empty (nth_error cells k0))))) o)) as [e1 H1].
    destruct (obj_keys_set (Playwright.mappedKey (keyOr (or_empty (nth_error headers k0)) k0))
                 (valueOrNull (Some (trim (or_empty (nth_error cells k0))))) o) as [e2 H2].
    exists (e2 ++ e1). now rewrite H1, H2, app_assoc.
Qed.

(** ** What [forM] collects *)

Lemma forM_In {A B} (f : A -> RE (list B)) : forall l li x,
  In x (fst (forM f l li)) -> exists a li', In a l /\ In x (fst (f a li')).
Proof.
  induction l as [|a l IH]; intros li x; simpl.
  - intros [].
  - unfold bind, ret. destruct (f a li) as [xs li1] eqn:Ea.
    destruct (forM f l li1) as [ys li2] eqn:El. simpl.
    intros H. apply in_app_or in H as [H|H].
    + exists a, li. split; auto. now rewrite Ea.
    + destruct (IH li1 x) as (a' & li' & Ha' & Hx).
      * now rewrite El.
      * exists a', li'. auto.
Qed.

Lemma mapKey_id expected h : mapKey expected h = h.
Proof.
  unfold mapKey. destruct (indexOf expected h) as [idx|] eqn:E; auto.
  revert idx E. induction expected as [|y l IH]; intros idx E; simpl in *.
  - discriminate.
  - destruct (streqb y h) eqn:Ey.
    + injection E as <-. now apply streqb_eq.
    + destruct (indexOf l h) as [i|]; [|discriminate].
      injection E as <-. now apply IH.
Qed.

Lemma map_mapKey_id expected hs : map (mapKey expected) hs = hs.
Proof. induction hs as [|h hs IH]; simpl; auto. now rewrite mapKey_id, IH. Qed.

Lemma hasExpected_nonempty hs : existsb (arr_includes expectedHeaders) hs = true -> (0 <? length hs) = true.
Proof. destruct hs; [discriminate | reflexivity]. Qed.

(* ===================================================================== *)
(** * Header mapping and the fallback                                    *)
(* ===================================================================== *)

Lemma looseRow_In year rowText li r :
  In r (fst (looseRow year rowText li)) -> r = looseRecord rowText.
Proof.
  unfold looseRow, orM, bind, ret.
  destruct (truthy_str rowText); [|simpl; intros []].
  destruct (includes rowText year).
  - simpl. intros [<- | []]. reflexivity.
  - destruct (test_currency rowText li) as [[|] li']; simpl.
    + intros [<- | []]. reflexivity.
    + intros [].
Qed.

Section HeaderFacts.
Variable toLowerCase : jsstring -> jsstring.
Variable year : jsstring.

(** The engine with one page per year. *)
Lemma parallel_header_table t li :
  fst (Parallel.skipTable t li) = false ->
  Parallel.hasExpected (Parallel.tableHeaders toLowerCase t) = true ->
  fst (Parallel.extractTable toLowerCase year t li)
  = map (Parallel.headerRecord (Parallel.tableHeaders toLowerCase t)) (skipn 1 (table_rows t)).
Proof.
  intros Hskip Hexp. unfold Parallel.extractTable, bind.
  destruct (Parallel.skipTable t li) as [skip li']. simpl in Hskip. subst skip.
  rewrite Hexp. unfold Parallel.hasExpected in Hexp.
  rewrite (hasExpected_nonempty _ Hexp). simpl. now rewrite map_mapKey_id.
Qed.

Lemma parallel_header_column headers r k h :
  nth_error headers k = Some h ->
  (forall k' h', k < k' -> nth_error headers k' = Some h' -> keyOr h' k' <> keyOr h k) ->
  exists fields, Parallel.headerRecord headers r = VObj fields /\
    obj_get (keyOr h k) fields = Some (valueOrNull (nth_error (map trim (row_cells r)) k)).
Proof.
  intros Hk Hlater. eexists. split; [reflexivity|].
  apply (@zipRow_get headers 0 (map trim (row_cells r)) [] k h Hk Hlater).
Qed.

Lemma parallel_fallback t li rec :
  Parallel.hasExpected (Parallel.tableHeaders toLowerCase t) = false ->
  In rec (fst (Parallel.extractTable toLowerCase year t li)) ->
  exists r, In r (table_rows t) /\ rec = looseRecord (trim (row_text r)).
Proof.
  intros Hexp. unfold Parallel.extractTable, bind.
  destruct (Parallel.skipTable t li) as [[|] li']; [simpl; intros []|].
  rewrite Hexp. simpl. intros H.
  apply forM_In in H as (r & li'' & Hr & H). apply looseRow_In in H. eauto.
Qed.

(** The Puppeteer engine. *)
Lemma puppeteer_header_table t li :
  fst (Puppeteer.skipTable t li) = false ->
  Puppeteer.hasExpected (Puppeteer.tableHeaders toLowerCase t) = true ->
  fst (Puppeteer.extractTable toLowerCase year t li)
  = map (Puppeteer.headerRecord (Puppeteer.tableHeaders toLowerCase t)) (skipn 1 (table_rows t)).
Proof.
  intros Hskip Hexp. unfold Puppeteer.extractTable, bind.
  destruct (Puppeteer.skipTable t li) as [skip li']. simpl in Hskip. subst skip.
  rewrite Hexp. unfold Puppeteer.hasExpected in Hexp.
  rewrite (hasExpected_nonempty _ Hexp). simpl. now rewrite map_mapKey_id.
Qed.

Lemma puppeteer_header_column headers r k h :
  row_elems r = row_cells r ->
  nth_error headers k = Some h ->
  (forall k' h', k < k' -> nth_error headers k' = Some h' -> keyOr h' k' <> keyOr h k) ->
  exists fields, Puppeteer.headerRecord headers r = VObj fields /\
    obj_get (keyOr h k) fields = Some (valueOrNull (nth_error (map trim (row_cells r)) k)).
Proof.
  intros Hplain Hk Hlater. eexists. split; [reflexivity|]. rewrite Hplain.
  apply (@zipRow_get headers 0 (map trim (row_cells r)) [] k h Hk Hlater).
Qed.

Lemma puppeteer_fallback t li rec :
  Puppeteer.hasExpected (Puppeteer.tableHeaders toLowerCase t) = false ->
  In rec (fst (Puppeteer.extractTable toLowerCase year t li)) ->
  exists r, In r (table_rows t) /\ rec = looseRecord (trim (row_text r)).
Proof.
  intros Hexp. unfold Puppeteer.extractTable, bind.
  destruct (Puppeteer.skipTable t li) as [[|] li']; [simpl; intros []|].
  rewrite Hexp. simpl. intros H.
  apply forM_In in H as (r & li'' & Hr & H). apply looseRow_In in H. eauto.
Qed.

(** The sequential engine. *)
Lemma playwright_row_In headers r li rec :
  In rec (fst (Playwright.tableRow year headers r li)) ->
  exists currencies, rec = Playwright.tableRecord year headers r currencies.
Proof.
  unfold Playwright.tableRow.
  destruct (truthy_str (trim (row_text r))); [|simpl; intros []].
  unfold bind at 1.
  destruct (orM (test_currency (row_text r))
                (orM (ret (includes (row_text r) year))
                     (Playwright.someM test_currency (row_cells r))) li) as [[|] li'].
  - unfold bind, ret, Playwright.match_currency. simpl. intros [<- | []]. eauto.
  - simpl. intros [].
Qed.

Lemma playwright_table_records t li rec :
  In rec (fst (Playwright.extractTable toLowerCase year t li)) ->
  exists r currencies,
    In r (skipn (snd (Playwright.headersOf toLowerCase (table_rows t))) (table_rows t)) /\
    rec = Playwright.tableRecord year (fst (Playwright.headersOf toLowerCase (table_rows t)))
                                 r currencies.
Proof.
  unfold Playwright.extractTable, bind.
  destruct (Playwright.skipTable year t li) as [[|] li']; [simpl; intros []|].
  destruct (table_rows t) as [|r0 rows] eqn:Erows; [simpl; intros []|].
  destruct (Playwright.headersOf toLowerCase (r0 :: rows)) as [headers startRow]. simpl fst. simpl snd.
  intros H. apply forM_In in H as (r & li'' & Hr & H).
  apply playwright_row_In in H as [currencies ->]. eauto.
Qed.

Lemma playwright_record_column headers r currencies k :
  k < Nat.max (length (row_cells r)) (length headers) ->
  (forall k', k < k' < Nat.max (length (row_cells r)) (length headers) ->
     columnKey headers k' <> columnKey headers k) ->
  columnKey headers k <> str "currencies" -> columnKey headers k <> str "raw" ->
  exists fields, Playwright.tableRecord year headers r currencies = VObj fields /\
    obj_get (columnKey headers k) fields
    = Some (valueOrNull (Some (trim (or_empty (nth_error (row_cells r) k))))).
Proof.
  intros Hk Hlater Hcur Hraw. eexists. split; [reflexivity|].
  rewrite obj_get_set_other by auto. rewrite obj_get_set_other by auto.
  apply mapCells_get; [lia|]. intros k' Hk'. apply Hlater. lia.
Qed.

End HeaderFacts.

Lemma genericHeaders_nth n : forall i0 k,
  nth_error (Playwright.genericHeaders n i0) k
  = if k <? n then Some (str "col_" ++ nat_to_str (i0 + k)) else None.
Proof.
  induction n as [|n IH]; intros i0 k.
  - destruct k; reflexivity.
  - destruct k as [|k].
    + cbn [Playwright.genericHeaders nth_error]. now rewrite Nat.add_0_r.
    + cbn [Playwright.genericHeaders nth_error]. rewrite IH.
      replace (S i0 + k) with (i0 + S k) by lia. reflexivity.
Qed.

Lemma generic_key n k :
  keyOr (or_empty (nth_error (Playwright.genericHeaders n 0) k)) k = str "col_" ++ nat_to_str k.
Proof.
  rewrite genericHeaders_nth. destruct (k <? n); reflexivity.
Qed.

Lemma mappedKey_cases hk :
  Playwright.mappedKey hk = hk \/ In (Playwright.mappedKey hk) Playwright.expectedHeaders.
Proof.
  unfold Playwright.mappedKey.
  destruct (find _ Playwright.expectedHeaders) as [expected|] eqn:E; auto.
  apply find_some in E as [Hin _]. unfold or_str.
  destruct (truthy_str expected); auto.
Qed.

Lemma vocabulary_not_fallback_key x :
  In x Playwright.expectedHeaders -> x <> str "amount" /\ x <> str "parts".
Proof.
  intros H. vm_compute in H.
  repeat (destruct H as [<- | H]; [split; discriminate|]). destruct H.
Qed.

Lemma generic_column_key n k :
  columnKey (Playwright.genericHeaders n 0) k <> str "amount" /\
  columnKey (Playwright.genericHeaders n 0) k <> str "parts".
Proof.
  unfold columnKey. rewrite generic_key.
  destruct (mappedKey_cases (str "col_" ++ nat_to_str k)) as [-> | Hin].
  - split; discriminate.
  - now apply vocabulary_not_fallback_key.
Qed.

Lemma tableRecord_shape year headers r currencies :
  exists fields, Playwright.tableRecord year headers r currencies = VObj fields /\
    (exists extra, obj_keys fields = [str "year"; str "source"] ++ extra) /\
    obj_get (str "raw") fields = Some (VStr (row_text r)) /\
    obj_get (str "currencies") fields = Some (strs currencies).
Proof.
  eexists. split; [reflexivity|]. split; [|split].
  - destruct (mapCells_keys (row_cells r) headers
                (Nat.max (length (row_cells r)) (length headers)) 0
                [(str "year", VStr year); (str "source", VStr (str "table"))]) as [e1 H1].
    match goal with
    | |- exists extra, obj_keys (obj_set ?k1 ?v1 (obj_set ?k2 ?v2 ?o)) = _ =>
      destruct (obj_keys_set k2 v2 o) as [e2 H2];
      destruct (obj_keys_set k1 v1 (obj_set k2 v2 o)) as [e3 H3]
    end.
    exists (e1 ++ e2 ++ e3). rewrite H3, H2, H1. simpl. now rewrite <- !app_assoc.
  - apply obj_get_set_same.
  - rewrite obj_get_set_other by discriminate. apply obj_get_set_same.
Qed.

Lemma generic_record_no_amount year n r currencies :
  exists fields,
    Playwright.tableRecord year (Playwright.genericHeaders n 0) r currencies = VObj fields /\
    obj_get (str "amount") fields = None /\ obj_get (str "parts") fields = None.
Proof.
  eexists. split; [reflexivity|]. split.
  - rewrite obj_get_set_other by discriminate. rewrite obj_get_set_other by discriminate.
    rewrite mapCells_untouched; [reflexivity|].
    intros k _. apply generic_column_key.
  - rewrite obj_get_set_other by discriminate. rewrite obj_get_set_other by discriminate.
    rewrite mapCells_untouched; [reflexivity|].
    intros k _. apply generic_column_key.
Qed.

Lemma headersOf_generic toLowerCase rows :
  Playwright.findHeaders toLowerCase rows 0 3 = None ->
  exists n, fst (Playwright.headersOf toLowerCase rows) = Playwright.genericHeaders n 0.
Proof.
  intros H. unfold Playwright.headersOf. rewrite H.
  destruct rows as [|r rows]; simpl.
  - now exists 0.
  - now exists (length (row_cells r)).
Qed.

Lemma lowers_literal toLowerCase s :
  lowers toLowerCase -> all_of (fun c => (c <? 128)%N) s -> toLowerCase s = ascii_lower s.
Proof. intros H. apply H. Qed.

(** C3, as the sources have it.  The header cells "Total" and "Data de
    Vencimento" are read as the keys total and data de vencimento.  In a
    table that passes the filter and has a header cell of the vocabulary,
    the Puppeteer engine and the engine with one page per year emit one
    record per row after the first, and the sequential engine emits records
    of rows after the header row; such a record holds, under the key of a
    column whose key no later column has, the trimmed text of the row's
    cell in that column, null when it is empty or missing.  The key is the
    header text of the column, col_N when that is empty.  Without a header
    cell of the vocabulary the first two engines emit records of the shape
    raw, parts, amount only; the records of the sequential engine then begin
    with year and source, hold raw and currencies, and have neither parts
    nor amount. *)
Theorem C3_header_mapping (toLowerCase : jsstring -> jsstring) (Hlow : lowers toLowerCase)
        (year : jsstring) (t : table) (li : nat) :
  (Puppeteer.normalizeHeader toLowerCase (trim (str "Total")) = str "total" /\
   Puppeteer.normalizeHeader toLowerCase (trim (str "Data de Vencimento")) = str "data de vencimento" /\
   Parallel.normalizeHeader toLowerCase (str "Total") = str "total" /\
   Parallel.normalizeHeader toLowerCase (str "Data de Vencimento") = str "data de vencimento" /\
   Playwright.normalizeHeader toLowerCase (str "Total") = str "total" /\
   Playwright.normalizeHeader toLowerCase (str "Data de Vencimento") = str "data de vencimento" /\
   (forall hs k, nth_error hs k = Some (str "total") -> columnKey hs k = str "total") /\
   (forall hs k, nth_error hs k = Some (str "data de vencimento") ->
      columnKey hs k = str "data de vencimento")) /\
  (fst (Puppeteer.skipTable t li) = false ->
   Puppeteer.hasExpected (Puppeteer.tableHeaders toLowerCase t) = true ->
   fst (Puppeteer.extractTable toLowerCase year t li)
   = map (Puppeteer.headerRecord (Puppeteer.tableHeaders toLowerCase t)) (skipn 1 (table_rows t)) /\
   forall r k h, row_elems r = row_cells r ->
     nth_error (Puppeteer.tableHeaders toLowerCase t) k = Some h ->
     (forall k' h', k < k' -> nth_error (Puppeteer.tableHeaders toLowerCase t) k' = Some h' ->
        keyOr h' k' <> keyOr h k) ->
     exists fields,
       Puppeteer.headerRecord (Puppeteer.tableHeaders toLowerCase t) r = VObj fields /\
       obj_get (keyOr h k) fields = Some (valueOrNull (nth_error (map trim (row_cells r)) k))) /\
  (fst (Parallel.skipTable t li) = false ->
   Parallel.hasExpected (Parallel.tableHeaders toLowerCase t) = true ->
   fst (Parallel.extractTable toLowerCase year t li)
   = map (Parallel.headerRecord (Parallel.tableHeaders toLowerCase t)) (skipn 1 (table_rows t)) /\
   forall r k h,
     nth_error (Parallel.tableHeaders toLowerCase t) k = Some h ->
     (forall k' h', k < k' -> nth_error (Parallel.tableHeaders toLowerCase t) k' = Some h' ->
        keyOr h' k' <> keyOr h k) ->
     exists fields,
       Parallel.headerRecord (Parallel.tableHeaders toLowerCase t) r = VObj fields /\
       obj_get (keyOr h k) fields = Some (valueOrNull (nth_error (map trim (row_cells r)) k))) /\
  (forall rec, In rec (fst (Playwright.extractTable toLowerCase year t li)) ->
   exists r currencies,
     In r (skipn (snd (Playwright.headersOf toLowerCase (table_rows t))) (table_rows t)) /\
     rec = Playwright.tableRecord year (fst (Playwright.headersOf toLowerCase (table_rows t)))
                                  r currencies /\
     forall k,
       let headers := fst (Playwright.headersOf toLowerCase (table_rows t)) in
       k < Nat.max (length (row_cells r)) (length headers) ->
       (forall k', k < k' < Nat.max (length (row_cells r)) (length headers) ->
          columnKey headers k' <> columnKey headers k) ->
       columnKey headers k <> str "currencies" -> columnKey headers k <> str "raw" ->
       exists fields, rec = VObj fields /\
         obj_get (columnKey headers k) fields
         = Some (valueOrNull (Some (trim (or_empty (nth_error (row_cells r) k)))))) /\
  (Puppeteer.hasExpected (Puppeteer.tableHeaders toLowerCase t) = false ->
   forall rec, In rec (fst (Puppeteer.extractTable toLowerCase year t li)) ->
     exists r, In r (table_rows t) /\
       rec = VObj [(str "raw", VStr (trim (row_text r)));
                   (str "parts", strs (rowParts (trim (row_text r))));
                   (str "amount", rowAmount (rowParts (trim (row_text r))))]) /\
  (Parallel.hasExpected (Parallel.tableHeaders toLowerCase t) = false ->
   forall rec, In rec (fst (Parallel.extractTable toLowerCase year t li)) ->
     exists r, In r (table_rows t) /\
       rec = VObj [(str "raw", VStr (trim (row_text r)));
                   (str "parts", strs (rowParts (trim (row_text r))));
                   (str "amount", rowAmount (rowParts (trim (row_text r))))]) /\
  (Playwright.findHeaders toLowerCase (table_rows t) 0 3 = None ->
   forall rec, In rec (fst (Playwright.extractTable toLowerCase year t li)) ->
     exists r currencies fields, rec = VObj fields /\
       (exists extra, obj_keys fields = [str "year"; str "source"] ++ extra) /\
       obj_get (str "raw") fields = Some (VStr (row_text r)) /\
       obj_get (str "currencies") fields = Some (strs currencies) /\
       obj_get (str "parts") fields = None /\ obj_get (str "amount") fields = None).
Proof.
  split; [|split; [|split; [|split; [|split; [|split]]]]].
  - unfold Puppeteer.normalizeHeader, Parallel.normalizeHeader, Playwright.normalizeHeader.
    change (trim (str "Total")) with (str "Total").
    change (trim (str "Data de Vencimento")) with (str "Data de Vencimento").
    change (trim (replace_g (RPlus space) (str " ") (str "Total"))) with (str "Total").
    change (trim (replace_g (RPlus space) (str " ") (str "Data de Vencimento")))
      with (str "Data de Vencimento").
    rewrite !(@lowers_literal toLowerCase _ Hlow) by reflexivity.
    repeat split; try reflexivity.
    + intros hs k Hk. unfold columnKey. now rewrite Hk.
    + intros hs k Hk. unfold columnKey. now rewrite Hk.
  - intros Hskip Hexp. split.
    + now apply puppeteer_header_table.
    + intros r k h. apply puppeteer_header_column.
  - intros Hskip Hexp. split.
    + now apply parallel_header_table.
    + intros r k h. apply parallel_header_column.
  - intros rec Hrec.
    apply playwright_table_records in Hrec as (r & currencies & Hr & ->).
    exists r, currencies. split; [exact Hr | split; [reflexivity|]].
    intros k headers Hk Hlater Hcur Hraw.
    now apply playwright_record_column.
  - intros Hexp rec Hrec. eapply puppeteer_fallback in Hrec; eauto.
  - intros Hexp rec Hrec. eapply parallel_fallback in Hrec; eauto.
  - intros Hnone rec Hrec.
    apply playwright_table_records in Hrec as (r & currencies & _ & ->).
    destruct (@headersOf_generic toLowerCase _ Hnone) as [n ->].
    destruct (tableRecord_shape year (Playwright.genericHeaders n 0) r currencies)
      as (fields & Hf & Hkeys & Hraw & Hcur).
    destruct (generic_record_no_amount year n r currencies) as (fields' & Hf' & Hamount & Hparts).
    rewrite Hf in Hf'. injection Hf' as <-.
    exists r, currencies, fields. auto 8.
Qed.

Lemma C3_header_mapping_witness :
  fst (Parallel.extractTable ascii_lower (str "2023") Examples.headerTable 0)
  = map (Parallel.headerRecord (Parallel.tableHeaders ascii_lower Examples.headerTable))
        (skipn 1 (table_rows Examples.headerTable)) /\
  exists fields,
    Parallel.headerRecord (Parallel.tableHeaders ascii_lower Examples.headerTable)
      (Examples.cellsRow [str "60,00"; str "66,60"; str "20/02/2023"]) = VObj fields /\
    obj_get (str "total") fields = Some (VStr (str "66,60")).
Proof.
  assert (Hlow : lowers ascii_lower) by (intros s _; reflexivity).
  destruct (@C3_header_mapping ascii_lower Hlow (str "2023") Examples.headerTable 0)
    as (_ & _ & Hparallel & _).
  destruct Hparallel as [Hrecords Hcolumn]; [reflexivity | reflexivity |].
  split; [exact Hrecords|].
  apply (Hcolumn (Examples.cellsRow [str "60,00"; str "66,60"; str "20/02/2023"]) 1 (str "total")).
  - reflexivity.
  - intros k' h' Hlt Hk'. destruct k' as [|[|[|k']]]; try lia.
    + vm_compute in Hk'. injection Hk' as <-. vm_compute. discriminate.
    + vm_compute in Hk'. destruct k'; discriminate Hk'.
Defined.

(** C3 as stated fails in the sequential engine: for a table without a
    header cell of the vocabulary the record is keyed by year, source and
    col_N, with currencies and raw; it has no parts and no amount. *)
Lemma C3_sequential_fallback_shape :
  Playwright.findHeaders Examples.toLowerCase (table_rows Examples.plainTable) 0 3 = None /\
  Playwright.extractDebits Examples.toLowerCase (str "2024") [CTable Examples.plainTable]
  = [VObj [(str "year", VStr (str "2024")); (str "source", VStr (str "table"));
           (str "col_0", VStr (str "2024")); (str "col_1", VStr (str "10,00"));
           (str "currencies", strs [str "10,00"]);
           (str "raw", VStr (row_text (Examples.cellsRow [str "2024"; str "10,00"])))]] /\
  (forall fields,
     In (VObj fields)
        (Playwright.extractDebits Examples.toLowerCase (str "2024") [CTable Examples.plainTable]) ->
     obj_keys fields <> [str "raw"; str "parts"; str "amount"]).
Proof.
  split; [reflexivity|]. split; [vm_compute; reflexivity|].
  intros fields H. vm_compute in H. destruct H as [H | []].
  injection H as <-. vm_compute. discriminate.
Qed.

(* ===================================================================== *)
(** * The files                                                          *)
(* ===================================================================== *)

Lemma jsval_induction (P : jsval -> Prop) :
  P VNull -> (forall s, P (VStr s)) -> (forall n, P (VNum n)) ->
  (forall l, Forall P l -> P (VArr l)) ->
  (forall fs, Forall (fun kv => P (snd kv)) fs -> P (VObj fs)) ->
  forall v, P v.
Proof.
  intros HNull HStr HNum HArr HObj. fix IH 1. intros [|s|n|l|fs].
  - exact HNull.
  - apply HStr.
  - apply HNum.
  - apply HArr. induction l as [|x l IHl]; constructor; [apply IH | exact IHl].
  - apply HObj. induction fs as [|[k x] fs IHfs]; constructor; [apply IH | exact IHfs].
Qed.

Lemma jsonify_idem v : jsonify (jsonify v) = jsonify v.
Proof.
  induction v as [|s|n|l IH|fs IH] using jsval_induction; simpl; auto.
  - destruct n; reflexivity.
  - f_equal. rewrite map_map. induction IH as [|x l Hx _ IHl]; simpl; auto.
    now rewrite Hx, IHl.
  - f_equal. rewrite map_map. induction IH as [|[k x] fs Hx _ IHfs]; simpl in *; auto.
    now rewrite Hx, IHfs.
Qed.

Lemma json_fields_set k name fs :
  json_fields (obj_set k (VStr name) fs) = obj_set k (VStr name) (json_fields fs).
Proof.
  unfold json_fields. induction fs as [|[k0 v0] fs IH]; simpl; auto.
  destruct (streqb k0 k); simpl; [reflexivity | now rewrite IH].
Qed.

Lemma readFile_write_same path v d : readFile path (writeFile path v d) = Some (jsonify v).
Proof. unfold readFile, writeFile. simpl. apply obj_get_set_same. Qed.

Lemma readFile_write_other path path' v d :
  path' <> path -> readFile path' (writeFile path v d) = readFile path' d.
Proof. intros H. unfold readFile, writeFile. simpl. now apply obj_get_set_other. Qed.

Lemma obj_keys_set_present k v o : In k (obj_keys o) -> obj_keys (obj_set k v o) = obj_keys o.
Proof.
  unfold obj_keys. induction o as [|[k0 v0] o IH]; simpl.
  - intros [].
  - destruct (streqb k0 k) eqn:E; simpl; auto.
    intros [H|H].
    + subst. rewrite streqb_refl in E. discriminate.
    + now rewrite IH.
Qed.

(** C9: when the late scan finds a name and the aggregate file is there,
    holding the JSON text of an object, the file is written again with
    companyName set to that name and every other field, the identifier and
    the years among them, as it was and in the same order; no other file
    changes.  In
    the Puppeteer engine and the engine with one page per year the file is
    read back and written; in the sequential engine the object that was
    written is written again. *)
Theorem C9_late_name_changes_only_companyName (name : jsstring) (d : disk) (agg : obj) :
  name <> [] ->
  readFile aggregatePath d = Some (VObj agg) ->
  (exists written, jsonify written = VObj agg) ->
  (readFile aggregatePath (lateName (Some name) d)
     = Some (VObj (obj_set (str "companyName") (VStr name) agg)) /\
   (forall path, path <> aggregatePath ->
      readFile path (lateName (Some name) d) = readFile path d) /\
   writes (lateName (Some name) d) = writes d ++ [aggregatePath]) /\
  (forall resultJson d0, d = writeFile aggregatePath (VObj resultJson) d0 ->
     readFile aggregatePath (Playwright.lateNome (Some name) resultJson d)
       = Some (VObj (obj_set (str "companyName") (VStr name) agg)) /\
     (forall path, path <> aggregatePath ->
        readFile path (Playwright.lateNome (Some name) resultJson d) = readFile path d) /\
     writes (Playwright.lateNome (Some name) resultJson d) = writes d ++ [aggregatePath]) /\
  (obj_get (str "companyName") (obj_set (str "companyName") (VStr name) agg) = Some (VStr name) /\
   (forall k, k <> str "companyName" ->
      obj_get k (obj_set (str "companyName") (VStr name) agg) = obj_get k agg) /\
   (In (str "companyName") (obj_keys agg) ->
      obj_keys (obj_set (str "companyName") (VStr name) agg) = obj_keys agg)).
Proof.
  intros Hname Hread [written Hwritten].
  assert (Hjson : jsonify (VObj agg) = VObj agg) by (rewrite <- Hwritten; apply jsonify_idem).
  assert (Htruthy : truthy_str name = true) by (destruct name; [congruence | reflexivity]).
  split; [|split].
  - unfold lateName, lateUpdate. rewrite Htruthy, Hread. split; [|split].
    + rewrite readFile_write_same. simpl. f_equal. f_equal.
      fold (json_fields (obj_set (str "companyName") (VStr name) agg)).
      rewrite json_fields_set. simpl in Hjson. injection Hjson as Hjson.
      unfold json_fields. now rewrite Hjson.
    + intros path Hpath. now apply readFile_write_other.
    + reflexivity.
  - intros resultJson d0 Hd. unfold Playwright.lateNome. rewrite Htruthy. split; [|split].
    + rewrite readFile_write_same. simpl. f_equal. f_equal.
      fold (json_fields (obj_set (str "companyName") (VStr name) resultJson)).
      rewrite json_fields_set.
      rewrite Hd, readFile_write_same in Hread. simpl in Hread. injection Hread as Hread.
      unfold json_fields. now rewrite Hread.
    + intros path Hpath. now apply readFile_write_other.
    + reflexivity.
  - split; [|split].
    + apply obj_get_set_same.
    + intros k Hk. now apply obj_get_set_other.
    + apply obj_keys_set_present.
Qed.

Lemma writes_writeYears digits name l : forall d,
  writes (writeYears digits name l d) = writes d ++ map pathOf l.
Proof.
  unfold writeYears. induction l as [|lf l IH]; intros d; simpl.
  - now rewrite app_nil_r.
  - rewrite IH. simpl. now rewrite <- app_assoc.
Qed.

Lemma writeYears_app digits name l1 l2 d :
  writeYears digits name (l1 ++ l2) d = writeYears digits name l2 (writeYears digits name l1 d).
Proof. unfold writeYears. apply fold_left_app. Qed.

Section LoopFacts.
Variable toLowerCase : jsstring -> jsstring.

Lemma puppeteer_yearLoop (p : Puppeteer.page) digits name : forall ys n all d,
  allReturn Puppeteer.yearLabel (Puppeteer.attempt toLowerCase p) ys n ->
  Puppeteer.yearLoop toLowerCase p digits name ys n all d
  = (Returned (all ++ map resultOf
                 (filter hasRecords
                    (yearsFound Puppeteer.yearLabel (Puppeteer.attempt toLowerCase p) ys n))),
     writeYears digits name
       (filter hasRecords
          (yearsFound Puppeteer.yearLabel (Puppeteer.attempt toLowerCase p) ys n)) d).
Proof.
  induction ys as [|y ys IH]; intros n all d Hret.
  - simpl. now rewrite app_nil_r.
  - destruct Hret as [[f Hf] Hret].
    cbn [Puppeteer.yearLoop yearsFound]. unfold found. rewrite Hf.
    destruct f as [|x f].
    + cbn [filter hasRecords snd]. now apply IH.
    + cbn [filter hasRecords snd]. rewrite (IH _ _ _ Hret).
      cbn [map]. rewrite <- app_assoc. reflexivity.
Qed.

Lemma playwright_yearLoop (p : Playwright.page) digits name : forall ys n all d,
  allReturn Playwright.yearLabel (Playwright.attempt toLowerCase p) ys n ->
  Playwright.scrapeAllYearsSequential toLowerCase p digits name ys n all d
  = (Returned (all ++ map resultOf
                 (yearsFound Playwright.yearLabel (Playwright.attempt toLowerCase p) ys n)),
     writeYears digits name
       (filter hasRecords
          (yearsFound Playwright.yearLabel (Playwright.attempt toLowerCase p) ys n)) d).
Proof.
  induction ys as [|y ys IH]; intros n all d Hret.
  - simpl. now rewrite app_nil_r.
  - destruct Hret as [[f Hf] Hret].
    cbn [Playwright.scrapeAllYearsSequential yearsFound]. unfold found. rewrite Hf.
    rewrite (IH _ _ _ Hret). cbn [map]. rewrite <- app_assoc.
    destruct f as [|x f]; reflexivity.
Qed.

End LoopFacts.

Lemma obj_get_json_fields k fs : obj_get k (json_fields fs) = option_map jsonify (obj_get k fs).
Proof.
  unfold json_fields. induction fs as [|[k0 v0] fs IH]; simpl; auto.
  destruct (streqb k0 k); auto.
Qed.

Lemma yearsFound_labels {Y} (label : Y -> jsstring) attemptAt ys : forall n,
  map fst (yearsFound label attemptAt ys n) = map label ys.
Proof. induction ys as [|y ys IH]; intros n; simpl; auto. now rewrite IH. Qed.

Lemma lateNome_writes nome json d :
  writes (Playwright.lateNome nome json d) = writes d ++ lateWrites nome.
Proof.
  unfold Playwright.lateNome, lateWrites. destruct nome as [n|]; simpl.
  - destruct (truthy_str n); simpl; auto. now rewrite app_nil_r.
  - now rewrite app_nil_r.
Qed.

Lemma lateNome_years nome json d v :
  readFile aggregatePath d = Some (VObj (json_fields json)) ->
  obj_get (str "years") json = Some v ->
  exists agg, readFile aggregatePath (Playwright.lateNome nome json d) = Some (VObj agg) /\
              obj_get (str "years") agg = Some (jsonify v).
Proof.
  intros Hread Hyears. unfold Playwright.lateNome.
  assert (Hold : exists agg, readFile aggregatePath d = Some (VObj agg) /\
                             obj_get (str "years") agg = Some (jsonify v)).
  { exists (json_fields json). split; auto. rewrite obj_get_json_fields, Hyears. reflexivity. }
  destruct nome as [n|]; auto. destruct (truthy_str n); auto.
  exists (json_fields (obj_set (str "companyName") (VStr n) json)). split.
  - now rewrite readFile_write_same.
  - rewrite obj_get_json_fields, obj_get_set_other by discriminate.
    rewrite Hyears. reflexivity.
Qed.

(** ** The late name, the year argument and the screenshot *)
Lemma writes_writeFile path v d : writes (writeFile path v d) = writes d ++ [path].
Proof. reflexivity. Qed.

Lemma lateName_other name d path :
  path <> aggregatePath -> readFile path (lateName name d) = readFile path d.
Proof.
  intros Hp. unfold lateName, lateUpdate. destruct name as [n|]; auto.
  destruct (truthy_str n); auto.
  destruct (readFile aggregatePath d) as [[| | | |]|]; auto;
    now apply readFile_write_other.
Qed.

Lemma yearPath_aggregate label : yearPath label = aggregatePath <-> label = str "all".
Proof.
  unfold yearPath, aggregatePath. split.
  - intros E. change (str "debitos_all.json") with (str "debitos_" ++ str "all" ++ str ".json") in E.
    apply app_inv_head in E. now apply app_inv_tail in E.
  - intros ->. reflexivity.
Qed.

Lemma lateName_years name d o v :
  readFile aggregatePath d = Some (VObj o) ->
  obj_get (str "years") o = Some (jsonify v) ->
  exists agg, readFile aggregatePath (lateName name d) = Some (VObj agg) /\
              obj_get (str "years") agg = Some (jsonify v).
Proof.
  intros Hread Hyears. unfold lateName, lateUpdate.
  destruct name as [n|]; [|eauto]. destruct (truthy_str n); [|eauto].
  rewrite Hread. rewrite readFile_write_same. cbn [jsonify]. eexists. split; [reflexivity|].
  change (map (fun kv : jsstring * jsval => (fst kv, jsonify (snd kv)))
              (obj_set (str "companyName") (VStr n) o))
    with (json_fields (obj_set (str "companyName") (VStr n) o)).
  rewrite obj_get_json_fields, obj_get_set_other by discriminate.
  rewrite Hyears. simpl. now rewrite jsonify_idem.
Qed.

Lemma lateName_writes name d o :
  readFile aggregatePath d = Some (VObj o) ->
  writes (lateName name d) = writes d ++ lateWrites name.
Proof.
  intros Hread. unfold lateName, lateUpdate, lateWrites.
  destruct name as [n|]; simpl; [|now rewrite app_nil_r].
  destruct (truthy_str n); [|now rewrite app_nil_r].
  now rewrite Hread.
Qed.

Lemma readFile_image_other path path' png d :
  path' <> path -> readFile path' (writeImage path png d) = readFile path' d.
Proof. intros H. unfold readFile, writeImage. simpl. now apply obj_get_set_other. Qed.

Lemma puppeteer_shot_writes (p : Puppeteer.page) d :
  writes (snd (Puppeteer.takeScreenshot p d)) = writes d ++ shotWrites p.
Proof.
  unfold Puppeteer.takeScreenshot, shotWrites.
  destruct (Puppeteer.screenshot p); simpl; [reflexivity | now rewrite app_nil_r].
Qed.

Lemma puppeteer_shot_read (p : Puppeteer.page) d path :
  path <> Puppeteer.screenshotPath ->
  readFile path (snd (Puppeteer.takeScreenshot p d)) = readFile path d.
Proof.
  intros H. unfold Puppeteer.takeScreenshot.
  destruct (Puppeteer.screenshot p); simpl; [now apply readFile_image_other | reflexivity].
Qed.

Lemma yearPath_not_shot label : yearPath label <> Puppeteer.screenshotPath.
Proof. discriminate. Qed.

(** C6, as the sources have it, for a run with eligible years in which
    every retried extraction returns.  The sequential engine puts one
    YearResult per eligible year, in order, into the combined output; the
    Puppeteer engine puts one per eligible year that has at least one
    record.  Both write, year after year, the per-year file of every year
    that has at least one record and of no other year, and then the
    aggregate file; the aggregate is written once more when a late name
    is found.  The Puppeteer run goes on: when some year has a record it
    writes the file named after the year argument, and then it takes the
    screenshot.  With two eligible years of three records and of none, the
    combined output of the sequential engine has the two YearResults, that
    of the Puppeteer engine has the first, and the files written are the
    file of the first year and the aggregate, then the aggregate again for
    a late name and, in the Puppeteer engine, the file of the year argument
    and the screenshot. *)
Theorem C6_year_results_and_files (toLowerCase : jsstring -> jsstring) :
  (forall (p : Puppeteer.page) d,
     let digits := Puppeteer.normalizeCNPJ (Puppeteer.cnpjArg p) in
     let ys := Puppeteer.getAvailableYears (Puppeteer.yearPage p) in
     let F := yearsFound Puppeteer.yearLabel (Puppeteer.attempt toLowerCase p) ys 0 in
     let results := map resultOf (filter hasRecords F) in
     ys <> [] ->
     allReturn Puppeteer.yearLabel (Puppeteer.attempt toLowerCase p) ys 0 ->
     fst (Puppeteer.extractAll toLowerCase p digits d) = results /\
     writes (snd (Puppeteer.run toLowerCase p d))
       = writes d ++ map pathOf (filter hasRecords F) ++ [aggregatePath]
         ++ lateWrites (Puppeteer.nameFromLabel p)
         ++ argWrites p results ++ shotWrites p /\
     (Puppeteer.yearArg p <> str "all" ->
        exists agg,
          readFile aggregatePath (snd (Puppeteer.run toLowerCase p d)) = Some (VObj agg) /\
          obj_get (str "years") agg = Some (jsonify (VArr results))) /\
     (forall l1 f1 l2, F = [(l1, f1); (l2, [])] -> length f1 = 3 ->
        results = [yearResult l1 f1] /\
        writes (snd (Puppeteer.run toLowerCase p d))
          = writes d ++ [yearPath l1; aggregatePath]
            ++ lateWrites (Puppeteer.nameFromLabel p)
            ++ [yearPath (Puppeteer.yearArg p)] ++ shotWrites p)) /\
  (forall (p : Playwright.page) d,
     let ys := Playwright.available (Playwright.getAvailableYears (Playwright.yearPage p)) in
     let F := yearsFound Playwright.yearLabel (Playwright.attempt toLowerCase p) ys 0 in
     ys <> [] ->
     allReturn Playwright.yearLabel (Playwright.attempt toLowerCase p) ys 0 ->
     fst (Playwright.run toLowerCase p d) = Returned tt /\
     map fst F = map Playwright.yearLabel ys /\
     (exists agg,
        readFile aggregatePath (snd (Playwright.run toLowerCase p d)) = Some (VObj agg) /\
        obj_get (str "years") agg = Some (jsonify (VArr (map resultOf F)))) /\
     writes (snd (Playwright.run toLowerCase p d))
       = writes d ++ map pathOf (filter hasRecords F) ++ [aggregatePath]
         ++ lateWrites (Playwright.nomeFinal p) /\
     (forall l1 f1 l2, F = [(l1, f1); (l2, [])] -> length f1 = 3 ->
        map resultOf F = [yearResult l1 f1; yearResult l2 []] /\
        writes (snd (Playwright.run toLowerCase p d))
          = writes d ++ [yearPath l1; aggregatePath] ++ lateWrites (Playwright.nomeFinal p))).
Proof.
  split.
  - intros p d digits ys F results Hne Hret.
    set (name := firstTruthy [Puppeteer.nameListInline p; Puppeteer.nomeFromHtml p]).
    set (agg0 := VObj [(str "cnpj", VStr digits); (str "companyName", name);
                       (str "years", VArr results)]).
    assert (Hall : Puppeteer.extractAll toLowerCase p digits d
              = (results, writeFile aggregatePath agg0
                            (writeYears digits name (filter hasRecords F) d))).
    { unfold Puppeteer.extractAll. fold ys. fold name.
      destruct ys as [|y ys'] eqn:Eys; [congruence|].
      rewrite (@puppeteer_yearLoop toLowerCase p digits name (y :: ys') 0 [] d Hret).
      reflexivity. }
    set (d1 := writeFile aggregatePath agg0
                 (writeYears digits name (filter hasRecords F) d)) in Hall.
    assert (Hread1 : readFile aggregatePath d1
                     = Some (VObj (json_fields [(str "cnpj", VStr digits);
                                                (str "companyName", name);
                                                (str "years", VArr results)])))
      by apply readFile_write_same.
    assert (Hw1 : writes d1 = writes d ++ map pathOf (filter hasRecords F) ++ [aggregatePath]).
    { unfold d1. rewrite writes_writeFile, writes_writeYears. now rewrite <- app_assoc. }
    assert (Hw : writes (snd (Puppeteer.run toLowerCase p d))
                 = writes d ++ map pathOf (filter hasRecords F) ++ [aggregatePath]
                   ++ lateWrites (Puppeteer.nameFromLabel p)
                   ++ argWrites p results ++ shotWrites p).
    { unfold Puppeteer.run. fold digits. rewrite Hall.
      rewrite puppeteer_shot_writes. unfold argWrites.
      destruct results as [|x rest].
      - rewrite (@lateName_writes _ _ _ Hread1), Hw1. now rewrite <- !app_assoc.
      - rewrite writes_writeFile, (@lateName_writes _ _ _ Hread1), Hw1.
        now rewrite <- !app_assoc. }
    rewrite Hall. cbn [fst]. split; [reflexivity|]. split; [exact Hw|]. split.
    + intros Harg. unfold Puppeteer.run. fold digits. rewrite Hall.
      rewrite puppeteer_shot_read by discriminate.
      assert (Hlate : exists agg,
                 readFile aggregatePath (lateName (Puppeteer.nameFromLabel p) d1)
                 = Some (VObj agg) /\
                 obj_get (str "years") agg = Some (jsonify (VArr results))).
      { eapply lateName_years; [exact Hread1 | reflexivity]. }
      destruct results as [|x rest]; [exact Hlate|].
      rewrite readFile_write_other; [exact Hlate|].
      intros E. symmetry in E. now apply yearPath_aggregate in E.
    + intros l1 f1 l2 HF Hlen. rewrite Hw. subst results. rewrite HF.
      destruct f1 as [|x f1]; [discriminate|].
      split; reflexivity.
  - intros p d ys F Hne Hret.
    assert (Hrun : Playwright.run toLowerCase p d
              = (Returned tt,
                 Playwright.lateNome (Playwright.nomeFinal p)
                   (Playwright.resultJson (Playwright.normalizeCNPJ (Playwright.cnpjArg p))
                      (firstTruthy [Playwright.nameListInline p])
                      (Playwright.getAvailableYears (Playwright.yearPage p))
                      (map resultOf F))
                   (writeFile aggregatePath
                      (VObj (Playwright.resultJson (Playwright.normalizeCNPJ (Playwright.cnpjArg p))
                               (firstTruthy [Playwright.nameListInline p])
                               (Playwright.getAvailableYears (Playwright.yearPage p))
                               (map resultOf F)))
                      (writeYears (Playwright.normalizeCNPJ (Playwright.cnpjArg p))
                                  (firstTruthy [Playwright.nameListInline p])
                                  (filter hasRecords F) d)))).
    { unfold Playwright.run. fold ys.
      destruct ys as [|y ys'] eqn:Eys; [congruence|].
      rewrite (@playwright_yearLoop toLowerCase p _ _ (y :: ys') 0 [] d Hret).
      reflexivity. }
    rewrite Hrun. cbn [fst snd].
    assert (Hwrites : writes
              (Playwright.lateNome (Playwright.nomeFinal p)
                 (Playwright.resultJson (Playwright.normalizeCNPJ (Playwright.cnpjArg p))
                    (firstTruthy [Playwright.nameListInline p])
                    (Playwright.getAvailableYears (Playwright.yearPage p)) (map resultOf F))
                 (writeFile aggregatePath
                    (VObj (Playwright.resultJson (Playwright.normalizeCNPJ (Playwright.cnpjArg p))
                             (firstTruthy [Playwright.nameListInline p])
                             (Playwright.getAvailableYears (Playwright.yearPage p))
                             (map resultOf F)))
                    (writeYears (Playwright.normalizeCNPJ (Playwright.cnpjArg p))
                                (firstTruthy [Playwright.nameListInline p])
                                (filter hasRecords F) d)))
              = writes d ++ map pathOf (filter hasRecords F) ++ [aggregatePath]
                ++ lateWrites (Playwright.nomeFinal p)).
    { rewrite lateNome_writes. unfold writeFile at 1. cbn [writes].
      rewrite writes_writeYears. now rewrite <- !app_assoc. }
    split; [reflexivity|]. split; [apply yearsFound_labels|]. split; [|split].
    + eapply lateNome_years.
      * apply readFile_write_same.
      * reflexivity.
    + exact Hwrites.
    + intros l1 f1 l2 HF Hlen. rewrite Hwrites, HF.
      destruct f1 as [|x f1]; [discriminate|].
      split; reflexivity.
Qed.

Lemma C6_year_results_witness :
  writes (snd (Playwright.run Examples.toLowerCase Examples.sequentialPage Examples.emptyDisk))
  = [yearPath (str "2023"); aggregatePath] ++ lateWrites (Some (str "ACME LTDA")) /\
  writes (snd (Puppeteer.run Examples.toLowerCase Examples.puppeteerPage Examples.emptyDisk))
  = [yearPath (str "2023"); aggregatePath] ++ lateWrites (Some (str "ACME LTDA"))
    ++ [yearPath (str "2024")] ++ [Puppeteer.screenshotPath].
Proof.
  destruct (C6_year_results_and_files Examples.toLowerCase) as [Hpup Hseq].
  split.
  - destruct (Hseq Examples.sequentialPage Examples.emptyDisk) as (_ & _ & _ & _ & Hscenario).
    + vm_compute. discriminate.
    + vm_compute. repeat split; eexists; reflexivity.
    + destruct (Hscenario (str "2023")
                  (Playwright.extractDebits Examples.toLowerCase (str "2023")
                     [CTable Examples.headerTable])
                  (str "2024")) as [_ Hwrites].
      * vm_compute. reflexivity.
      * vm_compute. reflexivity.
      * exact Hwrites.
  - destruct (Hpup Examples.puppeteerPage Examples.emptyDisk) as (_ & _ & _ & Hscenario).
    + vm_compute. discriminate.
    + vm_compute. repeat split; eexists; reflexivity.
    + destruct (Hscenario (str "2023")
                  (Puppeteer.extractDebits Examples.toLowerCase (str "2023")
                     [Examples.headerTable])
                  (str "2024")) as [_ Hwrites].
      * vm_compute. reflexivity.
      * vm_compute. reflexivity.
      * exact Hwrites.
Defined.

(** C6 as stated fails on the year without records.  With the eligible
    years 2023 of three records and 2024 of none, the sequential engine
    writes the file of 2023 and the aggregate, and no file of 2024; in the
    Puppeteer engine the combined output has the YearResult of 2023 only,
    and the file named 2024 that the run writes at its end is that of the
    year argument: it holds the YearResult of 2023, not the records of
    2024. *)
Lemma C6_year_without_records_has_no_file :
  map Playwright.yearLabel
      (Playwright.available (Playwright.getAvailableYears Examples.twoYearsPage))
  = [str "2023"; str "2024"] /\
  map (fun lf => length (snd lf))
      (yearsFound Playwright.yearLabel
         (Playwright.attempt Examples.toLowerCase Examples.sequentialPage)
         (Playwright.available (Playwright.getAvailableYears Examples.twoYearsPage)) 0)
  = [3; 0] /\
  writes (snd (Playwright.run Examples.toLowerCase Examples.sequentialPage Examples.emptyDisk))
  = [yearPath (str "2023"); aggregatePath; aggregatePath] /\
  readFile (yearPath (str "2024"))
           (snd (Playwright.run Examples.toLowerCase Examples.sequentialPage Examples.emptyDisk))
  = None /\
  length (fst (Puppeteer.extractAll Examples.toLowerCase Examples.puppeteerPage
                 (Puppeteer.normalizeCNPJ (Puppeteer.cnpjArg Examples.puppeteerPage))
                 Examples.emptyDisk)) = 1 /\
  writes (snd (Puppeteer.run Examples.toLowerCase Examples.puppeteerPage Examples.emptyDisk))
  = [yearPath (str "2023"); aggregatePath; aggregatePath; yearPath (str "2024");
     Puppeteer.screenshotPath] /\
  readFile (yearPath (str "2024"))
           (snd (Puppeteer.run Examples.toLowerCase Examples.puppeteerPage Examples.emptyDisk))
  = Some (jsonify
            (yearPayload (str "12345678000195") (VStr (str "ACME LTDA")) (str "2024")
               [yearResult (str "2023")
                  (Puppeteer.extractDebits Examples.toLowerCase (str "2023")
                     [Examples.headerTable])])).
Proof. repeat split; vm_compute; reflexivity. Qed.

Lemma C9_late_name_witness :
  readFile aggregatePath (lateName (Some (str "ACME LTDA")) Examples.persisted)
  = Some (VObj (obj_set (str "companyName") (VStr (str "ACME LTDA")) Examples.persistedFields)).
Proof.
  destruct (@C9_late_name_changes_only_companyName (str "ACME LTDA") Examples.persisted
              Examples.persistedFields) as [[Hfile _] _].
  - discriminate.
  - vm_compute. reflexivity.
  - exists (VObj Examples.persistedFields). vm_compute. reflexivity.
  - exact Hfile.
Defined.

(* ===================================================================== *)
(** * Where lastIndex, the first-word match and the element lists show   *)
(* ===================================================================== *)

(** [currencyRegex] has the [g] flag and [test] resumes at lastIndex.  A
    table of one row with one amount passes the filter of the Puppeteer
    engine with lastIndex at the end of the amount, the test of the row
    starts there and fails: nothing is extracted, in the engine with one
    page per year as well; in the sequential engine the container passes
    and the table inside it, tested again, does not. *)
Lemma lastIndex_hides_single_amount :
  has_piece currency_shaped (table_text Examples.amountTable) /\
  fst (Puppeteer.skipTable Examples.amountTable 0) = false /\
  Puppeteer.extractDebits Examples.toLowerCase (str "2024") [Examples.amountTable] = [] /\
  Parallel.extractDebits Examples.toLowerCase (str "2024") [Examples.amountTable] = [] /\
  fst (Playwright.skipContainer (str "2024") (CTable Examples.amountTable) 0) = false /\
  Playwright.extractDebits Examples.toLowerCase (str "2024") [CTable Examples.amountTable] = [].
Proof.
  split; [apply test_currency_shape; reflexivity|].
  repeat split; vm_compute; reflexivity.
Qed.

(** In the sequential engine a table with amounts is extracted when it
    comes first and skipped when a container with a longer text and an
    amount at its end comes before it. *)
Lemma lastIndex_hides_later_container :
  has_piece currency_shaped (table_text Examples.twoAmountsTable) /\
  length (Playwright.extractDebits Examples.toLowerCase (str "2024")
            [CTable Examples.twoAmountsTable]) = 1 /\
  Playwright.extractDebits Examples.toLowerCase (str "2024")
    [Examples.summaryBox; CTable Examples.twoAmountsTable] = [].
Proof.
  split; [apply test_currency_shape; reflexivity|].
  split; vm_compute; reflexivity.
Qed.

(** The sequential engine maps a header to the first entry of its
    vocabulary whose first word the header contains: "data de acolhimento"
    goes to data de vencimento and, being the later column, takes its
    place.  The engine with one page per year keeps both. *)
Lemma acolhimento_takes_vencimento :
  columnKey [str "total"; str "data de vencimento"; str "data de acolhimento"] 2
  = str "data de vencimento" /\
  (forall fields,
     In (VObj fields)
        (Playwright.extractDebits Examples.toLowerCase (str "2023") [CTable Examples.datesTable]) ->
     obj_get (str "data de vencimento") fields = Some (VStr (str "21/02/2023")) /\
     obj_get (str "data de acolhimento") fields = None) /\
  Parallel.extractDebits Examples.toLowerCase (str "2023") [Examples.datesTable]
  = [VObj [(str "total", VStr (str "66,60"));
           (str "data de vencimento", VStr (str "20/02/2023"));
           (str "data de acolhimento", VStr (str "21/02/2023"))]].
Proof.
  split; [reflexivity|]. split; [|vm_compute; reflexivity].
  intros fields H. vm_compute in H. destruct H as [H | []].
  injection H as <-. split; reflexivity.
Qed.

(** The Puppeteer engine zips the headers with every element below the
    row: a cell that wraps its text in an element moves the later columns. *)
Lemma nested_element_moves_columns :
  Puppeteer.extractDebits Examples.toLowerCase (str "2023") [Examples.nestedTable]
  = [VObj [(str "total", VStr (str "66,60")); (str "data de vencimento", VStr (str "66,60"))]] /\
  Parallel.extractDebits Examples.toLowerCase (str "2023") [Examples.nestedTable]
  = [VObj [(str "total", VStr (str "66,60"));
           (str "data de vencimento", VStr (str "20/02/2023"))]].
Proof. split; vm_compute; reflexivity. Qed.

(** On the native select the sequential engine lists an option marked
    "não optante" as available when it is not disabled; the other two
    engines and its own scan of the page do not. *)
Lemma sequential_select_keeps_marked_option :
  has_marker (trim (el_text Examples.opt2022)) /\
  In (Playwright.selectOption Examples.opt2022)
     (Playwright.available (Playwright.getAvailableYears Examples.selectPage)) /\
  In (Playwright.selectOption Examples.opt2022)
     (Playwright.notOptante (Playwright.getAvailableYears Examples.selectPage)) /\
  ~ In (Puppeteer.selectOption Examples.opt2022)
       (Puppeteer.getAvailableYears Examples.selectPage) /\
  map Playwright.y_text
      (Playwright.available (Playwright.getAvailableYears Examples.scanPage))
  = [str "2023"].
Proof.
  split; [apply test_marker; reflexivity|].
  split; [vm_compute; auto|]. split; [vm_compute; auto|]. split; [|reflexivity].
  vm_compute. intros [H | [H | []]]; discriminate H.
Qed.

(* ===================================================================== *)
(** * The dispatcher: requests, arguments and the size of the cache      *)
(* ===================================================================== *)

Lemma sanitize_digits x :
  Server.sanitizeCNPJ (Some x) = match x with [] => None | _ :: _ => Some (filter is_digit x) end.
Proof.
  destruct x as [|c x]; [reflexivity|].
  unfold Server.sanitizeCNPJ. now rewrite remove_non_digit.
Qed.

Lemma scrape_cases (V : Type) now (r : Server.request) (c : Server.cache V) :
  let digits := digitsOf (Server.req_cnpj r) in
  Server.scrape now r c =
    if length digits <? 11 then (Server.BadRequest V, c)
    else
      match Server.getFromCache now (Server.request_key digits r) c with
      | (Some cached, c') => (Server.FromCache cached, c')
      | (None, c') => (Server.Spawn V (Server.scrape_args digits r) (Server.request_key digits r), c')
      end.
Proof.
  unfold Server.scrape, digitsOf. rewrite sanitize_digits.
  destruct (or_empty (Server.req_cnpj r)) as [|x xs]; reflexivity.
Qed.

Lemma engine_choice x :
  streqb (or_str x (str "puppeteer")) (str "playwright") = streqb x (str "playwright").
Proof. destruct x; reflexivity. Qed.

(** X1: the handler of /scrape answers 400 exactly when the identifier of
    the request holds fewer than eleven digits, whatever else it holds; it
    then leaves the cache as it was and starts no engine. *)
Theorem X1_short_identifier_rejected (V : Type) (now : Z) (r : Server.request)
        (c : Server.cache V) :
  (fst (Server.scrape now r c) = Server.BadRequest V <->
   length (digitsOf (Server.req_cnpj r)) < 11) /\
  (length (digitsOf (Server.req_cnpj r)) < 11 ->
   Server.scrape now r c = (Server.BadRequest V, c)).
Proof.
  rewrite scrape_cases. cbv zeta.
  destruct (Nat.ltb_spec (length (digitsOf (Server.req_cnpj r))) 11) as [Hlt|Hge].
  - split; [split; auto | auto].
  - split; [|lia]. split; [|lia].
    destruct (Server.getFromCache now _ c) as [[cached|] c']; discriminate.
Qed.

Lemma X1_short_identifier_witness :
  Server.scrape 0 {| Server.req_cnpj := Some (str "12.345.678");
                     Server.req_year := Some (str "2024"); Server.req_month := None;
                     Server.req_noHeadless := false; Server.req_engine := None |}
                ([] : Server.cache nat)
  = (Server.BadRequest nat, []).
Proof.
  apply (@X1_short_identifier_rejected nat 0). vm_compute. repeat constructor.
Defined.

(** X2: when the handler starts an engine, the script is
    scrape_playwright.js exactly when the engine field is the string
    playwright, and scrape.js for any other value or none; the identifier
    it passes is the digits of the request's identifier, at least eleven
    and nothing else; the key is made of these digits, the year and the
    month; and the cache had no entry within the TTL under that key. *)
Theorem X2_spawn_arguments (V : Type) (now : Z) (r : Server.request) (c : Server.cache V)
        (args : list jsstring) (key : jsstring) :
  fst (Server.scrape now r c) = Server.Spawn V args key ->
  let digits := digitsOf (Server.req_cnpj r) in
  11 <= length digits /\ forallb is_digit digits = true /\
  (exists flags,
     args = (if streqb (or_empty (Server.req_engine r)) (str "playwright")
             then Server.SCRAPE_PLAYWRIGHT else Server.SCRAPE_SCRIPT)
            :: (str "--cnpj=" ++ digits) :: flags /\
     flags = (if truthy_str (or_empty (Server.req_year r))
              then [str "--year=" ++ or_empty (Server.req_year r)] else [])
             ++ (if truthy_str (or_empty (Server.req_month r))
                 then [str "--month=" ++ or_empty (Server.req_month r)] else [])
             ++ (if Server.req_noHeadless r then [str "--no-headless"] else [])) /\
  key = digits ++ str "|" ++ or_empty (Server.req_year r) ++ str "|"
        ++ or_empty (Server.req_month r) /\
  fst (Server.getFromCache now key c) = None.
Proof.
  rewrite scrape_cases. cbv zeta.
  destruct (Nat.ltb_spec (length (digitsOf (Server.req_cnpj r))) 11) as [Hlt|Hge];
    [discriminate|].
  destruct (Server.getFromCache now _ c) as [[cached|] c'] eqn:E; [discriminate|].
  cbn [fst]. intros H. injection H as <- <-.
  split; [exact Hge|]. split; [|split; [|split]].
  - unfold digitsOf. apply forallb_forall. intros x Hx. now apply filter_In in Hx.
  - eexists. split; [|reflexivity].
    unfold Server.scrape_args. rewrite engine_choice. reflexivity.
  - reflexivity.
  - change (fst (Server.getFromCache now
                   (Server.request_key (digitsOf (Server.req_cnpj r)) r) c) = None).
    now rewrite E.
Qed.

Lemma X2_spawn_arguments_witness :
  exists flags,
    [str "scrape.js"; str "--cnpj=12345678000195"; str "--year=2024"]
    = str "scrape.js" :: (str "--cnpj=" ++ str "12345678000195") :: flags.
Proof.
  destruct (@X2_spawn_arguments nat 0
              {| Server.req_cnpj := Some (str "12.345.678/0001-95");
                 Server.req_year := Some (str "2024"); Server.req_month := None;
                 Server.req_noHeadless := false; Server.req_engine := Some (str "Playwright") |}
              [] [str "scrape.js"; str "--cnpj=12345678000195"; str "--year=2024"]
              (str "12345678000195|2024|"))
    as (_ & _ & (flags & Hargs & _) & _).
  - reflexivity.
  - exists flags. exact Hargs.
Defined.

Lemma flag_not_headless (pre rest : jsstring) c :
  In c pre -> ~ In c (str "--no-headless") -> pre ++ rest <> str "--no-headless".
Proof.
  intros Hin Hnot E. apply Hnot. rewrite <- E. apply in_or_app. auto.
Qed.

Lemma headless_flag_in (script cnpjArg y m : jsstring) (fy fm h : bool) :
  script = str "scrape.js" \/ script = str "scrape_playwright.js" ->
  In (str "--no-headless")
     ([script; str "--cnpj=" ++ cnpjArg]
      ++ (if fy then [str "--year=" ++ y] else [])
      ++ (if fm then [str "--month=" ++ m] else [])
      ++ (if h then [str "--no-headless"] else []))
  <-> h = true.
Proof.
  intros Hscript.
  assert (Hc : str "--cnpj=" ++ cnpjArg <> str "--no-headless").
  { apply (@flag_not_headless _ _ 61%N); [vm_compute; auto 10|].
    vm_compute. intuition discriminate. }
  assert (Hy : str "--year=" ++ y <> str "--no-headless").
  { apply (@flag_not_headless _ _ 61%N); [vm_compute; auto 10|].
    vm_compute. intuition discriminate. }
  assert (Hm : str "--month=" ++ m <> str "--no-headless").
  { apply (@flag_not_headless _ _ 61%N); [vm_compute; auto 10|].
    vm_compute. intuition discriminate. }
  assert (Hs : script <> str "--no-headless").
  { destruct Hscript as [-> | ->]; discriminate. }
  split.
  - intros H. cbn [app In] in H. destruct H as [H | [H | H]]; [congruence | congruence |].
    apply in_app_or in H as [H | H].
    { destruct fy; [destruct H as [H | []]; congruence | destruct H]. }
    apply in_app_or in H as [H | H].
    { destruct fm; [destruct H as [H | []]; congruence | destruct H]. }
    destruct h; [reflexivity | destruct H].
  - intros ->. cbn [app In]. right. right.
    apply in_or_app. right. apply in_or_app. right. simpl. auto.
Qed.

Lemma query_flag (q : Server.query) :
  Server.truthy_opt (Server.q_noHeadless q)
  && negb (streqb (or_empty (Server.q_noHeadless q)) (str "0"))
  = Server.req_noHeadless (as_request q).
Proof.
  unfold as_request, Server.truthy_opt. cbn [Server.req_noHeadless].
  destruct (Server.q_noHeadless q); reflexivity.
Qed.

Lemma get_as_post (V : Type) (now : Z) (q : Server.query) (c : Server.cache V) :
  Server.scrape_get now q c = Server.scrape now (as_request q) c.
Proof.
  unfold Server.scrape_get, Server.scrape, Server.request_key, Server.query_args,
    Server.scrape_args. rewrite query_flag. reflexivity.
Qed.

(** X3: the GET handler does what the POST handler does on the same
    fields, but for noHeadless: from the query string the flag
    --no-headless is passed when the field is a non-empty string other than
    0, while a POST passes it for every truthy value. *)
Theorem X3_get_as_post (V : Type) (now : Z) (q : Server.query) (c : Server.cache V) :
  Server.scrape_get now q c = Server.scrape now (as_request q) c /\
  (forall digits,
     In (str "--no-headless") (Server.query_args digits q) <->
     exists s, Server.q_noHeadless q = Some s /\ s <> [] /\ s <> str "0") /\
  (forall digits r,
     In (str "--no-headless") (Server.scrape_args digits r) <-> Server.req_noHeadless r = true).
Proof.
  split; [|split].
  - apply get_as_post.
  - intros digits. unfold Server.query_args. rewrite headless_flag_in.
    + rewrite query_flag. unfold as_request. cbn [Server.req_noHeadless].
      destruct (Server.q_noHeadless q) as [s|].
      * rewrite andb_true_iff, negb_true_iff, streqb_neq. split.
        -- intros [Ht Hz]. exists s. repeat split; auto. destruct s; [discriminate | discriminate].
        -- intros (s' & Hs & Hne & Hz). injection Hs as <-.
           split; [destruct s; [congruence | reflexivity] | exact Hz].
      * split; [discriminate|]. intros (s & Hs & _). discriminate.
    + destruct (streqb (or_str _ _) _); [right | left]; reflexivity.
  - intros digits r. unfold Server.scrape_args. apply headless_flag_in.
    destruct (streqb (or_str _ _) _); [right | left]; reflexivity.
Qed.

Lemma X3_get_as_post_witness :
  ~ In (str "--no-headless")
       (Server.query_args (str "12345678000195")
          {| Server.q_cnpj := Some (str "12345678000195"); Server.q_year := None;
             Server.q_month := None; Server.q_noHeadless := Some (str "0");
             Server.q_engine := None |}).
Proof.
  destruct (@X3_get_as_post nat 0
              {| Server.q_cnpj := Some (str "12345678000195"); Server.q_year := None;
                 Server.q_month := None; Server.q_noHeadless := Some (str "0");
                 Server.q_engine := None |} []) as (_ & Hget & _).
  intros H. apply Hget in H as (s & Hs & _ & Hz). injection Hs as <-. now apply Hz.
Defined.

Section MapSize.
Variable V : Type.
Implicit Types (m : jsmap V) (k : jsstring) (v : V).

Lemma map_keys_delete k m :
  map_keys (map_delete k m) = filter (fun k' => negb (streqb k' k)) (map_keys m).
Proof.
  unfold map_keys, map_delete. induction m as [|[k0 v0] m IH]; simpl; auto.
  destruct (streqb k0 k); simpl; now rewrite IH.
Qed.

Lemma NoDup_filter (f : jsstring -> bool) (l : list jsstring) : NoDup l -> NoDup (filter f l).
Proof.
  induction 1 as [|x l Hx Hl IH]; simpl; [constructor|].
  destruct (f x); auto. constructor; auto.
  intros H. apply filter_In in H as [H _]. contradiction.
Qed.

Lemma map_delete_nodup k m : NoDup (map_keys m) -> NoDup (map_keys (map_delete k m)).
Proof. rewrite map_keys_delete. apply NoDup_filter. Qed.

Lemma map_delete_size k m : map_size (map_delete k m) <= map_size m.
Proof. unfold map_size, map_delete. apply filter_length_le. Qed.

Lemma map_delete_present k m e :
  map_get k m = Some e -> map_size (map_delete k m) < map_size m.
Proof.
  unfold map_size, map_delete. induction m as [|[k0 v0] m IH]; simpl; [discriminate|].
  destruct (streqb k0 k); simpl.
  - intros _. pose proof (filter_length_le (fun kv : jsstring * V => negb (streqb (fst kv) k)) m).
    lia.
  - intros H. apply IH in H. lia.
Qed.

Lemma map_set_keys k v m :
  map_keys (map_set k v m) = if existsb (fun k' => streqb k' k) (map_keys m)
                             then map_keys m else map_keys m ++ [k].
Proof.
  unfold map_keys. induction m as [|[k0 v0] m IH]; simpl; auto.
  destruct (streqb k0 k) eqn:E; simpl; auto.
  rewrite IH. destruct (existsb _ (map fst m)); reflexivity.
Qed.

Lemma map_set_nodup k v m : NoDup (map_keys m) -> NoDup (map_keys (map_set k v m)).
Proof.
  intros H. rewrite map_set_keys.
  destruct (existsb (fun k' => streqb k' k) (map_keys m)) eqn:E; auto.
  apply NoDup_app; auto.
  - repeat constructor. intros [].
  - intros x Hx [Hk | []]. subst x.
    assert (Hex : existsb (fun k' => streqb k' k) (map_keys m) = true).
    { apply existsb_exists. exists k. split; auto. apply streqb_refl. }
    congruence.
Qed.

Lemma map_set_size k v m : map_size (map_set k v m) <= S (map_size m).
Proof.
  unfold map_size. induction m as [|[k0 v0] m IH]; simpl; auto.
  destruct (streqb k0 k); simpl; lia.
Qed.

End MapSize.

Section CacheSize.
Variable V : Type.

Lemma setToCache_ok now k v (c : Server.cache V) :
  cache_ok c -> cache_ok (Server.setToCache now k v c).
Proof.
  intros [Hnd Hsize]. unfold Server.setToCache.
  destruct (Nat.leb_spec Server.CACHE_MAX (map_size c)) as [Hfull|Hroom].
  - destruct c as [|[k0 e0] rest]; [unfold Server.CACHE_MAX in Hfull; simpl in Hfull; lia|].
    cbn [map_first_key]. split.
    + now apply map_set_nodup, map_delete_nodup.
    + pose proof (map_set_size k {| Server.ts := now; Server.value := v |}
                    (map_delete k0 ((k0, e0) :: rest))).
      assert (map_size (map_delete k0 ((k0, e0) :: rest)) < map_size ((k0, e0) :: rest)).
      { eapply map_delete_present. simpl. now rewrite streqb_refl. }
      lia.
  - split.
    + now apply map_set_nodup.
    + pose proof (map_set_size k {| Server.ts := now; Server.value := v |} c). lia.
Qed.

Lemma getFromCache_ok now k (c : Server.cache V) :
  cache_ok c -> cache_ok (snd (Server.getFromCache now k c)).
Proof.
  intros [Hnd Hsize]. unfold Server.getFromCache.
  destruct (map_get k c) as [e|] eqn:Hget; [|split; auto].
  destruct (now - Server.ts e >? Server.CACHE_TTL)%Z; cbn [snd]; split.
  - now apply map_delete_nodup.
  - pose proof (map_delete_size k c). lia.
  - now apply map_set_nodup, map_delete_nodup.
  - pose proof (map_set_size k e (map_delete k c)).
    pose proof (map_delete_present k c Hget). lia.
Qed.

End CacheSize.

(** X4: the cache never holds a key twice nor more than CACHE_MAX
    entries.  It is so when the server starts, and every request and every
    exit of an engine keeps it so: getFromCache, setToCache, the two
    handlers of /scrape and the exit handler. *)
Theorem X4_cache_capacity (V : Type) (now : Z) (c : Server.cache V) :
  cache_ok ([] : Server.cache V) /\
  (cache_ok c ->
   (forall key, cache_ok (snd (Server.getFromCache now key c))) /\
   (forall key v, cache_ok (Server.setToCache now key v c)) /\
   (forall r, cache_ok (snd (Server.scrape now r c))) /\
   (forall q, cache_ok (snd (Server.scrape_get now q c))) /\
   (forall key output, cache_ok (Server.on_exit now key output c))).
Proof.
  split.
  - split; [constructor | unfold Server.CACHE_MAX; simpl; lia].
  - intros Hok.
    assert (Hscrape : forall r, cache_ok (snd (Server.scrape now r c))).
    { intros r. rewrite scrape_cases. cbv zeta.
      destruct (length (digitsOf (Server.req_cnpj r)) <? 11); [exact Hok|].
      pose proof (@getFromCache_ok V now
                    (Server.request_key (digitsOf (Server.req_cnpj r)) r) c Hok) as H.
      destruct (Server.getFromCache now _ c) as [[cached|] c']; exact H. }
    split; [|split; [|split; [|split]]].
    + intros key. now apply getFromCache_ok.
    + intros key v. now apply setToCache_ok.
    + exact Hscrape.
    + intros q. rewrite get_as_post. apply Hscrape.
    + intros key [json|]; [now apply setToCache_ok | exact Hok].
Qed.

Lemma X4_cache_capacity_witness :
  cache_ok (Server.setToCache 5 (str "12345678000195|2024|") 7
              [(str "12345678000195|2023|", {| Server.ts := 0; Server.value := 3 |})]).
Proof.
  destruct (@X4_cache_capacity nat 5
              [(str "12345678000195|2023|", {| Server.ts := 0%Z; Server.value := 3 |})])
    as [_ H].
  destruct H as (_ & Hset & _).
  - split; [repeat constructor; intros [] | unfold Server.CACHE_MAX; simpl; lia].
  - apply Hset.
Defined.

Lemma split_at_bar (a a' b b' : jsstring) :
  ~ In cBar a -> ~ In cBar a' -> a ++ cBar :: b = a' ++ cBar :: b' -> a = a' /\ b = b'.
Proof.
  revert a'. induction a as [|x a IH]; intros [|x' a'] Ha Ha' E; simpl in E.
  - injection E as ->. auto.
  - injection E as E _. exfalso. apply Ha'. simpl. auto.
  - injection E as E _. exfalso. apply Ha. simpl. auto.
  - injection E as -> E. apply IH in E as [-> ->]; auto.
    + intros H. apply Ha. simpl. auto.
    + intros H. apply Ha'. simpl. auto.
Qed.

Lemma digits_no_bar (d : jsstring) : forallb is_digit d = true -> ~ In cBar d.
Proof.
  intros H Hin. rewrite forallb_forall in H. apply H in Hin. discriminate.
Qed.

(** X5: two requests get the same cache key only when they agree on the
    digits of the identifier, on the year and on the month (a missing field
    counting as the empty string), provided the year holds no vertical bar.
    The year is not checked by the handler: with a bar in it, requests that
    differ in year and month share a key. *)
Theorem X5_key_separates_requests (d1 d2 : jsstring) (r1 r2 : Server.request) :
  (forallb is_digit d1 = true -> forallb is_digit d2 = true ->
   ~ In cBar (or_empty (Server.req_year r1)) -> ~ In cBar (or_empty (Server.req_year r2)) ->
   Server.request_key d1 r1 = Server.request_key d2 r2 ->
   d1 = d2 /\ or_empty (Server.req_year r1) = or_empty (Server.req_year r2) /\
   or_empty (Server.req_month r1) = or_empty (Server.req_month r2)) /\
  Server.makeKey (Some d1) (Some (str "2024|1")) None
  = Server.makeKey (Some d1) (Some (str "2024")) (Some (str "1|")).
Proof.
  split.
  - intros Hd1 Hd2 Hy1 Hy2 E. unfold Server.request_key, Server.makeKey in E.
    cbn [or_empty] in E. change (str "|") with [cBar] in E. cbn [app] in E.
    apply split_at_bar in E as [-> E]; auto using digits_no_bar.
    apply split_at_bar in E as [-> ->]; auto.
  - reflexivity.
Qed.

Lemma X5_key_separates_witness :
  str "12345678000195" = str "12345678000195" /\ str "2024" = str "2024" /\
  ([] : jsstring) = [].
Proof.
  apply (@X5_key_separates_requests (str "12345678000195") (str "12345678000195")
           {| Server.req_cnpj := Some (str "12.345.678/0001-95");
              Server.req_year := Some (str "2024"); Server.req_month := None;
              Server.req_noHeadless := false; Server.req_engine := Some (str "playwright") |}
           {| Server.req_cnpj := Some (str "12345678000195");
              Server.req_year := Some (str "2024"); Server.req_month := Some [];
              Server.req_noHeadless := true; Server.req_engine := None |}).
  - reflexivity.
  - reflexivity.
  - vm_compute. intuition discriminate.
  - vm_compute. intuition discriminate.
  - reflexivity.
Defined.

(* ===================================================================== *)
(** * Amounts, currencies and where the records come from                *)
(* ===================================================================== *)

Lemma digit_not_space d : is_digit d = true -> is_space d = false.
Proof.
  unfold is_digit. intros H. apply andb_true_iff in H as [H1 H2].
  apply N.leb_le in H1, H2.
  assert (Hd : (d = 48 \/ d = 49 \/ d = 50 \/ d = 51 \/ d = 52 \/
                d = 53 \/ d = 54 \/ d = 55 \/ d = 56 \/ d = 57)%N) by lia.
  repeat (destruct Hd as [-> | Hd]; [reflexivity|]). subst d. reflexivity.
Qed.

Lemma trimStart_head c s : is_space c = false -> trimStart (c :: s) = c :: s.
Proof. intros H. simpl. now rewrite H. Qed.

Lemma trimEnd_last s d : is_space d = false -> trimEnd (s ++ [d]) = s ++ [d].
Proof.
  intros Hd. unfold trimEnd. rewrite rev_app_distr. cbn [rev app].
  rewrite trimStart_head by auto. cbn [rev]. now rewrite rev_involutive.
Qed.

Lemma trim_ends c s d :
  is_space c = false -> is_space d = false -> trim (c :: s ++ [d]) = c :: s ++ [d].
Proof.
  intros Hc Hd. unfold trim. rewrite trimStart_head by auto.
  apply (@trimEnd_last (c :: s) d Hd).
Qed.

Lemma take_digits_app D r :
  forallb is_digit D = true ->
  match r with [] => True | c :: _ => is_digit c = false end ->
  take_digits (D ++ r) = (D, r).
Proof.
  intros HD Hr. induction D as [|x D IH]; simpl in *.
  - destruct r as [|c r]; [reflexivity|]. simpl. now rewrite Hr.
  - apply andb_true_iff in HD as [Hx HD]. rewrite Hx, IH by auto. reflexivity.
Qed.

Lemma digit_cases d : is_digit d = true ->
  (d = 48 \/ d = 49 \/ d = 50 \/ d = 51 \/ d = 52 \/ d = 53 \/ d = 54 \/ d = 55 \/ d = 56 \/ d = 57)%N.
Proof.
  unfold is_digit. intros H. apply andb_true_iff in H as [H1 H2].
  apply N.leb_le in H1, H2. lia.
Qed.

Lemma parse_fraction D d1 d2 :
  forallb is_digit D = true -> is_digit d1 = true -> is_digit d2 = true ->
  parse_unsigned_decimal (D ++ [cDot; d1; d2])
  = Fin (Qmake (Z.of_N (decimal_value (D ++ [d1; d2]))) 100).
Proof.
  intros HD H1 H2. unfold parse_unsigned_decimal.
  rewrite take_digits_app by (auto; reflexivity).
  assert (Hfp : take_digits [d1; d2] = ([d1; d2], [])).
  { simpl. now rewrite H1, H2. }
  change [cDot; d1; d2] with (46%N :: [d1; d2]). cbv iota beta. rewrite Hfp.
  destruct D; reflexivity.
Qed.

Lemma Number_decimal D d1 d2 :
  forallb is_digit D = true -> is_digit d1 = true -> is_digit d2 = true ->
  Number (D ++ [cDot; d1; d2])
  = Fin (Qmake (Z.of_N (decimal_value (D ++ [d1; d2]))) 100).
Proof.
  intros HD H1 H2. rewrite <- parse_fraction by auto.
  unfold Number.
  assert (Htrim : trim (D ++ [cDot; d1; d2]) = D ++ [cDot; d1; d2]).
  { destruct D as [|x D].
    - apply (@trim_ends cDot [d1] d2); [reflexivity | now apply digit_not_space].
    - replace ((x :: D) ++ [cDot; d1; d2]) with (x :: (D ++ [cDot; d1]) ++ [d2])
        by (simpl; now rewrite <- app_assoc).
      apply trim_ends; apply digit_not_space; auto.
      simpl in HD. now apply andb_true_iff in HD as [HD _]. }
  rewrite Htrim. clear Htrim.
  destruct D as [|x D]; [reflexivity|].
  simpl in HD. apply andb_true_iff in HD as [Hx HD].
  pose proof (@digit_cases _ Hx) as Hc.
  destruct Hc as [-> | Hc].
  - destruct D as [|y D]; [reflexivity|].
    simpl in HD. apply andb_true_iff in HD as [Hy HD].
    pose proof (@digit_cases _ Hy) as Hc.
    repeat (destruct Hc as [-> | Hc]; [reflexivity|]). subst y. reflexivity.
  - repeat (destruct Hc as [-> | Hc]; [reflexivity|]). subst x. reflexivity.
Qed.

Lemma stripped_app a b : stripped (a ++ b) = stripped a ++ stripped b.
Proof. unfold stripped. apply filter_app. Qed.

Lemma stripped_marker mk : mk = [] \/ currency_marker mk -> stripped mk = [].
Proof.
  intros [-> | (ws & -> & Hws)]; [reflexivity|].
  rewrite stripped_app. cbn [stripped filter app]. 
  unfold stripped. induction ws as [|w ws IH]; [reflexivity|].
  apply all_of_cons in Hws as [Hw Hws]. simpl.
  unfold strip_class at 1. rewrite Hw. rewrite !orb_true_r. simpl. now apply IH.
Qed.

Lemma stripped_digits ds :
  all_of (fun c => is_digit c || is_char cDot c) ds -> stripped ds = filter is_digit ds.
Proof.
  unfold stripped. induction ds as [|c ds IH]; intros H; [reflexivity|].
  apply all_of_cons in H as [Hc H]. simpl. rewrite IH by auto.
  destruct (is_digit c) eqn:Hd.
  - now rewrite digit_not_stripped.
  - simpl in Hc. unfold strip_class. rewrite Hc. now rewrite !orb_true_r.
Qed.

Lemma replace_first_comma D rest :
  forallb is_digit D = true ->
  replace_first [cComma] [cDot] (D ++ cComma :: rest) = D ++ cDot :: rest.
Proof.
  intros HD. induction D as [|x D IH]; [reflexivity|].
  simpl in HD. apply andb_true_iff in HD as [Hx HD].
  cbn [app replace_first prefixb].
  assert (Hne : (cComma =? x)%N = false).
  { apply N.eqb_neq. intros <-. discriminate. }
  rewrite Hne. cbn [andb]. now rewrite IH.
Qed.

Lemma filter_digits_all ds : forallb is_digit (filter is_digit ds) = true.
Proof. apply forallb_forall. intros x Hx. now apply filter_In in Hx. Qed.

(** X6: the amount of a part that is a currency literal, the marker R$
    with its white space or none, then digits and dots, a comma and two
    digits, is the number that the digits denote in hundredths: the
    marker and the dots are left out and the comma is read as the decimal
    point.  The part is the last one in which an amount is looked for, and
    the literal has at most 15 significant digits, so that the double of
    the engine prints as the literal; a longer literal is rounded. *)
Theorem X6_amount_of_currency_token (pre post : list jsstring) (mk ds : jsstring) (d1 d2 : N) :
  (mk = [] \/ currency_marker mk) ->
  all_of (fun c => is_digit c || is_char cDot c) ds ->
  is_digit d1 = true -> is_digit d2 = true ->
  (cents ds d1 d2 < 10 ^ 15)%N ->
  has_piece amount_shaped (mk ++ ds ++ [cComma; d1; d2]) ->
  (forall q, In q post -> ~ has_piece amount_shaped q) ->
  rowAmount (pre ++ (mk ++ ds ++ [cComma; d1; d2] : jsstring) :: post)
  = VNum (Fin (Z.of_N (cents ds d1 d2) # 100)).
Proof.
  intros Hmk Hds H1 H2 _ Hp Hpost. unfold rowAmount.
  rewrite (@amountPart_last pre _ post Hp Hpost), (@piece_truthy _ Hp), strip_is_stripped.
  rewrite !stripped_app, (@stripped_marker _ Hmk), (@stripped_digits _ Hds). cbn [app].
  assert (Htail : stripped [cComma; d1; d2] = [cComma; d1; d2]).
  { unfold stripped. cbn [filter]. rewrite (@digit_not_stripped _ H1), (@digit_not_stripped _ H2).
    reflexivity. }
  rewrite Htail. change (str ",") with [cComma]. change (str ".") with [cDot].
  rewrite replace_first_comma by apply filter_digits_all.
  rewrite Number_decimal by (auto using filter_digits_all).
  unfold cents. destruct (filter is_digit ds); reflexivity.
Qed.

Lemma X6_amount_witness :
  rowAmount [str "2024"; str "R$ 1.234,56"] = VNum (Fin (123456 # 100)).
Proof.
  apply (@X6_amount_of_currency_token [str "2024"] [] (str "R$ ") (str "1.234") 53 54).
  - right. exists [32%N]. split; reflexivity.
  - reflexivity.
  - reflexivity.
  - reflexivity.
  - reflexivity.
  - apply test_amount_shape. reflexivity.
  - intros q [].
Defined.

Lemma pieces_in_order_later ms : forall x b,
  pieces_in_order ms b -> pieces_in_order ms (x ++ b).
Proof.
  destruct ms as [|m ms]; intros x b H; [exact I|].
  destruct H as (a & b' & -> & H). exists (x ++ a), b'. now rewrite <- app_assoc.
Qed.

Lemma matches_from_pieces r : forall s i skip,
  pieces_in_order (Playwright.matches_from r i s skip) (skipn skip s).
Proof.
  induction s as [|c s IH]; intros i skip.
  - destruct skip; simpl; [|exact I].
    destruct (match_at r i []); simpl; [|exact I].
    exists [], []. split; [now destruct (n - i) | exact I].
  - destruct skip as [|skip]; [|apply IH].
    cbn [Playwright.matches_from skipn].
    destruct (match_at r i (c :: s)) as [e|].
    + exists [], (skipn (e - i) (c :: s)). split.
      * simpl. now rewrite firstn_skipn.
      * destruct (e - i) as [|n] eqn:E.
        -- cbn [skipn]. apply (@pieces_in_order_later _ [c] s). apply (IH (S i) 0).
        -- cbn [skipn]. replace (S n - 1) with n by lia. apply IH.
    + apply (@pieces_in_order_later _ [c] s). apply (IH (S i) 0).
Qed.

Lemma matches_from_In r : forall s i skip m,
  In m (Playwright.matches_from r i s skip) ->
  exists a b idx e, s = a ++ b /\ match_at r idx b = Some e /\ m = firstn (e - idx) b.
Proof.
  induction s as [|c s IH]; intros i skip m.
  - destruct skip; simpl; [|intros []].
    destruct (match_at r i []) as [e|] eqn:E; simpl; [|intros []].
    intros [<- | []]. exists [], [], i, e. auto.
  - assert (Hlater : forall i' skip', In m (Playwright.matches_from r i' s skip') ->
              exists a b idx e, c :: s = a ++ b /\ match_at r idx b = Some e /\
                                m = firstn (e - idx) b).
    { intros i' skip' H. apply IH in H as (a & b & idx & e & -> & Hm & ->).
      exists (c :: a), b, idx, e. auto. }
    destruct skip as [|skip]; cbn [Playwright.matches_from]; [|apply Hlater].
    destruct (match_at r i (c :: s)) as [e|] eqn:E; [|apply Hlater].
    intros [<- | H]; [|eapply Hlater; eauto].
    exists [], (c :: s), i, e. auto.
Qed.

Lemma matches_from_nil r : forall s i,
  Playwright.matches_from r i s 0 = [] <-> search r i s = None.
Proof.
  induction s as [|c s IH]; intros i; simpl.
  - destruct (match_at r i []); split; congruence.
  - destruct (match_at r i (c :: s)); [split; discriminate|]. apply IH.
Qed.

Lemma match_currency_shaped idx b e :
  match_at currencyRegex idx b = Some e ->
  currency_shaped (firstn (e - idx) b) /\ exists t, b = firstn (e - idx) b ++ t.
Proof.
  intros H. apply match_at_Some in H as [t H].
  apply M_currency in H as (m & -> & -> & Hm).
  replace (idx + length m - idx) with (length m + 0) by lia.
  rewrite firstn_app_2. cbn [firstn]. rewrite app_nil_r. eauto.
Qed.

Lemma test_currency_sound s li :
  fst (test_currency s li) = true -> has_piece currency_shaped s.
Proof.
  unfold test_currency, test_g. destruct (length s <? li); [discriminate|].
  destruct (search currencyRegex li (skipn li s)) as [[a e]|] eqn:E; [|discriminate].
  intros _. apply search_matches in E as (pre & b & j & t & Hs & H).
  apply M_currency in H as (m & -> & _ & Hm).
  exists (firstn li s ++ pre), m, t. split; [|exact Hm].
  rewrite <- app_assoc, <- Hs. now rewrite firstn_skipn.
Qed.

(** X7: the currencies of a row in the sequential engine, the matches of
    currencyRegex in the row text.  Each is a currency-shaped piece of the
    text; they are disjoint pieces of it, in the order in which they occur;
    the list is empty exactly when the text has no currency-shaped piece;
    and the call leaves lastIndex at 0, whatever it was. *)
Theorem X7_currencies_of_row (s : jsstring) (li : nat) :
  (forall c, In c (fst (Playwright.match_currency s li)) -> currency_shaped c /\ occurs c s) /\
  pieces_in_order (fst (Playwright.match_currency s li)) s /\
  (fst (Playwright.match_currency s li) = [] <-> ~ has_piece currency_shaped s) /\
  snd (Playwright.match_currency s li) = 0.
Proof.
  unfold Playwright.match_currency. cbn [fst snd]. split; [|split; [|split]].
  - intros c H. apply matches_from_In in H as (a & b & idx & e & -> & Hm & ->).
    apply match_currency_shaped in Hm as [Hshape [t Ht]]. split; [exact Hshape|].
    exists a, t. now rewrite <- Ht.
  - apply (matches_from_pieces currencyRegex s 0 0).
  - split.
    + intros H Hp. apply matches_from_nil in H. apply search_None in H. apply H.
      apply test_true, test_currency_shape, Hp.
    + intros H. apply matches_from_nil, search_None. intros Hm. apply H.
      apply test_currency_shape, test_true, Hm.
  - reflexivity.
Qed.

Lemma X7_currencies_witness :
  currency_shaped (str "5,50") /\ occurs (str "5,50") (str "R$ 10,00 e 5,50").
Proof.
  destruct (X7_currencies_of_row (str "R$ 10,00 e 5,50") 3) as [H _].
  apply H. vm_compute. auto.
Defined.

Lemma orM_true (a b : RE bool) li :
  fst (orM a b li) = true -> fst (a li) = true \/ exists li', fst (b li') = true.
Proof.
  unfold orM, bind, ret. destruct (a li) as [[|] li1]; cbn [fst]; auto.
  intros H. right. eauto.
Qed.

Lemma someM_true l : forall li,
  fst (Playwright.someM test_currency l li) = true ->
  exists x, In x l /\ has_piece currency_shaped x.
Proof.
  induction l as [|x l IH]; intros li; cbn [Playwright.someM].
  - discriminate.
  - intros H. apply orM_true in H as [H | [li' H]].
    + exists x. split; [simpl; auto | eapply test_currency_sound; eauto].
    + apply IH in H as (y & Hy & Hp). exists y. simpl. auto.
Qed.

Lemma row_hit year rowText li :
  fst (orM (ret (includes rowText year)) (test_currency rowText) li) = true ->
  occurs year rowText \/ has_piece currency_shaped rowText.
Proof.
  intros H. apply orM_true in H as [H | [li' H]].
  - left. now apply includes_spec.
  - right. eapply test_currency_sound; eauto.
Qed.

Lemma truthy_nonempty (s : jsstring) : truthy_str s = true <-> s <> [].
Proof. destruct s; simpl; split; congruence. Qed.

Lemma looseRow_sound year rowText li rec :
  In rec (fst (looseRow year rowText li)) ->
  rec = looseRecord rowText /\ rowText <> [] /\
  (occurs year rowText \/ has_piece currency_shaped rowText).
Proof.
  unfold looseRow. destruct (truthy_str rowText) eqn:Et; [|simpl; intros []].
  unfold bind at 1.
  destruct (orM (ret (includes rowText year)) (test_currency rowText) li) as [hit li'] eqn:E.
  destruct hit; [|simpl; intros []].
  cbn [ret fst]. intros [<- | []]. split; [reflexivity|]. split.
  - now apply truthy_nonempty.
  - apply (@row_hit year rowText li). now rewrite E.
Qed.

Section Soundness.
Variable toLowerCase : jsstring -> jsstring.
Variable year : jsstring.

Lemma puppeteer_table_sound t li rec :
  In rec (fst (Puppeteer.extractTable toLowerCase year t li)) ->
  has_piece currency_shaped (table_text t) /\
  ((Puppeteer.hasExpected (Puppeteer.tableHeaders toLowerCase t) = true /\
    exists r, In r (skipn 1 (table_rows t)) /\
      rec = Puppeteer.headerRecord (Puppeteer.tableHeaders toLowerCase t) r) \/
   (Puppeteer.hasExpected (Puppeteer.tableHeaders toLowerCase t) = false /\
    exists r, In r (table_rows t) /\ trim (row_text r) <> [] /\
      (occurs year (trim (row_text r)) \/ has_piece currency_shaped (trim (row_text r))) /\
      rec = looseRecord (trim (row_text r)))).
Proof.
  unfold Puppeteer.extractTable, Puppeteer.skipTable, bind, ret.
  destruct (test_currency (table_text t) li) as [money li'] eqn:Em.
  destruct money; [|simpl; intros []]. cbn [negb].
  assert (Hmoney : has_piece currency_shaped (table_text t)).
  { apply (@test_currency_sound _ li). now rewrite Em. }
  destruct (Puppeteer.hasExpected (Puppeteer.tableHeaders toLowerCase t)) eqn:Eh.
  - unfold Puppeteer.hasExpected in Eh. rewrite (hasExpected_nonempty _ Eh). cbn [andb fst].
    rewrite map_mapKey_id. intros H. apply in_map_iff in H as (r & <- & Hr).
    split; [exact Hmoney|]. left. split; [reflexivity|]. eauto.
  - cbn [andb]. intros H. apply forM_In in H as (r & li'' & Hr & H).
    apply looseRow_sound in H as (-> & Hne & Hhit).
    split; [exact Hmoney|]. right. split; [reflexivity|]. exists r. auto.
Qed.

Lemma parallel_table_sound t li rec :
  In rec (fst (Parallel.extractTable toLowerCase year t li)) ->
  has_piece currency_shaped (table_text t) /\
  ((Parallel.hasExpected (Parallel.tableHeaders toLowerCase t) = true /\
    exists r, In r (skipn 1 (table_rows t)) /\
      rec = Parallel.headerRecord (Parallel.tableHeaders toLowerCase t) r) \/
   (Parallel.hasExpected (Parallel.tableHeaders toLowerCase t) = false /\
    exists r, In r (table_rows t) /\ trim (row_text r) <> [] /\
      (occurs year (trim (row_text r)) \/ has_piece currency_shaped (trim (row_text r))) /\
      rec = looseRecord (trim (row_text r)))).
Proof.
  unfold Parallel.extractTable, Parallel.skipTable, bind, ret.
  destruct (test_currency (table_text t) li) as [money li'] eqn:Em.
  destruct money; [|simpl; intros []]. cbn [negb].
  assert (Hmoney : has_piece currency_shaped (table_text t)).
  { apply (@test_currency_sound _ li). now rewrite Em. }
  destruct (Parallel.hasExpected (Parallel.tableHeaders toLowerCase t)) eqn:Eh.
  - unfold Parallel.hasExpected in Eh. rewrite (hasExpected_nonempty _ Eh). cbn [andb fst].
    rewrite map_mapKey_id. intros H. apply in_map_iff in H as (r & <- & Hr).
    split; [exact Hmoney|]. left. split; [reflexivity|]. eauto.
  - cbn [andb]. intros H. apply forM_In in H as (r & li'' & Hr & H).
    apply looseRow_sound in H as (-> & Hne & Hhit).
    split; [exact Hmoney|]. right. split; [reflexivity|]. exists r. auto.
Qed.

End Soundness.

Lemma trimStart_split s : exists a, s = a ++ trimStart s /\ all_of is_space a.
Proof.
  induction s as [|c s (a & Ha & Hsp)]; [now exists []|].
  simpl. destruct (is_space c) eqn:E.
  - exists (c :: a). simpl. split; [now rewrite <- Ha | apply all_of_cons; auto].
  - now exists [].
Qed.

Lemma trimStart_head_or_nil s :
  match trimStart s with [] => True | c :: _ => is_space c = false end.
Proof.
  induction s as [|c s IH]; simpl; auto. destruct (is_space c) eqn:E; auto.
Qed.

Lemma trimStart_fixed s :
  match s with [] => True | c :: _ => is_space c = false end -> trimStart s = s.
Proof. destruct s as [|c s]; simpl; auto. now intros ->. Qed.

Lemma trimStart_idem s : trimStart (trimStart s) = trimStart s.
Proof. apply trimStart_fixed, trimStart_head_or_nil. Qed.

Lemma trimStart_snoc x c : is_space c = false -> trimStart (x ++ [c]) = trimStart x ++ [c].
Proof.
  intros Hc. induction x as [|y x IH]; simpl.
  - now rewrite Hc.
  - destruct (is_space y); auto.
Qed.

Lemma all_of_rev (p : N -> bool) l : all_of p l -> all_of p (rev l).
Proof.
  unfold all_of. rewrite !forallb_forall. intros H x Hx. apply H. now apply in_rev.
Qed.

Lemma trimEnd_split s : exists b, s = trimEnd s ++ b /\ all_of is_space b.
Proof.
  unfold trimEnd. destruct (trimStart_split (rev s)) as (a & Ha & Hsp).
  exists (rev a). split.
  - rewrite <- rev_app_distr, <- Ha. now rewrite rev_involutive.
  - now apply all_of_rev.
Qed.

Lemma trimEnd_keeps_head c s :
  is_space c = false -> exists m, trimEnd (c :: s) = c :: m.
Proof.
  intros Hc. unfold trimEnd. cbn [rev]. rewrite trimStart_snoc by auto.
  rewrite rev_app_distr. simpl. eauto.
Qed.

Lemma trimEnd_idem s : trimEnd (trimEnd s) = trimEnd s.
Proof. unfold trimEnd. now rewrite rev_involutive, trimStart_idem. Qed.

Lemma trim_idem s : trim (trim s) = trim s.
Proof.
  unfold trim. pose proof (trimStart_head_or_nil s) as H.
  destruct (trimStart s) as [|c u]; [reflexivity|].
  destruct (@trimEnd_keeps_head c u H) as [m Hm]. rewrite Hm.
  rewrite trimStart_head by auto. rewrite <- Hm. apply trimEnd_idem.
Qed.

Lemma trim_split s : exists a b, s = a ++ trim s ++ b /\ all_of is_space a /\ all_of is_space b.
Proof.
  destruct (trimStart_split s) as (a & Ha & Hsa).
  destruct (trimEnd_split (trimStart s)) as (b & Hb & Hsb).
  exists a, b. unfold trim. rewrite <- Hb. auto.
Qed.

Section Sequential.
Variable toLowerCase : jsstring -> jsstring.
Variable year : jsstring.

Lemma nonTableRow_sound row li rec :
  In rec (fst (Playwright.nonTableRow year row li)) ->
  trim row <> [] /\ rec = nonTableRecord year (trim row) /\
  (occurs year (trim row) \/ has_piece currency_shaped (trim row)).
Proof.
  unfold Playwright.nonTableRow. destruct (truthy_str (trim row)) eqn:Et; [|simpl; intros []].
  unfold bind at 1.
  destruct (orM (ret (includes (trim row) year)) (test_currency (trim row)) li) as [hit li'] eqn:E.
  destruct hit; [|simpl; intros []].
  unfold bind, ret, Playwright.match_currency. cbn [fst]. intros [<- | []].
  split; [now apply truthy_nonempty|]. split; [reflexivity|].
  apply (@row_hit year (trim row) li). now rewrite E.
Qed.

Lemma tableRow_sound headers r li rec :
  In rec (fst (Playwright.tableRow year headers r li)) ->
  trim (row_text r) <> [] /\
  rec = Playwright.tableRecord year headers r (fst (Playwright.match_currency (row_text r) 0)) /\
  (has_piece currency_shaped (row_text r) \/ occurs year (row_text r) \/
   exists cell, In cell (row_cells r) /\ has_piece currency_shaped cell).
Proof.
  unfold Playwright.tableRow. destruct (truthy_str (trim (row_text r))) eqn:Et; [|simpl; intros []].
  unfold bind at 1.
  destruct (orM (test_currency (row_text r))
                (orM (ret (includes (row_text r) year))
                     (Playwright.someM test_currency (row_cells r))) li) as [hit li'] eqn:E.
  destruct hit; [|simpl; intros []].
  unfold bind, ret, Playwright.match_currency. cbn [fst]. intros [<- | []].
  split; [now apply truthy_nonempty|]. split; [reflexivity|].
  assert (H : fst (orM (test_currency (row_text r))
                (orM (ret (includes (row_text r) year))
                     (Playwright.someM test_currency (row_cells r))) li) = true)
    by now rewrite E.
  apply orM_true in H as [H | [li1 H]].
  - left. eapply test_currency_sound; eauto.
  - apply orM_true in H as [H | [li2 H]].
    + right. left. now apply includes_spec.
    + right. right. eapply someM_true; eauto.
Qed.

Lemma sequential_table_sound t li rec :
  In rec (fst (Playwright.extractTable toLowerCase year t li)) ->
  (has_piece currency_shaped (table_text t) \/ occurs year (table_text t)) /\
  exists r,
    In r (skipn (snd (Playwright.headersOf toLowerCase (table_rows t))) (table_rows t)) /\
    trim (row_text r) <> [] /\
    rec = Playwright.tableRecord year (fst (Playwright.headersOf toLowerCase (table_rows t))) r
            (fst (Playwright.match_currency (row_text r) 0)) /\
    (has_piece currency_shaped (row_text r) \/ occurs year (row_text r) \/
     exists cell, In cell (row_cells r) /\ has_piece currency_shaped cell).
Proof.
  unfold Playwright.extractTable, Playwright.skipTable, bind, ret.
  destruct (test_currency (table_text t) li) as [money li'] eqn:Em.
  destruct (negb money && negb (includes (table_text t) year)) eqn:Eskip; [simpl; intros []|].
  assert (Hpass : has_piece currency_shaped (table_text t) \/ occurs year (table_text t)).
  { destruct money.
    - left. apply (@test_currency_sound _ li). now rewrite Em.
    - right. apply includes_spec. simpl in Eskip.
      now destruct (includes (table_text t) year). }
  destruct (table_rows t) as [|r0 rows] eqn:Erows; [simpl; intros []|].
  destruct (Playwright.headersOf toLowerCase (r0 :: rows)) as [headers startRow].
  cbn [fst snd]. intros H. apply forM_In in H as (r & li'' & Hr & H).
  apply tableRow_sound in H as (Hne & -> & Hhit).
  split; [exact Hpass|]. exists r. auto.
Qed.

Lemma sequential_container_sound c li rec :
  In rec (fst (Playwright.extractContainer toLowerCase year c li)) ->
  (has_piece currency_shaped (Playwright.containerText c)
   \/ occurs year (Playwright.containerText c)) /\
  ((exists text rows row, c = CBox text [] rows /\ In row rows /\ trim row <> [] /\
      rec = nonTableRecord year (trim row) /\
      (occurs year (trim row) \/ has_piece currency_shaped (trim row))) \/
   (exists t r, In t (Playwright.containerTables c) /\
      (has_piece currency_shaped (table_text t) \/ occurs year (table_text t)) /\
      In r (skipn (snd (Playwright.headersOf toLowerCase (table_rows t))) (table_rows t)) /\
      trim (row_text r) <> [] /\
      rec = Playwright.tableRecord year (fst (Playwright.headersOf toLowerCase (table_rows t))) r
              (fst (Playwright.match_currency (row_text r) 0)) /\
      (has_piece currency_shaped (row_text r) \/ occurs year (row_text r) \/
       exists cell, In cell (row_cells r) /\ has_piece currency_shaped cell))).
Proof.
  unfold Playwright.extractContainer, Playwright.skipContainer, bind, ret.
  destruct (test_currency (Playwright.containerText c) li) as [money li'] eqn:Em.
  destruct (negb money && negb (includes (Playwright.containerText c) year)) eqn:Eskip;
    [simpl; intros []|].
  assert (Hpass : has_piece currency_shaped (Playwright.containerText c)
                  \/ occurs year (Playwright.containerText c)).
  { destruct money.
    - left. apply (@test_currency_sound _ li). now rewrite Em.
    - right. apply includes_spec. simpl in Eskip.
      now destruct (includes (Playwright.containerText c) year). }
  intros H. split; [exact Hpass|].
  destruct (Playwright.containerTables c) as [|t0 ts] eqn:Et.
  - destruct c as [t | text tables rows]; [simpl in H; destruct H|].
    simpl in Et. subst tables.
    apply forM_In in H as (row & li'' & Hrow & H).
    apply nonTableRow_sound in H as (Hne & -> & Hhit).
    left. exists text, rows, row. auto.
  - apply forM_In in H as (t & li'' & Ht & H).
    apply sequential_table_sound in H as (Htp & r & Hr & Hne & -> & Hhit).
    right. exists t, r. auto 6.
Qed.

End Sequential.

(** X8: what the Puppeteer engine and the engine with one page per year
    never extract, whatever lastIndex is when a test is made.  Every record
    comes from a table whose text holds a currency-shaped piece.  In a
    table with a header cell of the vocabulary it is the record of a row
    after the first; in any other table it is the loose record of a row
    whose trimmed text is not empty and holds the year or a
    currency-shaped piece. *)
Theorem X8_records_need_amount_or_year (toLowerCase : jsstring -> jsstring)
        (year : jsstring) (tables : list table) (rec : jsval) :
  (In rec (Puppeteer.extractDebits toLowerCase year tables) ->
   exists t, In t tables /\ has_piece currency_shaped (table_text t) /\
     ((Puppeteer.hasExpected (Puppeteer.tableHeaders toLowerCase t) = true /\
       exists r, In r (skipn 1 (table_rows t)) /\
         rec = Puppeteer.headerRecord (Puppeteer.tableHeaders toLowerCase t) r) \/
      (Puppeteer.hasExpected (Puppeteer.tableHeaders toLowerCase t) = false /\
       loose_from year t rec))) /\
  (In rec (Parallel.extractDebits toLowerCase year tables) ->
   exists t, In t tables /\ has_piece currency_shaped (table_text t) /\
     ((Parallel.hasExpected (Parallel.tableHeaders toLowerCase t) = true /\
       exists r, In r (skipn 1 (table_rows t)) /\
         rec = Parallel.headerRecord (Parallel.tableHeaders toLowerCase t) r) \/
      (Parallel.hasExpected (Parallel.tableHeaders toLowerCase t) = false /\
       loose_from year t rec))).
Proof.
  split; intros H.
  - unfold Puppeteer.extractDebits in H. apply forM_In in H as (t & li & Ht & H).
    apply puppeteer_table_sound in H as [Hmoney [Hh | [Hexp (r & Hr & Hne & Hhit & ->)]]].
    + exists t. auto.
    + exists t. split; [exact Ht|]. split; [exact Hmoney|]. right. split; [exact Hexp|].
      exists r. unfold passes. tauto.
  - unfold Parallel.extractDebits in H. apply forM_In in H as (t & li & Ht & H).
    apply parallel_table_sound in H as [Hmoney [Hh | [Hexp (r & Hr & Hne & Hhit & ->)]]].
    + exists t. auto.
    + exists t. split; [exact Ht|]. split; [exact Hmoney|]. right. split; [exact Hexp|].
      exists r. unfold passes. tauto.
Qed.

Lemma X8_records_witness :
  exists t, In t [Examples.looseTable] /\ has_piece currency_shaped (table_text t) /\
    ((Puppeteer.hasExpected (Puppeteer.tableHeaders Examples.toLowerCase t) = true /\
      exists r, In r (skipn 1 (table_rows t)) /\
        looseRecord (str "2024  12.50")
        = Puppeteer.headerRecord (Puppeteer.tableHeaders Examples.toLowerCase t) r) \/
     (Puppeteer.hasExpected (Puppeteer.tableHeaders Examples.toLowerCase t) = false /\
      loose_from (str "2024") t (looseRecord (str "2024  12.50")))).
Proof.
  destruct (X8_records_need_amount_or_year Examples.toLowerCase (str "2024")
              [Examples.looseTable] (looseRecord (str "2024  12.50"))) as [H _].
  apply H. vm_compute. auto.
Defined.

(** X9: what the sequential engine never extracts, whatever lastIndex is
    when a test is made.  Every record comes from a container whose text
    holds a currency-shaped piece or the year: from a row of a container
    without tables, whose trimmed text is not empty and holds the year or
    a currency-shaped piece; or from a row, after the header row, of a
    table whose text holds one of the two, the row text not blank and the
    row text or one of the cells holding a currency-shaped piece, or the
    row text the year.  The record holds the text of the row under raw and
    the matches of currencyRegex in that text under currencies, whatever
    the headers are. *)
Theorem X9_sequential_records (toLowerCase : jsstring -> jsstring)
        (year : jsstring) (containers : list container) (rec : jsval) :
  In rec (Playwright.extractDebits toLowerCase year containers) ->
  (exists c, In c containers /\ passes year (Playwright.containerText c) /\
             (box_row year c rec \/ table_row toLowerCase year c rec)) /\
  (exists fields text,
     rec = VObj fields /\ trim text <> [] /\
     obj_get (str "raw") fields = Some (VStr text) /\
     obj_get (str "currencies") fields = Some (strs (fst (Playwright.match_currency text 0)))).
Proof.
  intros H. unfold Playwright.extractDebits in H. apply forM_In in H as (c & li & Hc & H).
  apply sequential_container_sound in H as [Hpass [Hbox | Htab]].
  - destruct Hbox as (text & rows & row & -> & Hrow & Hne & -> & Hhit). split.
    + exists (CBox text [] rows). split; [exact Hc|]. split; [unfold passes; tauto|].
      left. exists text, rows, row. unfold passes. tauto.
    + eexists. exists (trim row). split; [reflexivity|].
      split; [|split; reflexivity].
      now rewrite trim_idem.
  - destruct Htab as (t & r & Ht & Htp & Hr & Hne & -> & Hhit). split.
    + exists c. split; [exact Hc|]. split; [unfold passes; tauto|].
      right. exists t, r. unfold passes. tauto.
    + destruct (tableRecord_shape year (fst (Playwright.headersOf toLowerCase (table_rows t))) r
                  (fst (Playwright.match_currency (row_text r) 0)))
        as (fields & Hf & _ & Hraw & Hcur).
      exists fields, (row_text r). auto.
Qed.

Lemma X9_sequential_records_witness :
  exists c, In c [CTable Examples.plainTable] /\
    passes (str "2024") (Playwright.containerText c) /\
    (box_row (str "2024") c
       (Playwright.tableRecord (str "2024") [str "col_0"; str "col_1"]
          (Examples.cellsRow [str "2024"; str "10,00"]) [str "10,00"]) \/
     table_row Examples.toLowerCase (str "2024") c
       (Playwright.tableRecord (str "2024") [str "col_0"; str "col_1"]
          (Examples.cellsRow [str "2024"; str "10,00"]) [str "10,00"])).
Proof.
  destruct (@X9_sequential_records Examples.toLowerCase (str "2024")
              [CTable Examples.plainTable]
              (Playwright.tableRecord (str "2024") [str "col_0"; str "col_1"]
                 (Examples.cellsRow [str "2024"; str "10,00"]) [str "10,00"])) as [H _].
  - vm_compute. auto.
  - exact H.
Defined.

(* ===================================================================== *)
(** * Keys of the records, the header row and the parts of a row         *)
(* ===================================================================== *)

Lemma obj_keys_set_eq k v o :
  obj_keys (obj_set k v o)
  = if existsb (fun k' => streqb k' k) (obj_keys o) then obj_keys o else obj_keys o ++ [k].
Proof.
  unfold obj_keys. induction o as [|[k0 v0] o IH]; simpl; auto.
  destruct (streqb k0 k) eqn:E; simpl; auto.
  rewrite IH. destruct (existsb _ (map fst o)); reflexivity.
Qed.

Lemma existsb_streqb k l : existsb (fun k' => streqb k' k) l = true <-> In k l.
Proof.
  rewrite existsb_exists. split.
  - intros (x & Hx & E). apply streqb_eq in E. now subst.
  - intros H. exists k. split; auto. apply streqb_refl.
Qed.

Lemma obj_set_nodup k v o : NoDup (obj_keys o) -> NoDup (obj_keys (obj_set k v o)).
Proof.
  intros H. rewrite obj_keys_set_eq.
  destruct (existsb (fun k' => streqb k' k) (obj_keys o)) eqn:E; auto.
  apply NoDup_app; auto.
  - repeat constructor. intros [].
  - intros x Hx [Hk | []]. subst x. apply existsb_streqb in Hx. congruence.
Qed.

Lemma obj_set_In k v o x : In x (obj_keys (obj_set k v o)) <-> In x (obj_keys o) \/ x = k.
Proof.
  rewrite obj_keys_set_eq.
  destruct (existsb (fun k' => streqb k' k) (obj_keys o)) eqn:E.
  - apply existsb_streqb in E. split; auto. intros [H | ->]; auto.
  - rewrite in_app_iff. simpl. intuition.
Qed.

Lemma zipRow_keys_same keys : forall k v1 v2 o1 o2,
  obj_keys o1 = obj_keys o2 ->
  obj_keys (zipRow keys k v1 o1) = obj_keys (zipRow keys k v2 o2).
Proof.
  induction keys as [|key keys IH]; intros k v1 v2 o1 o2 H; simpl; auto.
  apply IH. rewrite !obj_keys_set_eq, H. reflexivity.
Qed.

Lemma zipRow_nodup keys : forall k values o,
  NoDup (obj_keys o) -> NoDup (obj_keys (zipRow keys k values o)).
Proof.
  induction keys as [|key keys IH]; intros k values o H; simpl; auto.
  apply IH. now apply obj_set_nodup.
Qed.

Lemma zipRow_In keys : forall k values o x,
  In x (obj_keys (zipRow keys k values o)) <->
  In x (obj_keys o) \/ exists j h, nth_error keys j = Some h /\ x = keyOr h (k + j).
Proof.
  induction keys as [|key keys IH]; intros k values o x; simpl.
  - split; auto. intros [H | (j & h & Hj & _)]; auto. destruct j; discriminate.
  - rewrite IH, obj_set_In. split.
    + intros [[H | ->] | (j & h & Hj & ->)].
      * now left.
      * right. exists 0, key. split; [reflexivity | f_equal; lia].
      * right. exists (S j), h. split; [exact Hj | f_equal; lia].
    + intros [H | (j & h & Hj & ->)]; [now left; left|].
      destruct j as [|j]; simpl in Hj.
      * injection Hj as ->. left. right. f_equal. lia.
      * right. exists j, h. split; [exact Hj | f_equal; lia].
Qed.

Section SharedKeys.
Variable toLowerCase : jsstring -> jsstring.
Variable year : jsstring.

(** X10: in the Puppeteer engine and in the engine with one page per
    year, the records of a table with a header cell of the vocabulary all
    have the same keys in the same order, whatever the rows hold: no key
    twice, and a key for every column of the header, its header text or
    col_N when that is empty. *)
Theorem X10_header_records_share_keys (t : table) (li : nat) (rec1 rec2 : jsval) :
  (Parallel.hasExpected (Parallel.tableHeaders toLowerCase t) = true ->
   In rec1 (fst (Parallel.extractTable toLowerCase year t li)) ->
   In rec2 (fst (Parallel.extractTable toLowerCase year t li)) ->
   keysOf rec1 = keysOf rec2 /\ NoDup (keysOf rec1) /\
   forall x, In x (keysOf rec1) <->
             exists k h, nth_error (Parallel.tableHeaders toLowerCase t) k = Some h /\
                         x = keyOr h k) /\
  (Puppeteer.hasExpected (Puppeteer.tableHeaders toLowerCase t) = true ->
   In rec1 (fst (Puppeteer.extractTable toLowerCase year t li)) ->
   In rec2 (fst (Puppeteer.extractTable toLowerCase year t li)) ->
   keysOf rec1 = keysOf rec2 /\ NoDup (keysOf rec1) /\
   forall x, In x (keysOf rec1) <->
             exists k h, nth_error (Puppeteer.tableHeaders toLowerCase t) k = Some h /\
                         x = keyOr h k).
Proof.
  split.
  - intros Hexp H1 H2.
    apply parallel_table_sound in H1 as [_ [(_ & r1 & _ & ->) | [Hno _]]]; [|congruence].
    apply parallel_table_sound in H2 as [_ [(_ & r2 & _ & ->) | [Hno _]]]; [|congruence].
    unfold Parallel.headerRecord, keysOf. split; [|split].
    + now apply zipRow_keys_same.
    + apply zipRow_nodup. constructor.
    + intros x. rewrite zipRow_In. simpl. split.
      * intros [[] | H]; exact H.
      * auto.
  - intros Hexp H1 H2.
    apply puppeteer_table_sound in H1 as [_ [(_ & r1 & _ & ->) | [Hno _]]]; [|congruence].
    apply puppeteer_table_sound in H2 as [_ [(_ & r2 & _ & ->) | [Hno _]]]; [|congruence].
    unfold Puppeteer.headerRecord, keysOf. split; [|split].
    + now apply zipRow_keys_same.
    + apply zipRow_nodup. constructor.
    + intros x. rewrite zipRow_In. simpl. split.
      * intros [[] | H]; exact H.
      * auto.
Qed.

End SharedKeys.

Lemma X10_shared_keys_witness :
  keysOf (Parallel.headerRecord (Parallel.tableHeaders ascii_lower Examples.headerTable)
            (Examples.cellsRow [str "60,00"; str "66,60"; str "20/02/2023"]))
  = keysOf (Parallel.headerRecord (Parallel.tableHeaders ascii_lower Examples.headerTable)
              (Examples.cellsRow [str "60,00"; str ""; str "20/04/2023"])).
Proof.
  destruct (@X10_header_records_share_keys ascii_lower (str "2023") Examples.headerTable 0
              (Parallel.headerRecord (Parallel.tableHeaders ascii_lower Examples.headerTable)
                 (Examples.cellsRow [str "60,00"; str "66,60"; str "20/02/2023"]))
              (Parallel.headerRecord (Parallel.tableHeaders ascii_lower Examples.headerTable)
                 (Examples.cellsRow [str "60,00"; str ""; str "20/04/2023"]))) as [H _].
  destruct H as (Hsame & _).
  - reflexivity.
  - vm_compute. auto.
  - vm_compute. auto.
  - exact Hsame.
Defined.

Lemma find_first (f : jsstring -> bool) l e :
  find f l = Some e -> f e = true /\ In e l.
Proof. intros H. apply find_some in H. tauto. Qed.

Lemma shadow_never (h e2 : jsstring) : forall l,
  shadow_in l e2 = true ->
  includes e2 (Playwright.firstWord e2) = true ->
  find (fun expected => streqb h expected || includes h (Playwright.firstWord expected)) l
  <> Some e2.
Proof.
  induction l as [|e1 l IH]; intros Hsh Hown; simpl in *; [discriminate|].
  destruct (streqb e1 e2) eqn:E12; [discriminate|].
  apply streqb_neq in E12.
  destruct (streqb h e1 || includes h (Playwright.firstWord e1)) eqn:P1.
  - intros H. injection H as H. contradiction.
  - destruct (streqb (Playwright.firstWord e1) (Playwright.firstWord e2)) eqn:Efw.
    + apply streqb_eq in Efw. intros H. apply find_first in H as [P2 _].
      apply orb_false_iff in P1 as [_ P1]. rewrite Efw in P1.
      apply orb_true_iff in P2 as [P2 | P2]; [|congruence].
      apply streqb_eq in P2. subst h. congruence.
    + now apply IH.
Qed.

Lemma vocabulary_truthy e : In e Playwright.expectedHeaders -> truthy_str e = true.
Proof.
  intros H. vm_compute in H.
  repeat (destruct H as [<- | H]; [reflexivity|]). destruct H.
Qed.

(** X11: the sequential engine maps a header to the first entry of its
    vocabulary that it equals or whose first word it contains.  Six
    entries come after an entry with the same first word and are never the
    key of a column, whatever the header is: periodo, valor principal,
    valor total, data vencimento, data de acolhimento and data acolhimento.
    A column headed valor total or valor principal is stored under valor
    apurado, one headed data de acolhimento under data de vencimento, one
    headed periodo under periodo de apuracao. *)
Theorem X11_shadowed_keys_never_used (h : jsstring) :
  ~ In (Playwright.mappedKey h) shadowed /\
  Playwright.mappedKey (str "valor total") = str "valor apurado" /\
  Playwright.mappedKey (str "valor principal") = str "valor apurado" /\
  Playwright.mappedKey (str "data de acolhimento") = str "data de vencimento" /\
  Playwright.mappedKey (str "periodo") = str "periodo de apuracao".
Proof.
  split; [|repeat split; reflexivity].
  intros Hin.
  assert (Hsh : shadow_in Playwright.expectedHeaders (Playwright.mappedKey h) = true /\
                includes (Playwright.mappedKey h) (Playwright.firstWord (Playwright.mappedKey h)) = true /\
                In (Playwright.mappedKey h) Playwright.expectedHeaders).
  { unfold shadowed in Hin.
    repeat (destruct Hin as [<- | Hin]; [repeat split; vm_compute; auto 40|]). destruct Hin. }
  destruct Hsh as (Hsh & Hown & Hvoc).
  pose proof (@shadow_never h _ _ Hsh Hown) as Hnever.
  unfold Playwright.mappedKey in *.
  destruct (find _ Playwright.expectedHeaders) as [e|] eqn:E.
  - pose proof (proj2 (find_first _ _ E)) as He. apply vocabulary_truthy in He.
    unfold or_str in *. rewrite He in *. now apply Hnever.
  - pose proof (find_none _ _ E _ Hvoc) as Hf. cbv beta in Hf.
    rewrite streqb_refl in Hf. discriminate.
Qed.

Section HeaderRow.
Variable toLowerCase : jsstring -> jsstring.

Lemma findHeaders_spec : forall left rows i0,
  match Playwright.findHeaders toLowerCase rows i0 left with
  | Some (h, i) =>
    exists k r, i = i0 + k /\ k < left /\ nth_error rows k = Some r /\
      isHeaderRow toLowerCase r = true /\
      h = map (Playwright.normalizeHeader toLowerCase) (row_cells r) /\
      forall j r', j < k -> nth_error rows j = Some r' -> isHeaderRow toLowerCase r' = false
  | None =>
    forall j r', j < left -> nth_error rows j = Some r' -> isHeaderRow toLowerCase r' = false
  end.
Proof.
  intros left rows. revert left.
  induction rows as [|r rows IH]; intros left i0.
  - destruct left; simpl; intros j r' _ Hj; destruct j; discriminate.
  - destruct left as [|left]; cbn [Playwright.findHeaders].
    + intros j r' Hj. lia.
    + fold (isHeaderRow toLowerCase r).
      destruct (isHeaderRow toLowerCase r) eqn:E.
      * exists 0, r. rewrite Nat.add_0_r. repeat split; auto; try lia.
      * specialize (IH left (S i0)).
        destruct (Playwright.findHeaders toLowerCase rows (S i0) left) as [[h i]|].
        -- destruct IH as (k & r1 & -> & Hk & Hr1 & Hh & -> & Hbefore).
           exists (S k), r1. repeat split; auto; try lia.
           intros j r' Hj Hr'. destruct j as [|j]; simpl in Hr'.
           ++ injection Hr' as <-. exact E.
           ++ apply (Hbefore j); [lia | exact Hr'].
        -- intros j r' Hj Hr'. destruct j as [|j]; simpl in Hr'.
           ++ injection Hr' as <-. exact E.
           ++ apply (IH j); [lia | exact Hr'].
Qed.

(** X12: the sequential engine looks for the header row among the first
    three rows of a table and takes the first one that has a cell of the
    vocabulary: the rows up to and including it are not extracted, and its
    normalized cells are the headers.  When none of the first three rows
    has such a cell, a header row further down is not recognized: the
    headers are col_0, col_1, ... for the cells of the first row, and
    every row is a data row. *)
Theorem X12_header_row_within_three (rows : list row) (headers : list jsstring) (start : nat) :
  Playwright.headersOf toLowerCase rows = (headers, start) ->
  (start = 0 /\
   (forall j r, j < 3 -> nth_error rows j = Some r -> isHeaderRow toLowerCase r = false) /\
   headers = match rows with
             | r :: _ => Playwright.genericHeaders (length (row_cells r)) 0
             | [] => []
             end) \/
  (exists i r,
     start = S i /\ i < 3 /\ nth_error rows i = Some r /\
     isHeaderRow toLowerCase r = true /\
     headers = map (Playwright.normalizeHeader toLowerCase) (row_cells r) /\
     forall j r', j < i -> nth_error rows j = Some r' -> isHeaderRow toLowerCase r' = false).
Proof.
  unfold Playwright.headersOf. pose proof (findHeaders_spec 3 rows 0) as H.
  destruct (Playwright.findHeaders toLowerCase rows 0 3) as [[h i]|].
  - destruct H as (k & r & -> & Hk & Hr & Hh & -> & Hbefore).
    intros E. injection E as <- <-. right. exists k, r. auto 8.
  - intros E. left. destruct rows as [|r rows]; injection E as <- <-; auto.
Qed.

End HeaderRow.

Lemma X12_header_row_witness :
  (1 = 0 /\
   (forall j r, j < 3 -> nth_error (table_rows Examples.headerTable) j = Some r ->
                isHeaderRow Examples.toLowerCase r = false) /\
   [str "principal"; str "total"; str "data de vencimento"]
   = match table_rows Examples.headerTable with
     | r :: _ => Playwright.genericHeaders (length (row_cells r)) 0
     | [] => []
     end) \/
  (exists i r,
     1 = S i /\ i < 3 /\ nth_error (table_rows Examples.headerTable) i = Some r /\
     isHeaderRow Examples.toLowerCase r = true /\
     [str "principal"; str "total"; str "data de vencimento"]
     = map (Playwright.normalizeHeader Examples.toLowerCase) (row_cells r) /\
     forall j r', j < i -> nth_error (table_rows Examples.headerTable) j = Some r' ->
                  isHeaderRow Examples.toLowerCase r' = false).
Proof.
  apply (@X12_header_row_within_three Examples.toLowerCase (table_rows Examples.headerTable)
           [str "principal"; str "total"; str "data de vencimento"] 1).
  vm_compute. reflexivity.
Defined.

(** ** The parts of a row *)

Lemma M_splitRegex i x j t :
  M splitRegex i x j t ->
  exists m, x = m ++ t /\ j = i + length m /\ m <> [] /\ all_of is_space m.
Proof.
  unfold splitRegex, lit, space. intros H. apply M_alt_inv in H as [H|H].
  - apply M_plus_class in H as (l & Hne & -> & -> & Hl).
    exists l. repeat split; auto.
    unfold all_of in *. rewrite forallb_forall in *. intros c Hc.
    apply Hl in Hc. unfold is_char in Hc. apply N.eqb_eq in Hc. now subst c.
  - apply M_seq_inv in H as (j1 & t1 & H1 & H).
    apply M_char_inv in H1 as (c1 & -> & -> & Hc1).
    apply M_seq_inv in H as (j2 & t2 & H2 & H).
    apply M_char_inv in H2 as (c2 & -> & -> & Hc2).
    apply M_star_class in H as (l & -> & -> & Hl).
    exists (c1 :: c2 :: l). simpl. repeat split; auto; try lia; try discriminate.
    apply all_of_cons. split; auto. apply all_of_cons. auto.
Qed.

Lemma splitRegex_match i x e :
  match_at splitRegex i x = Some e ->
  exists m t, x = m ++ t /\ e = i + length m /\ m <> [] /\ all_of is_space m.
Proof.
  intros H. apply match_at_Some in H as [t H]. apply M_splitRegex in H as (m & H).
  exists m, t. exact H.
Qed.

Lemma splitRegex_no_match i c s :
  match_at splitRegex i (c :: s) = None ->
  c <> cTab /\
  (is_space c = true -> match s with y :: _ => is_space y = false | [] => True end).
Proof.
  intros H. rewrite match_at_None in H. split.
  - intros ->. apply (H (S i) s). unfold splitRegex. apply MAltL.
    apply M_plus_class. exists [cTab]. repeat split; try reflexivity; try discriminate.
    simpl. lia.
  - intros Hc. destruct s as [|y s]; [exact I|].
    destruct (is_space y) eqn:Hy; [|reflexivity]. exfalso.
    apply (H (S (S i)) s). unfold splitRegex. apply MAltR.
    econstructor; [constructor; exact Hc|].
    econstructor; [constructor; exact Hy|]. constructor.
Qed.

Lemma visible_app a b : visible (a ++ b) = visible a ++ visible b.
Proof. apply filter_app. Qed.

Lemma visible_spaces a : all_of is_space a -> visible a = [].
Proof.
  unfold visible. induction a as [|c a IH]; intros H; [reflexivity|].
  apply all_of_cons in H as [Hc H]. simpl. rewrite Hc. simpl. auto.
Qed.

Lemma visible_trim s : visible (trim s) = visible s.
Proof.
  destruct (trim_split s) as (a & b & E & Ha & Hb).
  rewrite E at 2. rewrite !visible_app, (visible_spaces Ha), (visible_spaces Hb).
  now rewrite app_nil_r.
Qed.

Lemma visible_parts pieces :
  visible (concat (filter truthy_str (map trim pieces))) = visible (concat pieces).
Proof.
  induction pieces as [|p pieces IH]; [reflexivity|].
  cbn [map filter concat]. rewrite (visible_app p), <- IH, <- (visible_trim p).
  destruct (trim p) as [|c u]; cbn [truthy_str concat]; [reflexivity|].
  now rewrite visible_app.
Qed.

Lemma split_from_visible : forall s i skip cur,
  all_of is_space (firstn skip s) ->
  visible (concat (split_from splitRegex i s skip cur)) = visible (rev cur) ++ visible s.
Proof.
  induction s as [|c s IH]; intros i skip cur Hskip.
  - simpl. rewrite visible_app. reflexivity.
  - cbn [split_from]. destruct skip as [|skip].
    + destruct (match_at splitRegex i (c :: s)) as [e|] eqn:E.
      * apply splitRegex_match in E as (m & t & Hx & -> & Hne & Hm).
        destruct m as [|c' m]; [congruence|]. simpl in Hx. injection Hx as <- ->.
        apply all_of_cons in Hm as [Hc Hm].
        destruct (Nat.leb_spec (i + length (c :: m)) i) as [Hle|_]; [simpl in Hle; lia|].
        cbn [concat]. rewrite visible_app, IH.
        -- simpl. unfold visible at 4. simpl. rewrite Hc. reflexivity.
        -- replace (i + length (c :: m) - i - 1) with (length m) by (simpl; lia).
           rewrite firstn_app, Nat.sub_diag, firstn_all. simpl. now rewrite app_nil_r.
      * rewrite IH by reflexivity. cbn [rev]. rewrite visible_app, <- app_assoc.
        change (visible (c :: s)) with (visible ([c] ++ s)). now rewrite visible_app.
    + cbn [firstn] in Hskip. apply all_of_cons in Hskip as [Hc Hskip].
      rewrite IH by exact Hskip. unfold visible at 4. simpl. rewrite Hc. reflexivity.
Qed.

Lemma rowParts_visible rowText : visible (concat (rowParts rowText)) = visible rowText.
Proof.
  unfold rowParts. rewrite visible_parts. unfold split.
  destruct rowText as [|c s].
  - destruct (match_at splitRegex 0 []); reflexivity.
  - apply (split_from_visible (c :: s) 0 0 []). reflexivity.
Qed.

Lemma single_spaced_cons x y p :
  is_space x && is_space y = false -> single_spaced (y :: p) -> single_spaced (x :: y :: p).
Proof.
  intros Hxy Hp a x' y' b E. destruct a as [|z a]; simpl in E.
  - injection E as <- <- _. exact Hxy.
  - injection E as _ E. now apply (Hp a x' y' b).
Qed.

Lemma single_spaced_short p : length p <= 1 -> single_spaced p.
Proof.
  intros H a x y b ->. rewrite length_app in H. simpl in H. lia.
Qed.

Lemma single_spaced_nil : single_spaced [].
Proof. apply single_spaced_short. simpl. lia. Qed.

Lemma single_spaced_one c : single_spaced [c].
Proof. apply single_spaced_short. simpl. lia. Qed.

Lemma single_spaced_rev p : single_spaced p -> single_spaced (rev p).
Proof.
  intros H a x y b E. apply (f_equal (@rev N)) in E. rewrite rev_involutive in E.
  rewrite rev_app_distr in E. simpl in E. rewrite <- !app_assoc in E. simpl in E.
  rewrite andb_comm. now apply (H (rev b) y x (rev a)).
Qed.

Lemma single_spaced_piece a m b : single_spaced (a ++ m ++ b) -> single_spaced m.
Proof.
  intros H a' x y b' ->. apply (H (a ++ a') x y (b' ++ b)).
  rewrite <- !app_assoc. reflexivity.
Qed.

Lemma split_from_plain : forall s i skip cur,
  ~ In cTab cur -> single_spaced cur ->
  (skip = 0 ->
   match cur, s with
   | x :: _, y :: _ => is_space x && is_space y = false
   | _, _ => True
   end) ->
  (skip <> 0 -> cur = []) ->
  Forall plain (split_from splitRegex i s skip cur).
Proof.
  induction s as [|c s IH]; intros i skip cur Htab Hgap Hnext Hcur.
  - simpl. constructor; [|constructor]. split.
    + intros H. apply in_rev in H. contradiction.
    + now apply single_spaced_rev.
  - cbn [split_from]. destruct skip as [|skip].
    + destruct (match_at splitRegex i (c :: s)) as [e|] eqn:E.
      * apply splitRegex_match in E as (m & t & Hx & -> & Hne & Hm).
        destruct m as [|c' m]; [congruence|].
        destruct (Nat.leb_spec (i + length (c' :: m)) i) as [Hle|_]; [simpl in Hle; lia|].
        constructor.
        -- split; [intros H; apply in_rev in H; contradiction | now apply single_spaced_rev].
        -- apply IH.
           ++ intros [].
           ++ apply single_spaced_nil.
           ++ intros _. exact I.
           ++ reflexivity.
      * apply splitRegex_no_match in E as [Hc Hsp].
        apply IH.
        -- intros [H | H]; [congruence | contradiction].
        -- destruct cur as [|x cur]; [apply single_spaced_one|].
           apply single_spaced_cons; auto.
           rewrite andb_comm. now apply Hnext.
        -- intros _. destruct s as [|y s]; [exact I|].
           destruct (is_space c) eqn:Ec; [|reflexivity]. simpl. now apply Hsp.
        -- congruence.
    + rewrite (Hcur (Nat.neq_succ_0 skip)). apply IH.
      * intros [].
      * apply single_spaced_nil.
      * intros _. exact I.
      * reflexivity.
Qed.

Lemma trim_plain p : plain p -> plain (trim p).
Proof.
  intros [Htab Hgap]. destruct (trim_split p) as (a & b & E & _ & _). split.
  - intros H. apply Htab. rewrite E. apply in_or_app. right. apply in_or_app. now left.
  - apply (@single_spaced_piece a (trim p) b). now rewrite <- E.
Qed.

(** X13: the parts of a loose record.  Every part is non-empty, has no
    white space at either end, holds no tab and no two white-space
    characters next to each other; and the parts together hold the
    characters of the row text that are not white space, all of them and
    in their order. *)
Theorem X13_parts_of_a_row (rowText : jsstring) :
  (forall p, In p (rowParts rowText) ->
     p <> [] /\ trim p = p /\ ~ In cTab p /\ single_spaced p) /\
  visible (concat (rowParts rowText)) = visible rowText.
Proof.
  split; [|apply rowParts_visible].
  intros p Hp. unfold rowParts in Hp. apply filter_In in Hp as [Hp Ht].
  apply in_map_iff in Hp as (q & <- & Hq).
  split; [now apply truthy_nonempty|]. split; [apply trim_idem|].
  apply trim_plain.
  assert (Hall : Forall plain (split splitRegex rowText)).
  { unfold split. destruct rowText as [|c s].
    - destruct (match_at splitRegex 0 []); repeat constructor; auto.
      apply single_spaced_nil.
    - apply split_from_plain; auto; try congruence. apply single_spaced_nil. }
  rewrite Forall_forall in Hall. now apply Hall.
Qed.

Lemma X13_parts_witness :
  str "1,00" <> [] /\ trim (str "1,00") = str "1,00" /\ ~ In cTab (str "1,00") /\
  single_spaced (str "1,00").
Proof.
  destruct (X13_parts_of_a_row (str "2023  1,00")) as [H _].
  apply H. vm_compute. auto.
Defined.

(* ===================================================================== *)
(** * The lists of years and the files of a run                          *)
(* ===================================================================== *)

Lemma search_four_digits d1 d2 d3 d4 :
  is_digit d1 = true -> is_digit d2 = true -> is_digit d3 = true -> is_digit d4 = true ->
  Playwright.firstYear [d1; d2; d3; d4] = [d1; d2; d3; d4].
Proof.
  intros H1 H2 H3 H4. unfold Playwright.firstYear, search, match_at, Playwright.fourDigits, digit.
  simpl. rewrite H1, H2, H3, H4. reflexivity.
Qed.

Lemma filter_partition_length {A} (f g : A -> bool) (l : list A) :
  (forall x, In x l -> f x = negb (g x)) ->
  length l = length (filter f l) + length (filter g l).
Proof.
  induction l as [|x l IH]; intros H; [reflexivity|].
  simpl. rewrite (H x) by (simpl; auto).
  destruct (g x); simpl; rewrite IH by (intros y Hy; apply H; simpl; auto); lia.
Qed.

Lemma scanned_option (p : year_page) o :
  year_select p = None -> In o (Playwright.all (Playwright.getAvailableYears p)) ->
  Playwright.isAvailable o = negb (Playwright.isNotOptante o) /\
  (Playwright.isAvailable o = true ->
     Playwright.y_value o = Playwright.y_text o /\ four_digits (Playwright.y_text o)) /\
  (Playwright.isNotOptante o = true -> Playwright.y_disabled o = true).
Proof.
  intros Hsel. unfold Playwright.getAvailableYears. rewrite Hsel. cbn [Playwright.all].
  intros Ho. apply in_flat_map in Ho as (el & _ & Ho).
  unfold Playwright.scanYear in Ho.
  destruct (test yearRegex (trim (el_text el))) eqn:Hyear;
    destruct (test naoOptanteRegex (trim (el_text el))) eqn:Hmark;
    cbn [orb] in Ho; try (destruct Ho as [<- | []]); try destruct Ho.
  - unfold Playwright.isAvailable, Playwright.isNotOptante.
    cbn [Playwright.y_value Playwright.y_text Playwright.y_disabled]. rewrite Hmark.
    rewrite andb_false_r. repeat split; auto; discriminate.
  - apply test_year in Hyear as Hfour.
    destruct Hfour as (d1 & d2 & d3 & d4 & E & H1 & H2 & H3 & H4).
    unfold Playwright.isAvailable, Playwright.isNotOptante.
    cbn [Playwright.y_value Playwright.y_text Playwright.y_disabled]. rewrite Hmark, E.
    rewrite search_four_digits by auto.
    assert (Hy : test yearRegex [d1; d2; d3; d4] = true) by now rewrite <- E.
    cbn [truthy_str or_str andb orb]. rewrite Hy, orb_false_r, andb_true_r.
    split; [reflexivity|]. split; [|auto].
    intros _. split; [reflexivity|]. exists d1, d2, d3, d4. auto.
  - unfold Playwright.isAvailable, Playwright.isNotOptante.
    cbn [Playwright.y_value Playwright.y_text Playwright.y_disabled]. rewrite Hmark.
    rewrite andb_false_r. repeat split; auto; discriminate.
Qed.

(** X14: when the sequential engine scans the page for the years, every
    option it finds is in exactly one of the two lists, available and
    notOptante.  An available option has a text of four digits, which is
    also its value; an option of notOptante is disabled.  On a native
    select neither holds: an option can be in both lists, and an option
    can be in none. *)
Theorem X14_scanned_years_partition (p : year_page) :
  (year_select p = None ->
   let ys := Playwright.getAvailableYears p in
   (forall o, In o (Playwright.all ys) ->
      (In o (Playwright.available ys) <-> ~ In o (Playwright.notOptante ys))) /\
   length (Playwright.all ys)
   = length (Playwright.available ys) + length (Playwright.notOptante ys) /\
   (forall o, In o (Playwright.available ys) ->
      Playwright.y_value o = Playwright.y_text o /\ four_digits (Playwright.y_text o)) /\
   (forall o, In o (Playwright.notOptante ys) -> Playwright.y_disabled o = true)) /\
  (exists q o,
     year_select q <> None /\
     In o (Playwright.all (Playwright.getAvailableYears q)) /\
     In o (Playwright.available (Playwright.getAvailableYears q)) /\
     In o (Playwright.notOptante (Playwright.getAvailableYears q)) /\
     Playwright.y_disabled o = false) /\
  (exists q o,
     year_select q <> None /\
     In o (Playwright.all (Playwright.getAvailableYears q)) /\
     ~ In o (Playwright.available (Playwright.getAvailableYears q)) /\
     ~ In o (Playwright.notOptante (Playwright.getAvailableYears q))).
Proof.
  split; [|split].
  - intros Hsel ys.
    assert (Hav : Playwright.available ys = filter Playwright.isAvailable (Playwright.all ys))
      by reflexivity.
    assert (Hno : Playwright.notOptante ys = filter Playwright.isNotOptante (Playwright.all ys))
      by reflexivity.
    rewrite Hav, Hno. split; [|split; [|split]].
    + intros o Ho. destruct (scanned_option p o Hsel Ho) as (E & _ & _).
      rewrite !filter_In. split.
      * intros [_ H] [_ H']. rewrite E, H' in H. discriminate.
      * intros H. split; auto. rewrite E. destruct (Playwright.isNotOptante o); auto.
    + apply filter_partition_length. intros o Ho. now apply (scanned_option p o Hsel Ho).
    + intros o Ho. apply filter_In in Ho as [Ho H].
      now apply (scanned_option p o Hsel Ho).
    + intros o Ho. apply filter_In in Ho as [Ho H].
      now apply (scanned_option p o Hsel Ho).
  - exists Examples.selectPage, (Playwright.selectOption Examples.opt2022).
    split; [discriminate|]. vm_compute. auto 8.
  - exists Examples.indexPage, (Playwright.selectOption Examples.opt2023index).
    split; [discriminate|]. vm_compute. split; [auto|]. split; intros H; exact H.
Qed.

Section Runs.
Variable toLowerCase : jsstring -> jsstring.

Lemma puppeteer_extractAll (p : Puppeteer.page) digits d :
  let ys := Puppeteer.getAvailableYears (Puppeteer.yearPage p) in
  let F := yearsFound Puppeteer.yearLabel (Puppeteer.attempt toLowerCase p) ys 0 in
  let name := firstTruthy [Puppeteer.nameListInline p; Puppeteer.nomeFromHtml p] in
  ys <> [] ->
  allReturn Puppeteer.yearLabel (Puppeteer.attempt toLowerCase p) ys 0 ->
  Puppeteer.extractAll toLowerCase p digits d
  = (map resultOf (filter hasRecords F),
     writeFile aggregatePath
       (VObj [(str "cnpj", VStr digits); (str "companyName", name);
              (str "years", VArr (map resultOf (filter hasRecords F)))])
       (writeYears digits name (filter hasRecords F) d)).
Proof.
  intros ys F name Hne Hret. unfold Puppeteer.extractAll. fold ys. fold name.
  destruct ys as [|y ys'] eqn:Eys; [congruence|].
  rewrite (@puppeteer_yearLoop toLowerCase p digits name (y :: ys') 0 [] d Hret).
  reflexivity.
Qed.

(** X15: in the Puppeteer engine, after a run over eligible years in
    which every extraction returns and some year has a record, the file of
    the year argument is the last JSON file written, before the screenshot
    only, and it holds as its items the YearResults of the years that have
    records, not the records of that year: when the year argument is one
    of the eligible years, its per-year file is replaced. *)
Theorem X15_year_argument_file (p : Puppeteer.page) (d : disk) :
  let digits := Puppeteer.normalizeCNPJ (Puppeteer.cnpjArg p) in
  let ys := Puppeteer.getAvailableYears (Puppeteer.yearPage p) in
  let F := yearsFound Puppeteer.yearLabel (Puppeteer.attempt toLowerCase p) ys 0 in
  let results := map resultOf (filter hasRecords F) in
  let name := firstTruthy [if truthy_str (or_empty (Puppeteer.nameFromLabel p))
                           then Puppeteer.nameFromLabel p else Puppeteer.nameListInline p] in
  ys <> [] ->
  allReturn Puppeteer.yearLabel (Puppeteer.attempt toLowerCase p) ys 0 ->
  results <> [] ->
  readFile (yearPath (Puppeteer.yearArg p)) (snd (Puppeteer.run toLowerCase p d))
  = Some (jsonify (yearPayload digits name (Puppeteer.yearArg p) results)) /\
  exists before, writes (snd (Puppeteer.run toLowerCase p d))
                 = before ++ [yearPath (Puppeteer.yearArg p)] ++ shotWrites p.
Proof.
  intros digits ys F results name Hne Hret Hres.
  unfold Puppeteer.run. fold digits.
  rewrite (@puppeteer_extractAll p digits d Hne Hret).
  fold ys. fold F. fold results.
  destruct results as [|x rest] eqn:E; [congruence|]. split.
  - rewrite puppeteer_shot_read by apply yearPath_not_shot.
    apply readFile_write_same.
  - rewrite puppeteer_shot_writes, writes_writeFile.
    eexists. now rewrite <- app_assoc.
Qed.

Lemma playwright_loop_error (p : Playwright.page) digits name e :
  forall pre y post n all d,
  allReturn Playwright.yearLabel (Playwright.attempt toLowerCase p) pre n ->
  fst (safeExtractDebits (Playwright.attempt toLowerCase p (n + length pre)
                            (Playwright.yearLabel y)) 3) = Thrown e ->
  Playwright.scrapeAllYearsSequential toLowerCase p digits name (pre ++ y :: post) n all d
  = (Thrown e,
     writeYears digits name
       (filter hasRecords
          (yearsFound Playwright.yearLabel (Playwright.attempt toLowerCase p) pre n)) d).
Proof.
  induction pre as [|y0 pre IH]; intros y post n all d Hret Herr.
  - simpl in *. rewrite Nat.add_0_r in Herr. now rewrite Herr.
  - destruct Hret as [[f Hf] Hret].
    cbn [app Playwright.scrapeAllYearsSequential yearsFound]. unfold found. rewrite Hf.
    rewrite (IH y post (S n)); auto.
    + destruct f; reflexivity.
    + simpl in Herr. now replace (S n + length pre) with (n + S (length pre)) by lia.
Qed.

Lemma puppeteer_loop_error (p : Puppeteer.page) digits name e :
  forall pre y post n all d,
  allReturn Puppeteer.yearLabel (Puppeteer.attempt toLowerCase p) pre n ->
  fst (safeExtractDebits (Puppeteer.attempt toLowerCase p (n + length pre)
                            (Puppeteer.yearLabel y)) 3) = Thrown e ->
  Puppeteer.yearLoop toLowerCase p digits name (pre ++ y :: post) n all d
  = (Thrown e,
     writeYears digits name
       (filter hasRecords
          (yearsFound Puppeteer.yearLabel (Puppeteer.attempt toLowerCase p) pre n)) d).
Proof.
  induction pre as [|y0 pre IH]; intros y post n all d Hret Herr.
  - simpl in *. rewrite Nat.add_0_r in Herr. now rewrite Herr.
  - destruct Hret as [[f Hf] Hret].
    cbn [app Puppeteer.yearLoop yearsFound]. unfold found. rewrite Hf.
    assert (Hnext : fst (safeExtractDebits
                      (Puppeteer.attempt toLowerCase p (S n + length pre)
                         (Puppeteer.yearLabel y)) 3) = Thrown e).
    { simpl in Herr. now replace (S n + length pre) with (n + S (length pre)) by lia. }
    destruct f as [|x f].
    + now rewrite (IH y post (S n)).
    + now rewrite (IH y post (S n)).
Qed.

(** X16: an error that is not a lost execution context, raised by the
    extraction of an eligible year after the years before it have
    returned.  The sequential engine ends with that error; the years after
    it are not visited and no aggregate file is written; the per-year
    files of the earlier years that have records are on disk.  The
    Puppeteer engine catches the error and goes on with an empty combined
    output: after the same per-year files it writes no aggregate of the
    run and no file for the year argument; the late name, when one is
    found, rewrites an aggregate file that is on disk already, and without
    such a file writes nothing; then the screenshot is taken. *)
Theorem X16_error_in_a_year (e : js_error) :
  (forall (p : Playwright.page) d pre y post,
     let digits := Playwright.normalizeCNPJ (Playwright.cnpjArg p) in
     let name := firstTruthy [Playwright.nameListInline p] in
     Playwright.available (Playwright.getAvailableYears (Playwright.yearPage p))
     = pre ++ y :: post ->
     allReturn Playwright.yearLabel (Playwright.attempt toLowerCase p) pre 0 ->
     fst (safeExtractDebits (Playwright.attempt toLowerCase p (length pre)
                               (Playwright.yearLabel y)) 3) = Thrown e ->
     Playwright.run toLowerCase p d
     = (Thrown e,
        writeYears digits name
          (filter hasRecords
             (yearsFound Playwright.yearLabel (Playwright.attempt toLowerCase p) pre 0)) d)) /\
  (forall (p : Puppeteer.page) d pre y post,
     let digits := Puppeteer.normalizeCNPJ (Puppeteer.cnpjArg p) in
     let name := firstTruthy [Puppeteer.nameListInline p; Puppeteer.nomeFromHtml p] in
     let written :=
       writeYears digits name
         (filter hasRecords
            (yearsFound Puppeteer.yearLabel (Puppeteer.attempt toLowerCase p) pre 0)) d in
     Puppeteer.getAvailableYears (Puppeteer.yearPage p) = pre ++ y :: post ->
     allReturn Puppeteer.yearLabel (Puppeteer.attempt toLowerCase p) pre 0 ->
     fst (safeExtractDebits (Puppeteer.attempt toLowerCase p (length pre)
                               (Puppeteer.yearLabel y)) 3) = Thrown e ->
     Puppeteer.run toLowerCase p d
     = Puppeteer.takeScreenshot p (lateName (Puppeteer.nameFromLabel p) written) /\
     (readFile aggregatePath written = None ->
      Puppeteer.run toLowerCase p d = Puppeteer.takeScreenshot p written) /\
     (forall agg, readFile aggregatePath written = Some (VObj agg) ->
      writes (snd (Puppeteer.run toLowerCase p d))
      = writes written ++ lateWrites (Puppeteer.nameFromLabel p) ++ shotWrites p)).
Proof.
  split.
  - intros p d pre y post digits name Hys Hret Herr.
    unfold Playwright.run. rewrite Hys.
    destruct (pre ++ y :: post) as [|y0 rest] eqn:E; [destruct pre; discriminate|].
    rewrite <- E. fold digits. fold name.
    now rewrite (@playwright_loop_error p digits name e pre y post 0 [] d Hret Herr).
  - intros p d pre y post digits name written Hys Hret Herr.
    assert (Hrun : Puppeteer.run toLowerCase p d
                   = Puppeteer.takeScreenshot p (lateName (Puppeteer.nameFromLabel p) written)).
    { unfold Puppeteer.run, Puppeteer.extractAll. rewrite Hys.
      destruct (pre ++ y :: post) as [|y0 rest] eqn:E; [destruct pre; discriminate|].
      rewrite <- E. fold digits. fold name.
      now rewrite (@puppeteer_loop_error p digits name e pre y post 0 [] d Hret Herr). }
    split; [exact Hrun|]. split.
    + intros Hnone. rewrite Hrun. unfold lateName, lateUpdate. rewrite Hnone.
      destruct (Puppeteer.nameFromLabel p) as [n|]; [|reflexivity].
      now destruct (truthy_str n).
    + intros agg Hagg. rewrite Hrun, puppeteer_shot_writes.
      rewrite (@lateName_writes _ _ _ Hagg). now rewrite <- app_assoc.
Qed.

Lemma playwright_loop_frame (p : Playwright.page) digits name : forall ys n all d,
  let d' := snd (Playwright.scrapeAllYearsSequential toLowerCase p digits name ys n all d) in
  (forall path, In path (writes d') ->
     In path (writes d) \/ exists y, In y ys /\ path = yearPath (Playwright.yearLabel y)) /\
  (forall path, (forall y, In y ys -> path <> yearPath (Playwright.yearLabel y)) ->
     readFile path d' = readFile path d).
Proof.
  induction ys as [|y ys IH]; intros n all d; cbn [Playwright.scrapeAllYearsSequential].
  - cbn [snd]. split; auto.
  - destruct (fst (safeExtractDebits (Playwright.attempt toLowerCase p n (Playwright.yearLabel y)) 3))
      as [f|e]; [|cbn [snd]; split; auto].
    match goal with
    | |- context [Playwright.scrapeAllYearsSequential _ _ _ _ ys (S n) ?a ?d0] =>
      destruct (IH (S n) a d0) as [Hw Hr]
    end.
    split.
    + intros path Hpath. apply Hw in Hpath as [Hpath | (y' & Hy' & ->)].
      * destruct f as [|x f]; [now left|].
        rewrite writes_writeFile in Hpath. apply in_app_or in Hpath as [Hpath | [<- | []]].
        -- now left.
        -- right. exists y. simpl. auto.
      * right. exists y'. simpl. auto.
    + intros path Hpath. rewrite Hr by (intros y' Hy'; apply Hpath; simpl; auto).
      destruct f as [|x f]; [reflexivity|].
      apply readFile_write_other. apply Hpath. simpl. auto.
Qed.

Lemma puppeteer_loop_frame (p : Puppeteer.page) digits name : forall ys n all d,
  let d' := snd (Puppeteer.yearLoop toLowerCase p digits name ys n all d) in
  (forall path, In path (writes d') ->
     In path (writes d) \/ exists y, In y ys /\ path = yearPath (Puppeteer.yearLabel y)) /\
  (forall path, (forall y, In y ys -> path <> yearPath (Puppeteer.yearLabel y)) ->
     readFile path d' = readFile path d).
Proof.
  induction ys as [|y ys IH]; intros n all d; cbn [Puppeteer.yearLoop].
  - cbn [snd]. split; auto.
  - destruct (fst (safeExtractDebits (Puppeteer.attempt toLowerCase p n (Puppeteer.yearLabel y)) 3))
      as [f|e]; [|cbn [snd]; split; auto].
    destruct f as [|x f].
    + destruct (IH (S n) all d) as [Hw Hr]. split.
      * intros path Hpath. apply Hw in Hpath as [Hpath | (y' & Hy' & ->)]; [now left|].
        right. exists y'. simpl. auto.
      * intros path Hpath. apply Hr. intros y' Hy'. apply Hpath. simpl. auto.
    + match goal with
      | |- context [Puppeteer.yearLoop _ _ _ _ ys (S n) ?a ?d0] =>
        destruct (IH (S n) a d0) as [Hw Hr]
      end.
      split.
      * intros path Hpath. apply Hw in Hpath as [Hpath | (y' & Hy' & ->)].
        -- rewrite writes_writeFile in Hpath. apply in_app_or in Hpath as [Hpath | [<- | []]].
           ++ now left.
           ++ right. exists y. simpl. auto.
        -- right. exists y'. simpl. auto.
      * intros path Hpath. rewrite Hr by (intros y' Hy'; apply Hpath; simpl; auto).
        apply readFile_write_other. apply Hpath. simpl. auto.
Qed.

Lemma lateNome_frame nome json d :
  (forall path, In path (writes (Playwright.lateNome nome json d)) ->
     In path (writes d) \/ path = aggregatePath) /\
  (forall path, path <> aggregatePath ->
     readFile path (Playwright.lateNome nome json d) = readFile path d).
Proof.
  unfold Playwright.lateNome. destruct nome as [n|]; [|split; auto].
  destruct (truthy_str n); [|split; auto]. split.
  - intros path H. rewrite writes_writeFile in H.
    apply in_app_or in H as [H | [<- | []]]; auto.
  - intros path H. now apply readFile_write_other.
Qed.

Lemma lateName_frame name d :
  (forall path, In path (writes (lateName name d)) ->
     In path (writes d) \/ path = aggregatePath) /\
  (forall path, path <> aggregatePath -> readFile path (lateName name d) = readFile path d).
Proof.
  split; [|intros path; apply lateName_other].
  unfold lateName, lateUpdate. destruct name as [n|]; auto.
  destruct (truthy_str n); auto.
  destruct (readFile aggregatePath d) as [[| | | |]|]; auto;
    intros path H; rewrite writes_writeFile in H;
    apply in_app_or in H as [H | [<- | []]]; auto.
Qed.

(** X17: the files of a run, whatever the page shows and whether or not
    an extraction raises.  The sequential engine writes no other file than
    the aggregate and the per-year files of eligible years, and every
    other file reads as before; the Puppeteer engine may also write the
    file of the year argument and the screenshot. *)
Theorem X17_files_of_a_run :
  (forall (p : Playwright.page) d,
     let d' := snd (Playwright.run toLowerCase p d) in
     let ys := Playwright.available (Playwright.getAvailableYears (Playwright.yearPage p)) in
     (forall path, In path (writes d') ->
        In path (writes d) \/ path = aggregatePath \/
        exists y, In y ys /\ path = yearPath (Playwright.yearLabel y)) /\
     (forall path, path <> aggregatePath ->
        (forall y, In y ys -> path <> yearPath (Playwright.yearLabel y)) ->
        readFile path d' = readFile path d)) /\
  (forall (p : Puppeteer.page) d,
     let d' := snd (Puppeteer.run toLowerCase p d) in
     let ys := Puppeteer.getAvailableYears (Puppeteer.yearPage p) in
     (forall path, In path (writes d') ->
        In path (writes d) \/ path = aggregatePath \/
        path = yearPath (Puppeteer.yearArg p) \/ path = Puppeteer.screenshotPath \/
        exists y, In y ys /\ path = yearPath (Puppeteer.yearLabel y)) /\
     (forall path, path <> aggregatePath -> path <> yearPath (Puppeteer.yearArg p) ->
        path <> Puppeteer.screenshotPath ->
        (forall y, In y ys -> path <> yearPath (Puppeteer.yearLabel y)) ->
        readFile path d' = readFile path d)).
Proof.
  split.
  - intros p d d' ys. subst d'. unfold Playwright.run. fold ys.
    set (digits := Playwright.normalizeCNPJ (Playwright.cnpjArg p)).
    set (name := firstTruthy [Playwright.nameListInline p]).
    assert (Hloop := @playwright_loop_frame p digits name ys 0 [] d). cbv zeta in Hloop.
    destruct ys as [|y0 ys'] eqn:Eys.
    + destruct (fst (safeExtractDebits _ 3)) as [found|e]; cbn [snd]; [|split; auto].
      destruct (lateNome_frame (Playwright.nomeFinal p)
                  (Playwright.resultJson digits name
                     (Playwright.getAvailableYears (Playwright.yearPage p)) found)
                  (writeFile aggregatePath
                     (VObj (Playwright.resultJson digits name
                              (Playwright.getAvailableYears (Playwright.yearPage p)) found)) d))
        as [Hw Hr].
      split.
      * intros path H. apply Hw in H as [H | ->]; auto.
        rewrite writes_writeFile in H. apply in_app_or in H as [H | [<- | []]]; auto.
      * intros path Hagg _. rewrite Hr by auto. now apply readFile_write_other.
    + destruct (Playwright.scrapeAllYearsSequential toLowerCase p digits name (y0 :: ys') 0 [] d)
        as [[years|e] d1]; cbn [snd] in *.
      * destruct Hloop as [Hw1 Hr1].
        destruct (lateNome_frame (Playwright.nomeFinal p)
                    (Playwright.resultJson digits name
                       (Playwright.getAvailableYears (Playwright.yearPage p)) years)
                    (writeFile aggregatePath
                       (VObj (Playwright.resultJson digits name
                                (Playwright.getAvailableYears (Playwright.yearPage p)) years)) d1))
          as [Hw Hr].
        split.
        -- intros path H. apply Hw in H as [H | ->]; auto.
           rewrite writes_writeFile in H. apply in_app_or in H as [H | [<- | []]]; auto.
           apply Hw1 in H as [H | H]; auto.
        -- intros path Hagg Hyears. rewrite Hr by auto.
           rewrite readFile_write_other by auto. now apply Hr1.
      * destruct Hloop as [Hw1 Hr1]. split.
        -- intros path H. apply Hw1 in H as [H | H]; auto.
        -- intros path _ Hyears. now apply Hr1.
  - intros p d d' ys. subst d'. unfold Puppeteer.run.
    set (digits := Puppeteer.normalizeCNPJ (Puppeteer.cnpjArg p)).
    assert (Hall : let d1 := snd (Puppeteer.extractAll toLowerCase p digits d) in
              (forall path, In path (writes d1) ->
                 In path (writes d) \/ path = aggregatePath \/
                 exists y, In y ys /\ path = yearPath (Puppeteer.yearLabel y)) /\
              (forall path, path <> aggregatePath ->
                 (forall y, In y ys -> path <> yearPath (Puppeteer.yearLabel y)) ->
                 readFile path d1 = readFile path d)).
    { unfold Puppeteer.extractAll. fold ys.
      set (name := firstTruthy [Puppeteer.nameListInline p; Puppeteer.nomeFromHtml p]).
      assert (Hloop := @puppeteer_loop_frame p digits name ys 0 [] d). cbv zeta in Hloop.
      destruct ys as [|y0 ys'] eqn:Eys.
      - destruct (fst (safeExtractDebits _ 3)); cbn [snd]; split; auto.
      - destruct (Puppeteer.yearLoop toLowerCase p digits name (y0 :: ys') 0 [] d)
          as [[years|e] d1]; cbn [snd] in *; destruct Hloop as [Hw1 Hr1].
        + split.
          * intros path H. rewrite writes_writeFile in H.
            apply in_app_or in H as [H | [<- | []]]; auto.
            apply Hw1 in H as [H | H]; auto.
          * intros path Hagg Hyears. rewrite readFile_write_other by auto. now apply Hr1.
        + split.
          * intros path H. apply Hw1 in H as [H | H]; auto.
          * intros path _ Hyears. now apply Hr1. }
    cbv zeta in Hall.
    destruct (Puppeteer.extractAll toLowerCase p digits d) as [debitos d1]. cbn [snd] in Hall.
    destruct Hall as [Hw1 Hr1].
    destruct (lateName_frame (Puppeteer.nameFromLabel p) d1) as [Hw2 Hr2].
    assert (Hshot : forall path, In path (shotWrites p) -> path = Puppeteer.screenshotPath).
    { intros path. unfold shotWrites.
      destruct (Puppeteer.screenshot p); [intros [<- | []]; reflexivity | intros []]. }
    destruct debitos as [|x debitos].
    + split.
      * intros path H. rewrite puppeteer_shot_writes in H.
        apply in_app_or in H as [H | H]; [|apply Hshot in H; auto].
        apply Hw2 in H as [H | ->]; auto.
        apply Hw1 in H as [H | [H | H]]; auto 6.
      * intros path Hagg _ Hpng Hyears. rewrite puppeteer_shot_read by auto.
        rewrite Hr2 by auto. now apply Hr1.
    + split.
      * intros path H. rewrite puppeteer_shot_writes in H.
        apply in_app_or in H as [H | H]; [|apply Hshot in H; auto].
        rewrite writes_writeFile in H.
        apply in_app_or in H as [H | [<- | []]]; auto.
        apply Hw2 in H as [H | ->]; auto.
        apply Hw1 in H as [H | [H | H]]; auto 6.
      * intros path Hagg Harg Hpng Hyears. rewrite puppeteer_shot_read by auto.
        rewrite readFile_write_other by auto.
        rewrite Hr2 by auto. now apply Hr1.
Qed.

End Runs.

Lemma X14_scanned_years_witness :
  length (Playwright.all (Playwright.getAvailableYears Examples.scanPage))
  = length (Playwright.available (Playwright.getAvailableYears Examples.scanPage))
    + length (Playwright.notOptante (Playwright.getAvailableYears Examples.scanPage)).
Proof.
  destruct (@X14_scanned_years_partition Examples.scanPage) as [Hscan _].
  destruct (Hscan eq_refl) as (_ & H & _).
  exact H.
Defined.

Lemma X15_year_argument_witness :
  readFile (yearPath (str "2024"))
           (snd (Puppeteer.run Examples.toLowerCase Examples.puppeteerPage Examples.emptyDisk))
  = Some (jsonify
            (yearPayload (str "12345678000195") (VStr (str "ACME LTDA")) (str "2024")
               [yearResult (str "2023")
                  (Puppeteer.extractDebits Examples.toLowerCase (str "2023")
                     [Examples.headerTable])])).
Proof.
  destruct (@X15_year_argument_file Examples.toLowerCase Examples.puppeteerPage
              Examples.emptyDisk) as [H _].
  - vm_compute. discriminate.
  - vm_compute. repeat split; eexists; reflexivity.
  - vm_compute. discriminate.
  - exact H.
Defined.

Lemma X16_error_witness :
  (fst (Playwright.run Examples.toLowerCase Examples.failingPage Examples.emptyDisk)
   = Thrown Examples.timeoutError /\
   writes (snd (Playwright.run Examples.toLowerCase Examples.failingPage Examples.emptyDisk))
   = [yearPath (str "2023")]) /\
  writes (snd (Puppeteer.run Examples.toLowerCase Examples.failingPuppeteerPage
                 Examples.persisted))
  = writes Examples.persisted
    ++ [yearPath (str "2023"); aggregatePath; Puppeteer.screenshotPath].
Proof.
  destruct (X16_error_in_a_year Examples.toLowerCase Examples.timeoutError) as [Hseq Hpup].
  split.
  - rewrite (Hseq Examples.failingPage Examples.emptyDisk
               [Playwright.selectOption Examples.opt2023]
               (Playwright.selectOption Examples.opt2024) []).
    + split; vm_compute; reflexivity.
    + vm_compute. reflexivity.
    + vm_compute. repeat split; eexists; reflexivity.
    + vm_compute. reflexivity.
  - destruct (Hpup Examples.failingPuppeteerPage Examples.persisted
                [Puppeteer.selectOption Examples.opt2023]
                (Puppeteer.selectOption Examples.opt2024) []) as (_ & _ & Hwrites).
    + vm_compute. reflexivity.
    + vm_compute. repeat split; eexists; reflexivity.
    + vm_compute. reflexivity.
    + rewrite (Hwrites Examples.persistedFields).
      * vm_compute. reflexivity.
      * vm_compute. reflexivity.
Defined.

Lemma X17_files_witness :
  readFile (str "resultado.json")
           (snd (Playwright.run Examples.toLowerCase Examples.sequentialPage Examples.emptyDisk))
  = readFile (str "resultado.json") Examples.emptyDisk /\
  readFile (str "resultado.json")
           (snd (Puppeteer.run Examples.toLowerCase Examples.puppeteerPage Examples.emptyDisk))
  = readFile (str "resultado.json") Examples.emptyDisk.
Proof.
  destruct (X17_files_of_a_run Examples.toLowerCase) as [Hseq Hpup].
  split.
  - destruct (Hseq Examples.sequentialPage Examples.emptyDisk) as [_ Hread].
    apply Hread.
    + discriminate.
    + intros y Hy. vm_compute in Hy. destruct Hy as [<- | [<- | []]]; discriminate.
  - destruct (Hpup Examples.puppeteerPage Examples.emptyDisk) as [_ Hread].
    apply Hread.
    + discriminate.
    + discriminate.
    + discriminate.
    + intros y Hy. vm_compute in Hy. destruct Hy as [<- | [<- | []]]; discriminate.
Defined.

(* ===================================================================== *)
(** * The engine with one page per year: parallelMap and the run         *)
(* ===================================================================== *)

Section PoolFacts.
Import Parallel.
Variables A B St : Type.
Variable fn : A -> St -> outcome B * St.
Variable arr : list A.
Variable limit : nat.
Variable val : A -> B.
Variable st0 : St.
Hypothesis fn_val : forall a st, In a arr -> fst (fn a st) = Returned (val a).

Lemma array_get_set i v : forall (a : list (option B)) j,
  array_get (array_set i v a) j = if j =? i then Some v else array_get a j.
Proof.
  unfold array_get. induction i as [|i IH]; intros a j.
  - destruct a, j; simpl; auto; now destruct j.
  - destruct a as [|x a], j as [|j]; simpl; auto.
    rewrite IH. destruct (j =? i); auto. now destruct j.
Qed.

Lemma array_set_length i v : forall (a : list (option B)),
  length (array_set i v a) = Nat.max (S i) (length a).
Proof.
  induction i as [|i IH]; intros a.
  - destruct a; simpl; lia.
  - destruct a as [|x a]; simpl; rewrite IH; simpl; lia.
Qed.

Lemma list_set_length {X} w (x : X) : forall l, length (list_set w x l) = length l.
Proof.
  induction w as [|w IH]; intros [|y l]; simpl; auto.
Qed.

Lemma list_set_nth {X} w (x : X) : forall l w',
  w < length l ->
  nth_error (list_set w x l) w' = if w' =? w then Some x else nth_error l w'.
Proof.
  induction w as [|w IH]; intros [|y l] w' Hw; simpl in *; try lia.
  - destruct w'; reflexivity.
  - destruct w'; simpl; auto. apply IH. lia.
Qed.

Lemma pending_from_In (ws : list (option (nat * A))) : forall w0 w,
  In w (pending_from w0 ws) <->
  w0 <= w /\ exists c : nat * A, nth_error ws (w - w0) = Some (Some c).
Proof.
  induction ws as [|x ws IH]; intros w0 w; simpl.
  - split; [intros [] | intros [_ [c Hc]]]. destruct (w - w0); discriminate.
  - assert (Hrest : In w (pending_from (S w0) ws) <->
                    S w0 <= w /\ exists c : nat * A, nth_error ws (w - S w0) = Some (Some c))
      by apply IH.
    destruct x as [c0|]; simpl; rewrite Hrest; split.
    + intros [<- | [Hle [c Hc]]].
      * split; [lia|]. exists c0. now rewrite Nat.sub_diag.
      * split; [lia|]. exists c. replace (w - w0) with (S (w - S w0)) by lia. exact Hc.
    + intros [Hle [c Hc]]. destruct (Nat.eq_dec w0 w) as [E|E]; [now left|].
      right. split; [lia|]. exists c.
      replace (w - w0) with (S (w - S w0)) in Hc by lia. exact Hc.
    + intros [Hle [c Hc]]. split; [lia|]. exists c.
      replace (w - w0) with (S (w - S w0)) by lia. exact Hc.
    + intros [Hle [c Hc]]. destruct (Nat.eq_dec w0 w) as [E|E].
      * subst. rewrite Nat.sub_diag in Hc. discriminate.
      * split; [lia|]. exists c.
        replace (w - w0) with (S (w - S w0)) in Hc by lia. exact Hc.
Qed.

Lemma pending_In (p : pool A B St) w :
  In w (pending p) <-> exists c, nth_error (awaiting p) w = Some (Some c).
Proof.
  unfold pending. rewrite pending_from_In, Nat.sub_0_r. split.
  - intros [_ H]. exact H.
  - intros H. split; [lia | exact H].
Qed.

(** The calls awaited, counted. *)
Lemma pending_from_length (ws : list (option (nat * A))) : forall w0 w1,
  length (pending_from w0 ws) = length (pending_from w1 ws).
Proof.
  induction ws as [|[c|] ws IH]; intros w0 w1; simpl; auto.
Qed.

Lemma pending_set_some (ws : list (option (nat * A))) : forall w w0 (c c' : nat * A),
  nth_error ws w = Some (Some c) ->
  length (pending_from w0 (list_set w (Some c') ws)) = length (pending_from w0 ws).
Proof.
  induction ws as [|x ws IH]; intros w w0 c c' Hw; [destruct w; discriminate|].
  destruct w as [|w]; simpl in *.
  - injection Hw as ->. reflexivity.
  - destruct x; simpl; erewrite IH; eauto.
Qed.

Lemma pending_set_none (ws : list (option (nat * A))) : forall w w0 (c : nat * A),
  nth_error ws w = Some (Some c) ->
  S (length (pending_from w0 (list_set w None ws))) = length (pending_from w0 ws).
Proof.
  induction ws as [|x ws IH]; intros w w0 c Hw; [destruct w; discriminate|].
  destruct w as [|w]; simpl in *.
  - injection Hw as ->. reflexivity.
  - destruct x; simpl; erewrite <- IH; eauto.
Qed.

(** What holds of every state of a call. *)
Record pool_inv (p : pool A B St) : Prop := {
  inv_idx : idx p <= length arr;
  inv_workers : length (awaiting p) = Nat.min limit (length arr);
  inv_elem : forall w i a, nth_error (awaiting p) w = Some (Some (i, a)) ->
               i < idx p /\ nth_error arr i = Some a;
  inv_once : forall w1 w2 i a1 a2,
               nth_error (awaiting p) w1 = Some (Some (i, a1)) ->
               nth_error (awaiting p) w2 = Some (Some (i, a2)) -> w1 = w2;
  inv_ret : forall j a, nth_error arr j = Some a -> j < idx p ->
               (forall w a', nth_error (awaiting p) w <> Some (Some (j, a'))) ->
               array_get (ret p) j = Some (val a);
  inv_len : length (ret p) <= idx p;
  inv_done : forall w, nth_error (awaiting p) w = Some None -> idx p = length arr;
  inv_log : exists log,
              NoDup log /\
              (forall j, In j log <->
                         j < idx p /\
                         forall w a', nth_error (awaiting p) w <> Some (Some (j, a'))) /\
              world p = fold_left (effect fn arr) log st0
}.

Lemma spawn_spec : forall n i0,
  i0 + n <= length arr ->
  snd (spawn arr n i0) = i0 + n /\
  length (fst (spawn arr n i0)) = n /\
  forall w, w < n ->
    exists a, nth_error arr (i0 + w) = Some a /\
              nth_error (fst (spawn arr n i0)) w = Some (Some (i0 + w, a)).
Proof.
  induction n as [|n IH]; intros i0 Hn.
  - simpl. split; [lia|]. split; [reflexivity|]. intros w Hw. lia.
  - cbn [spawn]. unfold next.
    destruct (nth_error arr i0) as [a|] eqn:Ea.
    + destruct (IH (S i0)) as (Hidx & Hlen & Hw); [lia|].
      destruct (spawn arr n (S i0)) as [ws idx'']. cbn [fst snd] in *.
      split; [lia|]. split; [simpl; lia|].
      intros w Hlt. destruct w as [|w].
      * rewrite Nat.add_0_r. exists a. auto.
      * destruct (Hw w) as (a' & Ha' & Hnth); [lia|].
        exists a'. replace (i0 + S w) with (S i0 + w) by lia. auto.
    + apply nth_error_None in Ea. lia.
Qed.

Lemma start_inv : pool_inv (@start A B St arr limit st0).
Proof.
  unfold start.
  destruct (spawn_spec (Nat.min limit (length arr)) 0) as (Hidx & Hlen & Hw); [lia|].
  destruct (spawn arr (Nat.min limit (length arr)) 0) as [ws idx'] eqn:E.
  cbn [fst snd] in *. subst idx'.
  assert (Hnth : forall w i a, nth_error ws w = Some (Some (i, a)) ->
                               i = w /\ w < Nat.min limit (length arr) /\ nth_error arr i = Some a).
  { intros w i a H.
    assert (Hlt : w < Nat.min limit (length arr)).
    { rewrite <- Hlen. apply nth_error_Some. congruence. }
    destruct (Hw w Hlt) as (a' & Ha' & Hn). rewrite Hn in H. injection H as <- <-. auto. }
  constructor; cbn [idx ret awaiting world].
  - lia.
  - exact Hlen.
  - intros w i a H. apply Hnth in H as (-> & Hlt & Ha). split; [lia | exact Ha].
  - intros w1 w2 i a1 a2 H1 H2. apply Hnth in H1 as (<- & _), H2 as (<- & _). reflexivity.
  - intros j a Ha Hj Hno. exfalso. apply (Hno j a).
    destruct (Hw j) as (a' & Ha' & Hn); [lia|]. simpl in Ha'. rewrite Ha in Ha'.
    injection Ha' as <-. exact Hn.
  - simpl. lia.
  - intros w H. exfalso.
    assert (Hlt : w < Nat.min limit (length arr)).
    { rewrite <- Hlen. apply nth_error_Some. congruence. }
    destruct (Hw w Hlt) as (a' & _ & Hn). congruence.
  - exists []. split; [constructor|]. split; [|reflexivity].
    intros j. split; [intros []|]. intros [Hj Hno].
    destruct (Hw j) as (a' & _ & Hn); [lia|]. simpl in Hn. now apply Hno in Hn.
Qed.


Lemma pending_from_le (ws : list (option (nat * A))) : forall w0,
  length (pending_from w0 ws) <= length ws.
Proof.
  induction ws as [|[c|] ws IH]; intros w0; simpl; auto.
  - specialize (IH (S w0)). lia.
Qed.

Lemma settle_went (p : pool A B St) w i a :
  pool_inv p ->
  nth_error (awaiting p) w = Some (Some (i, a)) ->
  exists p', settle fn arr w p = Went p' /\ pool_inv p' /\
    S ((length arr - idx p') + length (pending p'))
    = (length arr - idx p) + length (pending p).
Proof.
  intros Hinv Hw. unfold settle. rewrite Hw.
  destruct (inv_elem Hinv _ Hw) as [Hi Ha].
  pose proof (@fn_val a (world p) (nth_error_In _ _ Ha)) as Hval.
  assert (Hst : snd (fn a (world p)) = effect fn arr (world p) i)
    by (unfold effect; now rewrite Ha).
  destruct (inv_log Hinv) as (log & Hnd & Hlog & Hworld).
  assert (Hfresh : ~ In i log).
  { intros Hin. apply Hlog in Hin as [_ Hno]. now apply Hno in Hw. }
  assert (Hnd' : NoDup (log ++ [i])).
  { apply NoDup_app; [exact Hnd | repeat constructor; intros [] |].
    intros x Hx [<- | []]. contradiction. }
  destruct (fn a (world p)) as [r st]. cbn [fst snd] in Hval, Hst. subst r.
  assert (Hwlt : w < length (awaiting p)) by (apply nth_error_Some; congruence).
  unfold next. destruct (nth_error arr (idx p)) as [a'|] eqn:Enext.
  - assert (Hlt : idx p < length arr) by (apply nth_error_Some; congruence).
    eexists. split; [reflexivity|]. split.
    + constructor; cbn [idx ret awaiting world].
      * lia.
      * rewrite list_set_length. apply (inv_workers Hinv).
      * intros w' i' a0 H. rewrite list_set_nth in H by auto.
        destruct (w' =? w).
        -- injection H as <- <-. auto.
        -- apply (inv_elem Hinv) in H as [H1 H2]. split; [lia | exact H2].
      * intros w1 w2 i' a1 a2 H1 H2. rewrite list_set_nth in H1, H2 by auto.
        destruct (Nat.eqb_spec w1 w) as [E1|E1], (Nat.eqb_spec w2 w) as [E2|E2]; try congruence.
        -- injection H1 as <- <-. apply (inv_elem Hinv) in H2 as [H2 _]. lia.
        -- injection H2 as <- <-. apply (inv_elem Hinv) in H1 as [H1 _]. lia.
        -- eapply (inv_once Hinv); eauto.
      * intros j a0 Hj Hlt' Hno. rewrite array_get_set.
        destruct (Nat.eqb_spec j i) as [E|E].
        -- subst j. rewrite Ha in Hj. now injection Hj as <-.
        -- assert (Hjidx : j <> idx p).
           { intros ->. apply (Hno w a'). rewrite list_set_nth by auto.
             now rewrite Nat.eqb_refl. }
           apply (inv_ret Hinv); [exact Hj | lia |].
           intros w' a1 H. destruct (Nat.eq_dec w' w) as [->|Hne].
           ++ rewrite Hw in H. injection H as H _. congruence.
           ++ apply (Hno w' a1). rewrite list_set_nth by auto.
              destruct (Nat.eqb_spec w' w); [contradiction | exact H].
      * rewrite array_set_length. pose proof (inv_len Hinv). lia.
      * intros w' H. rewrite list_set_nth in H by auto.
        destruct (w' =? w); [discriminate|].
        apply (inv_done Hinv) in H. lia.
      * exists (log ++ [i]). split; [exact Hnd'|]. split.
        -- intros j. rewrite in_app_iff, Hlog. split.
           ++ intros [[Hj Hno] | [<- | []]].
              ** split; [lia|]. intros w' a1 H. rewrite list_set_nth in H by auto.
                 destruct (w' =? w); [injection H as H _; lia | now apply Hno in H].
              ** split; [lia|]. intros w' a1 H. rewrite list_set_nth in H by auto.
                 destruct (Nat.eqb_spec w' w) as [E|E]; [injection H as H _; lia|].
                 apply E. eapply (inv_once Hinv); eauto.
           ++ intros [Hj Hno]. destruct (Nat.eq_dec i j) as [E|E]; [right; now left|].
              left. assert (Hjidx : j <> idx p).
              { intros ->. apply (Hno w a'). rewrite list_set_nth by auto.
                now rewrite Nat.eqb_refl. }
              split; [lia|]. intros w' a1 H. destruct (Nat.eq_dec w' w) as [->|Hne].
              ** rewrite Hw in H. injection H as H _. congruence.
              ** apply (Hno w' a1). rewrite list_set_nth by auto.
                 destruct (Nat.eqb_spec w' w); [contradiction | exact H].
        -- rewrite fold_left_app. simpl. now rewrite <- Hworld.
    + unfold pending. cbn [idx awaiting].
      rewrite (pending_set_some _ _ _ (idx p, a') Hw). lia.
  - assert (Hend : idx p = length arr).
    { apply nth_error_None in Enext. pose proof (inv_idx Hinv). lia. }
    eexists. split; [reflexivity|]. split.
    + constructor; cbn [idx ret awaiting world].
      * lia.
      * rewrite list_set_length. apply (inv_workers Hinv).
      * intros w' i' a0 H. rewrite list_set_nth in H by auto.
        destruct (w' =? w); [discriminate|]. now apply (inv_elem Hinv) in H.
      * intros w1 w2 i' a1 a2 H1 H2. rewrite list_set_nth in H1, H2 by auto.
        destruct (w1 =? w); [discriminate|]. destruct (w2 =? w); [discriminate|].
        eapply (inv_once Hinv); eauto.
      * intros j a0 Hj Hlt' Hno. rewrite array_get_set.
        destruct (Nat.eqb_spec j i) as [E|E].
        -- subst j. rewrite Ha in Hj. now injection Hj as <-.
        -- apply (inv_ret Hinv); [exact Hj | lia |].
           intros w' a1 H. destruct (Nat.eq_dec w' w) as [->|Hne].
           ++ rewrite Hw in H. injection H as H _. congruence.
           ++ apply (Hno w' a1). rewrite list_set_nth by auto.
              destruct (Nat.eqb_spec w' w); [contradiction | exact H].
      * rewrite array_set_length. pose proof (inv_len Hinv). lia.
      * intros _ _. exact Hend.
      * exists (log ++ [i]). split; [exact Hnd'|]. split.
        -- intros j. rewrite in_app_iff, Hlog. split.
           ++ intros [[Hj Hno] | [<- | []]].
              ** split; [lia|]. intros w' a1 H. rewrite list_set_nth in H by auto.
                 destruct (w' =? w); [discriminate | now apply Hno in H].
              ** split; [lia|]. intros w' a1 H. rewrite list_set_nth in H by auto.
                 destruct (Nat.eqb_spec w' w) as [E|E]; [discriminate|].
                 apply E. eapply (inv_once Hinv); eauto.
           ++ intros [Hj Hno]. destruct (Nat.eq_dec i j) as [E|E]; [right; now left|].
              left. split; [lia|]. intros w' a1 H. destruct (Nat.eq_dec w' w) as [->|Hne].
              ** rewrite Hw in H. injection H as H _. congruence.
              ** apply (Hno w' a1). rewrite list_set_nth by auto.
                 destruct (Nat.eqb_spec w' w); [contradiction | exact H].
        -- rewrite fold_left_app. simpl. now rewrite <- Hworld.
    + unfold pending. cbn [idx awaiting].
      rewrite <- (pending_set_none _ _ _ Hw). lia.
Qed.

Lemma reaches_inv (p p' : pool A B St) :
  reaches fn arr p p' -> pool_inv p -> pool_inv p'.
Proof.
  induction 1 as [p | p w p1 p2 Hstep _ IH]; auto.
  intros Hinv. apply IH. unfold settle in Hstep.
  destruct (nth_error (awaiting p) w) as [[[i a]|]|] eqn:Hw; try discriminate.
  destruct (@settle_went p w i a Hinv Hw) as (p1' & Hs & Hinv' & _).
  unfold settle in Hs. rewrite Hw in Hs. rewrite Hs in Hstep. now injection Hstep as <-.
Qed.

Lemma all_settled (p : pool A B St) :
  0 < limit -> pool_inv p -> pending p = [] ->
  idx p = length arr /\ forall w c, nth_error (awaiting p) w <> Some (Some c).
Proof.
  intros Hlimit Hinv Hdone.
  assert (Hnone : forall w c, nth_error (awaiting p) w <> Some (Some c)).
  { intros w c H. assert (Hin : In w (pending p)) by (apply pending_In; eauto).
    rewrite Hdone in Hin. destruct Hin. }
  split; [|exact Hnone].
  destruct (Nat.eq_dec (length arr) 0) as [Hzero|Hpos].
  - pose proof (inv_idx Hinv). lia.
  - apply (inv_done Hinv 0).
    destruct (nth_error (awaiting p) 0) as [[c|]|] eqn:E0.
    + exfalso. eapply Hnone; eauto.
    + reflexivity.
    + apply nth_error_None in E0. rewrite (inv_workers Hinv) in E0. lia.
Qed.

Lemma ret_complete (p : pool A B St) :
  0 < limit -> pool_inv p -> pending p = [] ->
  ret p = map (fun a => Some (val a)) arr.
Proof.
  intros Hlimit Hinv Hdone.
  destruct (all_settled Hlimit Hinv Hdone) as [Hidx Hnone].
  apply nth_error_ext. intros j. rewrite nth_error_map.
  destruct (nth_error arr j) as [a|] eqn:Ej.
  - assert (Hj : j < length arr) by (apply nth_error_Some; congruence).
    pose proof (@inv_ret p Hinv j a Ej) as Hret. unfold array_get in Hret.
    specialize (Hret ltac:(lia) ltac:(intros w a'; apply Hnone)).
    destruct (nth_error (ret p) j) as [[b|]|]; try discriminate.
    simpl. now injection Hret as ->.
  - simpl. apply nth_error_None. apply nth_error_None in Ej.
    pose proof (inv_len Hinv). lia.
Qed.

Lemma world_complete (p : pool A B St) :
  0 < limit -> pool_inv p -> pending p = [] ->
  exists log, Permutation log (seq 0 (length arr)) /\
              world p = fold_left (effect fn arr) log st0.
Proof.
  intros Hlimit Hinv Hdone.
  destruct (all_settled Hlimit Hinv Hdone) as [Hidx Hnone].
  destruct (inv_log Hinv) as (log & Hnd & Hlog & Hworld).
  exists log. split; [|exact Hworld].
  apply NoDup_Permutation; [exact Hnd | apply seq_NoDup |].
  intros j. rewrite Hlog, in_seq, Hidx. split.
  - intros [Hj _]. lia.
  - intros [_ Hj]. split; [exact Hj|]. intros w a'. apply Hnone.
Qed.

Lemma settle_all_complete : forall sched (p : pool A B St),
  0 < limit -> pool_inv p ->
  (length arr - idx p) + length (pending p) <= length sched ->
  exists log, Permutation log (seq 0 (length arr)) /\
    settle_all fn arr sched p
    = Some (Returned (map (fun a => Some (val a)) arr),
            fold_left (effect fn arr) log st0).
Proof.
  induction sched as [|k sched IH]; intros p Hlimit Hinv Hlen.
  - assert (Hdone : pending p = []) by (destruct (pending p); [reflexivity | simpl in Hlen; lia]).
    destruct (world_complete Hlimit Hinv Hdone) as (log & Hperm & Hworld).
    exists log. split; [exact Hperm|].
    simpl. rewrite Hdone. now rewrite (ret_complete Hlimit Hinv Hdone), Hworld.
  - cbn [settle_all]. destruct (pending p) as [|w0 ws] eqn:Hp.
    + destruct (world_complete Hlimit Hinv Hp) as (log & Hperm & Hworld).
      exists log. split; [exact Hperm|].
      now rewrite (ret_complete Hlimit Hinv Hp), Hworld.
    + set (w := nth (k mod length (w0 :: ws)) (w0 :: ws) w0).
      assert (Hin : In w (pending p)).
      { rewrite Hp. apply nth_In. apply Nat.mod_upper_bound. simpl. lia. }
      apply pending_In in Hin as [[i a] Hw].
      destruct (@settle_went p w i a Hinv Hw) as (p' & Hs & Hinv' & Hmu).
      rewrite Hs. apply IH; auto. rewrite Hp in Hmu. simpl in *. lia.
Qed.

Lemma start_measure :
  (length arr - idx (@start A B St arr limit st0))
  + length (pending (@start A B St arr limit st0)) <= length arr.
Proof.
  pose proof start_inv as Hinv.
  pose proof (inv_workers Hinv) as Hw.
  unfold pending. pose proof (pending_from_le (awaiting (@start A B St arr limit st0)) 0).
  assert (Hidx : idx (@start A B St arr limit st0) = Nat.min limit (length arr)).
  { unfold start.
    destruct (spawn_spec (Nat.min limit (length arr)) 0) as (Hidx & _); [lia|].
    destruct (spawn arr (Nat.min limit (length arr)) 0). simpl in *. lia. }
  lia.
Qed.

(** Every call returning, [parallelMap] answers with the results in the
    order of the array; the world is as the calls leave it, one after the
    other in the order in which they settled. *)
Lemma parallelMap_complete sched :
  0 < limit -> length arr <= length sched ->
  exists log, Permutation log (seq 0 (length arr)) /\
    parallelMap fn arr limit sched st0
    = Some (Returned (map (fun a => Some (val a)) arr),
            fold_left (effect fn arr) log st0).
Proof.
  intros Hlimit Hlen. unfold parallelMap.
  apply settle_all_complete; auto using start_inv.
  pose proof start_measure. lia.
Qed.

End PoolFacts.

(** X18: when every call on an element of the array resolves and the limit
    is positive, [parallelMap] returns the results in the order of the
    array, whatever the order in which the calls settle, and every call
    has taken effect exactly once, the calls in some order.  No more than
    [limit] calls are pending at a time and no element is awaited by two
    workers.  With a limit of 0 nothing is called and the answer is the
    empty array. *)
Theorem X18_parallelMap_order (A B St : Type) (fn : A -> St -> outcome B * St)
        (arr : list A) (limit : nat) (val : A -> B) (w0 : St) :
  (forall a st, In a arr -> fst (fn a st) = Returned (val a)) ->
  (0 < limit ->
   forall sched, length arr <= length sched ->
     exists log, Permutation log (seq 0 (length arr)) /\
       Parallel.parallelMap fn arr limit sched w0
       = Some (Returned (map (fun a => Some (val a)) arr),
               fold_left (Parallel.effect fn arr) log w0)) /\
  (forall p, Parallel.reaches fn arr (@Parallel.start A B St arr limit w0) p ->
     length (Parallel.pending p) <= limit /\
     forall w1 w2 i a1 a2,
       nth_error (Parallel.awaiting p) w1 = Some (Some (i, a1)) ->
       nth_error (Parallel.awaiting p) w2 = Some (Some (i, a2)) -> w1 = w2) /\
  (forall sched, Parallel.parallelMap fn arr 0 sched w0 = Some (Returned [], w0)).
Proof.
  intros Hval. split; [|split].
  - intros Hlimit sched Hlen. now apply parallelMap_complete.
  - intros p Hreach.
    pose proof (@reaches_inv A B St fn arr limit val w0 Hval _ _ Hreach
                             (@start_inv A B St fn arr limit val w0)) as Hinv.
    split.
    + unfold Parallel.pending. pose proof (pending_from_le (Parallel.awaiting p) 0).
      pose proof (inv_workers Hinv). lia.
    + apply (inv_once Hinv).
  - intros sched. unfold Parallel.parallelMap, Parallel.start. simpl.
    destruct sched; reflexivity.
Qed.

Lemma X18_parallelMap_witness :
  exists log, Permutation log (seq 0 4) /\
    Parallel.parallelMap (fun (a : nat) (st : list nat) => (Returned (a * a), st ++ [a]))
                [1; 2; 3; 4] 3 [2; 0; 1; 0] []
    = Some (Returned [Some 1; Some 4; Some 9; Some 16],
            fold_left (Parallel.effect (fun (a : nat) (st : list nat) => (Returned (a * a), st ++ [a]))
                              [1; 2; 3; 4]) log []).
Proof.
  apply (proj1 (@X18_parallelMap_order nat nat (list nat)
                  (fun a st => (Returned (a * a), st ++ [a])) [1; 2; 3; 4] 3
                  (fun a => a * a) [] (fun a st _ => eq_refl))).
  - lia.
  - simpl. lia.
Defined.


Section ParallelRun.
Variable toLowerCase : jsstring -> jsstring.

Lemma nth_error_combine_seq {X} (l : list X) : forall a j,
  nth_error (combine (seq a (length l)) l) j
  = match nth_error l j with Some y => Some (a + j, y) | None => None end.
Proof.
  induction l as [|x l IH]; intros a j; simpl.
  - now destruct j.
  - destruct j as [|j]; simpl.
    + now rewrite Nat.add_0_r.
    + rewrite IH. destruct (nth_error l j); auto. do 2 f_equal. lia.
Qed.

Lemma In_combine_seq {X} (l : list X) n y :
  In (n, y) (combine (seq 0 (length l)) l) -> nth_error l n = Some y.
Proof.
  intros H. apply In_nth_error in H as [j Hj].
  rewrite nth_error_combine_seq in Hj.
  destruct (nth_error l j) as [y'|] eqn:E; [|discriminate].
  simpl in Hj. now injection Hj as <- <-.
Qed.

Lemma map_yearResults (items : nat -> list jsval) (l : list Parallel.yearOption) : forall a,
  map (fun y => yearResult (Parallel.yearLabel (snd y)) (items (fst y)))
      (combine (seq a (length l)) l)
  = yearResults items a l.
Proof.
  induction l as [|y l IH]; intros a; simpl; [reflexivity|]. now rewrite IH.
Qed.

Lemma scrape_finds (p : Parallel.page) digits name n y f d :
  finds toLowerCase p n y f ->
  Parallel.scrapeYearInParallel toLowerCase p digits name n y d
  = (Returned (yearResult (Parallel.yearLabel y) f),
     match f with
     | _ :: _ => writeFile (yearPath (Parallel.yearLabel y))
                           (yearPayload digits name (Parallel.yearLabel y) f) d
     | [] => d
     end).
Proof.
  intros [Hv Hc | tables f' Hv Hf Hc]; unfold Parallel.scrapeYearInParallel;
    rewrite Hv; [|rewrite Hf]; now rewrite Hc.
Qed.

Lemma fold_left_pointwise {X Y} (f g : X -> Y -> X) :
  (forall x y, f x y = g x y) -> forall l x, fold_left f l x = fold_left g l x.
Proof.
  intros H. induction l as [|y l IH]; intros x; simpl; [reflexivity|].
  now rewrite H, IH.
Qed.

Lemma parallel_shot_read (p : Parallel.page) d path :
  path <> Parallel.screenshotPath ->
  readFile path (Parallel.takeScreenshot p d) = readFile path d.
Proof.
  intros H. unfold Parallel.takeScreenshot.
  destruct (Parallel.screenshot p); [now apply readFile_image_other | reflexivity].
Qed.

(** Every visit returning, the run over eligible years answers whatever
    the schedule: the files of the years are written in the order in which
    the calls settle, then the aggregate with every year in the order of
    the list, and last the screenshot. *)
Lemma parallel_run_complete (p : Parallel.page) (d : disk) (items : nat -> list jsval)
      (sched : list nat) :
  let years := Parallel.getAvailableYears (Parallel.yearPage p) in
  let digits := Parallel.normalizeCNPJ (Parallel.cnpjArg p) in
  let name := firstTruthy [Parallel.nameListInline p] in
  years <> [] ->
  (forall n y, nth_error years n = Some y -> finds toLowerCase p n y (items n)) ->
  length years <= length sched ->
  exists log,
    Permutation log (seq 0 (length years)) /\
    Parallel.run toLowerCase sched p d
    = Some (Returned tt,
            Parallel.takeScreenshot p
              (lateName (Parallel.nameFromLabel p)
                 (writeFile aggregatePath
                    (Parallel.aggregate digits name (yearResults items 0 years))
                    (fold_left (yearFile digits name years items) log d)))).
Proof.
  intros years digits name Hne Hfinds Hlen.
  unfold Parallel.run. fold years digits name. clearbody years.
  destruct years as [|y0 ys] eqn:Eys; [contradiction|]. rewrite <- Eys in *. clear Eys y0 ys.
  set (fn := fun y : nat * Parallel.yearOption =>
               Parallel.scrapeYearInParallel toLowerCase p digits name (fst y) (snd y)).
  set (arr := combine (seq 0 (length years)) years).
  set (val := fun y : nat * Parallel.yearOption =>
                yearResult (Parallel.yearLabel (snd y)) (items (fst y))).
  assert (Hval : forall a st, In a arr -> fst (fn a st) = Returned (val a)).
  { intros [n y] st Hin. apply In_combine_seq in Hin.
    unfold fn. cbn [fst snd]. now rewrite (scrape_finds _ _ _ (Hfinds n y Hin)). }
  assert (Harr : length arr = length years).
  { unfold arr. rewrite length_combine, length_seq. lia. }
  destruct (@parallelMap_complete _ _ _ fn arr 3 val d Hval sched) as (log & Hperm & Hrun);
    [lia | lia |].
  exists log. split; [now rewrite <- Harr|].
  rewrite Hrun.
  replace (map Parallel.hole (map (fun a => Some (val a)) arr))
    with (yearResults items 0 years)
    by (rewrite map_map; symmetry; apply map_yearResults).
  do 5 f_equal.
  apply fold_left_pointwise. intros st j.
  unfold Parallel.effect, yearFile, arr. rewrite nth_error_combine_seq.
  destruct (nth_error years j) as [y|] eqn:Ej; [|reflexivity].
  unfold fn. cbn [fst snd]. rewrite (scrape_finds _ _ _ (Hfinds j y Ej)). reflexivity.
Qed.


Lemma yearPath_inj a b : yearPath a = yearPath b -> a = b.
Proof.
  unfold yearPath. intros E. apply app_inv_head in E. now apply app_inv_tail in E.
Qed.

Section YearFiles.
Variables (digits : jsstring) (name : jsval) (years : list Parallel.yearOption).
Variable items : nat -> list jsval.
Hypothesis labels_differ : NoDup (map Parallel.yearLabel years).

Lemma label_at n j y yj :
  nth_error years n = Some y -> nth_error years j = Some yj ->
  Parallel.yearLabel yj = Parallel.yearLabel y -> j = n.
Proof.
  intros Hn Hj E.
  apply (proj1 (NoDup_nth_error (map Parallel.yearLabel years)) labels_differ).
  - rewrite length_map. apply nth_error_Some. congruence.
  - rewrite !nth_error_map, Hn, Hj. simpl. now rewrite E.
Qed.

Lemma yearFile_other n j y d :
  nth_error years n = Some y -> j <> n ->
  readFile (yearPath (Parallel.yearLabel y)) (yearFile digits name years items d j)
  = readFile (yearPath (Parallel.yearLabel y)) d.
Proof.
  intros Hn Hj. unfold yearFile.
  destruct (nth_error years j) as [yj|] eqn:Ej; [|reflexivity].
  destruct (items j); [reflexivity|].
  apply readFile_write_other. intros E. apply yearPath_inj in E.
  apply Hj. symmetry in E. eapply label_at; eauto.
Qed.

Lemma yearFiles_written n y : forall log d,
  nth_error years n = Some y -> In n log -> items n <> [] ->
  readFile (yearPath (Parallel.yearLabel y)) (fold_left (yearFile digits name years items) log d)
  = Some (jsonify (yearPayload digits name (Parallel.yearLabel y) (items n))).
Proof.
  induction log as [|j log IH] using rev_ind; intros d Hn Hin Hitems; [destruct Hin|].
  rewrite fold_left_app. cbn [fold_left].
  destruct (Nat.eq_dec j n) as [->|Hj].
  - unfold yearFile at 1. rewrite Hn.
    destruct (items n) eqn:E; [contradiction|]. apply readFile_write_same.
  - rewrite (@yearFile_other n j y _ Hn Hj). apply IH; auto.
    apply in_app_or in Hin as [H | [H | []]]; [exact H | contradiction].
Qed.

Lemma yearFiles_kept n y : forall log d,
  nth_error years n = Some y -> items n = [] ->
  readFile (yearPath (Parallel.yearLabel y)) (fold_left (yearFile digits name years items) log d)
  = readFile (yearPath (Parallel.yearLabel y)) d.
Proof.
  induction log as [|j log IH] using rev_ind; intros d Hn Hitems; [reflexivity|].
  rewrite fold_left_app. cbn [fold_left].
  destruct (Nat.eq_dec j n) as [->|Hj].
  - unfold yearFile at 1. rewrite Hn, Hitems. now apply IH.
  - rewrite (@yearFile_other n j y _ Hn Hj). now apply IH.
Qed.

End YearFiles.

(** X19: the engine with one page per year, over eligible years whose
    visits all return, answers whatever the order in which the calls
    settle.  The files of the years that have records are written one
    after the other, the years in some order; then the aggregate is
    written with one YearResult per eligible year, in the order of the
    list of years, the years without records included; a late name is
    put into the aggregate, and the screenshot is written last, when the
    driver takes it. *)
Theorem X19_one_page_per_year (p : Parallel.page) (d : disk) (items : nat -> list jsval)
        (sched : list nat) :
  let years := Parallel.getAvailableYears (Parallel.yearPage p) in
  let digits := Parallel.normalizeCNPJ (Parallel.cnpjArg p) in
  let name := firstTruthy [Parallel.nameListInline p] in
  years <> [] ->
  (forall n y, nth_error years n = Some y -> finds toLowerCase p n y (items n)) ->
  length years <= length sched ->
  exists log,
    Permutation log (seq 0 (length years)) /\
    Parallel.run toLowerCase sched p d
    = Some (Returned tt,
            Parallel.takeScreenshot p
              (lateName (Parallel.nameFromLabel p)
                 (writeFile aggregatePath
                    (Parallel.aggregate digits name (yearResults items 0 years))
                    (fold_left (yearFile digits name years items) log d)))).
Proof. apply parallel_run_complete. Qed.

(** X20: in a run of the engine with one page per year over eligible
    years whose visits all return, when the labels of the years differ
    from one another and none is "all", the files read the same whatever
    the order in which the calls settle: the file of a year with records
    holds the records of that year, the file of a year without records is
    as it was before the run, and the aggregate lists the YearResults in
    the order of the years. *)
Theorem X20_files_whatever_the_schedule (p : Parallel.page) (d : disk)
        (items : nat -> list jsval) (sched : list nat) :
  let years := Parallel.getAvailableYears (Parallel.yearPage p) in
  let digits := Parallel.normalizeCNPJ (Parallel.cnpjArg p) in
  let name := firstTruthy [Parallel.nameListInline p] in
  years <> [] ->
  (forall n y, nth_error years n = Some y -> finds toLowerCase p n y (items n)) ->
  length years <= length sched ->
  NoDup (map Parallel.yearLabel years) ->
  (forall y, In y years -> Parallel.yearLabel y <> str "all") ->
  exists d',
    Parallel.run toLowerCase sched p d = Some (Returned tt, d') /\
    (forall n y, nth_error years n = Some y -> items n <> [] ->
       readFile (yearPath (Parallel.yearLabel y)) d'
       = Some (jsonify (yearPayload digits name (Parallel.yearLabel y) (items n)))) /\
    (forall n y, nth_error years n = Some y -> items n = [] ->
       readFile (yearPath (Parallel.yearLabel y)) d'
       = readFile (yearPath (Parallel.yearLabel y)) d) /\
    (exists agg, readFile aggregatePath d' = Some (VObj agg) /\
                 obj_get (str "years") agg
                 = Some (jsonify (VArr (yearResults items 0 years)))).
Proof.
  intros years digits name Hne Hfinds Hlen Hnd Hall.
  destruct (@parallel_run_complete p d items sched Hne Hfinds Hlen) as (log & Hperm & Hrun).
  fold years digits name in Hrun.
  eexists. split; [exact Hrun|].
  assert (Hpath : forall n y, nth_error years n = Some y ->
                              yearPath (Parallel.yearLabel y) <> aggregatePath).
  { intros n y Hn E. apply yearPath_aggregate in E.
    apply (Hall y); [eapply nth_error_In; eauto | exact E]. }
  split; [|split].
  - intros n y Hn Hitems. rewrite parallel_shot_read by discriminate.
    rewrite lateName_other by eauto. rewrite readFile_write_other by eauto.
    assert (Hlt : n < length years) by (apply nth_error_Some; rewrite Hn; discriminate).
    apply yearFiles_written; auto.
    apply (Permutation_in _ (Permutation_sym Hperm)). apply in_seq.
    split; [lia | exact Hlt].
  - intros n y Hn Hitems. rewrite parallel_shot_read by discriminate.
    rewrite lateName_other by eauto. rewrite readFile_write_other by eauto.
    eapply yearFiles_kept; eauto.
  - rewrite parallel_shot_read by discriminate. eapply lateName_years.
    + rewrite readFile_write_same. reflexivity.
    + unfold Parallel.aggregate. reflexivity.
Qed.

End ParallelRun.

Lemma parallelPage_finds n y :
  nth_error (Parallel.getAvailableYears (Parallel.yearPage Examples.parallelPage)) n = Some y ->
  finds Examples.toLowerCase Examples.parallelPage n y (Examples.parallelItems n).
Proof.
  destruct n as [|[|[|[|n]]]]; intros Hn; vm_compute in Hn;
    [| | | | destruct n; discriminate]; injection Hn as <-.
  - eapply finds_shows; [reflexivity | vm_compute; reflexivity | reflexivity].
  - eapply finds_shows; [reflexivity | vm_compute; reflexivity | reflexivity].
  - apply finds_no_input; reflexivity.
  - eapply finds_shows; [reflexivity | vm_compute; reflexivity | reflexivity].
Defined.

Lemma X19_one_page_witness :
  exists log,
    Permutation log (seq 0 (length (Parallel.getAvailableYears (Parallel.yearPage Examples.parallelPage)))) /\
    Parallel.run Examples.toLowerCase [1; 1; 0; 0] Examples.parallelPage Examples.emptyDisk
    = Some (Returned tt,
            Parallel.takeScreenshot Examples.parallelPage
              (lateName (Parallel.nameFromLabel Examples.parallelPage)
                 (writeFile aggregatePath
                    (Parallel.aggregate
                       (Parallel.normalizeCNPJ (Parallel.cnpjArg Examples.parallelPage))
                       (firstTruthy [Parallel.nameListInline Examples.parallelPage])
                       (yearResults Examples.parallelItems 0
                          (Parallel.getAvailableYears
                             (Parallel.yearPage Examples.parallelPage))))
                    (fold_left
                       (yearFile
                          (Parallel.normalizeCNPJ (Parallel.cnpjArg Examples.parallelPage))
                          (firstTruthy [Parallel.nameListInline Examples.parallelPage])
                          (Parallel.getAvailableYears (Parallel.yearPage Examples.parallelPage))
                          Examples.parallelItems)
                       log Examples.emptyDisk)))).
Proof.
  apply (@X19_one_page_per_year Examples.toLowerCase Examples.parallelPage Examples.emptyDisk Examples.parallelItems [1; 1; 0; 0]).
  - vm_compute. discriminate.
  - apply parallelPage_finds.
  - vm_compute. lia.
Defined.

Lemma X20_files_witness :
  exists d',
    Parallel.run Examples.toLowerCase [1; 1; 0; 0] Examples.parallelPage Examples.emptyDisk = Some (Returned tt, d') /\
    readFile (yearPath (Parallel.yearLabel (Parallel.selectOption Examples.opt2026))) d'
    = Some (jsonify (yearPayload (Parallel.normalizeCNPJ (Parallel.cnpjArg Examples.parallelPage))
                                 (firstTruthy [Parallel.nameListInline Examples.parallelPage])
                                 (Parallel.yearLabel (Parallel.selectOption Examples.opt2026))
                                 (Examples.parallelItems 3))) /\
    readFile (yearPath (Parallel.yearLabel (Parallel.selectOption Examples.opt2024))) d'
    = readFile (yearPath (Parallel.yearLabel (Parallel.selectOption Examples.opt2024))) Examples.emptyDisk.
Proof.
  destruct (@X20_files_whatever_the_schedule Examples.toLowerCase Examples.parallelPage Examples.emptyDisk
              Examples.parallelItems [1; 1; 0; 0]) as (d' & Hrun & Hwritten & Hkept & _).
  - vm_compute. discriminate.
  - apply parallelPage_finds.
  - vm_compute. lia.
  - vm_compute. repeat constructor; intros H; repeat (destruct H as [H | H]; try discriminate); auto.
  - intros y Hy. vm_compute in Hy.
    repeat (destruct Hy as [<- | Hy]; [vm_compute; discriminate|]). destruct Hy.
  - exists d'. split; [exact Hrun|]. split.
    + apply (Hwritten 3 (Parallel.selectOption Examples.opt2026)); [vm_compute; reflexivity | vm_compute; discriminate].
    + apply (Hkept 1 (Parallel.selectOption Examples.opt2024)); vm_compute; reflexivity.
Defined.

(* ===================================================================== *)
(** * The name read at the end of a sequential run                       *)
(* ===================================================================== *)

Lemma prefix_label (pre post : jsstring) :
  prefixb (str "Nome:") (pre ++ str "Nome:" ++ post) = true ->
  pre = [] \/ occurs (str "Nome:") pre.
Proof.
  change (str "Nome:") with [78; 111; 109; 101; 58]%N.
  intros H. destruct pre as [|c1 [|c2 [|c3 [|c4 [|c5 pre]]]]]; [now left | exfalso.. | right];
    cbn [prefixb app] in H;
    repeat match type of H with
           | (_ && _) = true =>
             let E := fresh "E" in apply andb_prop in H; destruct H as [E H]
           end.
  1-4: match goal with
       | E : (?a =? ?b)%N = true |- _ => apply N.eqb_eq in E; discriminate E
       end.
  apply N.eqb_eq in E, E0, E1, E2, E3. subst.
  exists [], pre. reflexivity.
Qed.

Lemma replace_label (post : jsstring) : forall pre : jsstring,
  ~ occurs (str "Nome:") pre ->
  replace_first (str "Nome:") (str "") (pre ++ str "Nome:" ++ post) = pre ++ post.
Proof.
  induction pre as [|c pre IH]; intros Hno.
  - reflexivity.
  - change ((c :: pre) ++ str "Nome:" ++ post) with (c :: (pre ++ str "Nome:" ++ post)).
    cbn [replace_first].
    destruct (prefixb (str "Nome:") (c :: pre ++ str "Nome:" ++ post)) eqn:E.
    + apply (prefix_label (c :: pre) post) in E as [E | E]; [discriminate | contradiction].
    + simpl. f_equal. apply IH. intros (a & b & ->). apply Hno. exists (c :: a), b. reflexivity.
Qed.

Lemma find_at_first {X} (f : X -> bool) (before after : list X) x :
  (forall t, In t before -> f t = false) -> f x = true ->
  find f (before ++ x :: after) = Some x.
Proof.
  induction before as [|b before IH]; intros Hb Hx; simpl.
  - now rewrite Hx.
  - rewrite (Hb b) by (now left). apply IH; auto. intros t Ht. apply Hb. now right.
Qed.

Lemma find_none {X} (f : X -> bool) (l : list X) :
  (forall t, In t l -> f t = false) -> find f l = None.
Proof.
  induction l as [|b l IH]; intros Hb; simpl; auto.
  rewrite (Hb b) by (now left). apply IH. intros t Ht. apply Hb. now right.
Qed.

Lemma includes_no (s sub : jsstring) : ~ occurs sub s -> includes s sub = false.
Proof.
  intros H. destruct (includes s sub) eqn:E; auto. apply includes_spec in E. contradiction.
Qed.

Lemma trimStart_spaces s : all_of is_space s -> trimStart s = [].
Proof.
  induction s as [|c s IH]; intros H; [reflexivity|].
  apply all_of_cons in H as [Hc Hs]. simpl. rewrite Hc. auto.
Qed.

Lemma trim_spaces s : all_of is_space s -> trim s = [].
Proof. intros H. unfold trim. now rewrite trimStart_spaces. Qed.

Lemma all_of_app p a b : all_of p (a ++ b) <-> all_of p a /\ all_of p b.
Proof. unfold all_of. rewrite forallb_app. apply andb_true_iff. Qed.

Lemma spaces_no_label s : all_of is_space s -> ~ occurs (str "Nome:") s.
Proof.
  intros H (a & b & ->). apply all_of_app in H as [_ H].
  change (str "Nome:" ++ b) with (78%N :: (str "ome:" ++ b)) in H.
  apply all_of_cons in H as [H _]. discriminate H.
Qed.

(** X21: the name read at the end of a sequential run.  When the first
    list item that holds "Nome:" reads [pre ++ "Nome:" ++ post], the name
    is [pre ++ post] trimmed: what precedes the label stays in the name.
    Without such an item the name is the text of the first [li strong],
    trimmed.  An item that holds the label and white space only gives the
    empty name: the aggregate is not written again, whatever [li strong]
    holds. *)
Theorem X21_late_name_of_an_item (strong : option jsstring) :
  (forall (before after : list jsstring) (pre post : jsstring),
     (forall t, In t before -> ~ occurs (str "Nome:") t) ->
     ~ occurs (str "Nome:") pre ->
     Playwright.nomeFinalOf (before ++ (pre ++ str "Nome:" ++ post : jsstring) :: after) strong
     = Some (trim (pre ++ post))) /\
  (forall itens : list jsstring,
     (forall t, In t itens -> ~ occurs (str "Nome:") t) ->
     Playwright.nomeFinalOf itens strong = option_map trim strong) /\
  (forall (before after : list jsstring) (pre post : jsstring) json d,
     (forall t, In t before -> ~ occurs (str "Nome:") t) ->
     all_of is_space (pre ++ post) ->
     Playwright.lateNome
       (Playwright.nomeFinalOf (before ++ (pre ++ str "Nome:" ++ post : jsstring) :: after) strong)
       json d = d).
Proof.
  assert (Hfirst : forall (before after : list jsstring) (pre post : jsstring),
             (forall t, In t before -> ~ occurs (str "Nome:") t) ->
             ~ occurs (str "Nome:") pre ->
             Playwright.nomeFinalOf (before ++ (pre ++ str "Nome:" ++ post : jsstring) :: after) strong
             = Some (trim (pre ++ post))).
  { intros before after pre post Hbefore Hpre. unfold Playwright.nomeFinalOf.
    rewrite find_at_first.
    - now rewrite replace_label.
    - intros t Ht. apply includes_no. auto.
    - apply includes_spec. exists pre, post. reflexivity. }
  split; [exact Hfirst | split].
  - intros itens Hno. unfold Playwright.nomeFinalOf. rewrite find_none.
    + now destruct strong.
    + intros t Ht. apply includes_no. auto.
  - intros before after pre post json d Hbefore Hsp.
    rewrite Hfirst; auto.
    + rewrite (trim_spaces Hsp). reflexivity.
    + apply spaces_no_label. now apply all_of_app in Hsp as [Hsp _].
Qed.

Lemma X21_late_name_witness :
  Playwright.nomeFinalOf ([str "Ano: 2024"]
               ++ (str "CNPJ: 12.345.678/0001-95 - " ++ str "Nome:" ++ str " ACME LTDA" : jsstring)
               :: [str "Nome: OUTRA"]) None
  = Some (trim (str "CNPJ: 12.345.678/0001-95 - " ++ str " ACME LTDA")).
Proof.
  apply (proj1 (X21_late_name_of_an_item None)).
  - intros t [<- | []] H. apply includes_spec in H. vm_compute in H. discriminate H.
  - intros H. apply includes_spec in H. vm_compute in H. discriminate H.
Defined.
